(** * A heuristic code-complexity analyzer: embedding and verification

    The program under study is the JavaScript module whose default export is
    [analyzeComplexity]: it strips comments and string literals from a text,
    looks for names of textbook algorithms, finds loops and self-recursive
    functions with regular expressions and brace counting, and turns these
    signals into a verdict (a time bound, a space bound and two explanations).

    Texts are sequences of code units.  The embedding covers the code units
    0..255 (the Latin-1 range), for which [toLowerCase], [trim], [\s], [\w]
    and the line terminators are written out below; a text is a [list ascii].
    The output literals of the program are kept as they are written in its
    source.

    The embedding is the program on an engine without limits of size: a
    pattern of any length is compiled, and the matcher backtracks as deep as
    a text requires.  An engine that refuses a pattern as too large, or that
    gives up a match for want of stack, makes the call throw where the
    embedding returns. *)

From Stdlib Require Import List String Ascii Arith NArith Bool Lia DecimalString.
From stdpp Require Import gmap.
Import ListNotations.

Set Implicit Arguments.

(** ** Texts and code units *)

Definition str := list ascii.

Definition lit (s : string) : str := list_ascii_of_string s.

Definition cu (c : ascii) : N := N_of_ascii c.

Definition in_range (lo hi : N) (c : ascii) : bool :=
  (N.leb lo (cu c) && N.leb (cu c) hi)%bool.

(** [\w] is [A-Za-z0-9_]. *)
Definition is_word (c : ascii) : bool :=
  (in_range 65 90 c || in_range 97 122 c || in_range 48 57 c || N.eqb (cu c) 95)%bool.

(** [A-Za-z_], the first character of an identifier. *)
Definition is_ident_start (c : ascii) : bool :=
  (in_range 65 90 c || in_range 97 122 c || N.eqb (cu c) 95)%bool.

(** Line terminators below 256: LF and CR. *)
Definition is_line_terminator (c : ascii) : bool :=
  (N.eqb (cu c) 10 || N.eqb (cu c) 13)%bool.

(** [\s], and the characters that [trim] removes: TAB, LF, VT, FF, CR, space
    and the no-break space. *)
Definition is_space (c : ascii) : bool :=
  (in_range 9 13 c || N.eqb (cu c) 32 || N.eqb (cu c) 160)%bool.

(** [toLowerCase] on one code unit: A-Z and the Latin-1 capitals
    (0xC0..0xDE except the multiplication sign 0xD7). *)
Definition lower_char (c : ascii) : ascii :=
  if (in_range 65 90 c || (in_range 192 222 c && negb (N.eqb (cu c) 215)))%bool
  then ascii_of_N (cu c + 32) else c.

Definition toLowerCase (s : str) : str := map lower_char s.

Fixpoint str_eqb (a b : str) : bool :=
  match a, b with
  | [], [] => true
  | x :: a', y :: b' => (Ascii.eqb x y && str_eqb a' b')%bool
  | _, _ => false
  end.

(** [s.startsWith(w)] at the head of [s]. *)
Fixpoint starts_with (w s : str) : bool :=
  match w, s with
  | [], _ => true
  | _ :: _, [] => false
  | a :: w', b :: s' => (Ascii.eqb a b && starts_with w' s')%bool
  end.

(** [s.includes(w)]. *)
Fixpoint includes (s w : str) : bool :=
  (starts_with w s ||
   match s with
   | [] => false
   | _ :: s' => includes s' w
   end)%bool.

(** [s.slice(from, to)] for [0 <= from], [0 <= to]. *)
Definition slice (s : str) (from to : nat) : str :=
  firstn (to - from) (skipn from s).

(** [s.indexOf(c, from)]; [None] stands for -1. *)
Fixpoint index_from (c : ascii) (s : str) (i from : nat) : option nat :=
  match s with
  | [] => None
  | x :: s' =>
      if ((from <=? i) && Ascii.eqb x c)%bool then Some i
      else index_from c s' (S i) from
  end.

Definition indexOf (s : str) (c : ascii) (from : nat) : option nat :=
  index_from c s 0 from.

(** [s.trim()]. *)
Fixpoint trim_start (s : str) : str :=
  match s with
  | c :: s' => if is_space c then trim_start s' else s
  | [] => []
  end.

Definition trim (s : str) : str := rev (trim_start (rev (trim_start s))).

(** ** Regular expressions

    The patterns of the program use literals, classes, [.], sequence,
    alternation, greedy and lazy stars, capture groups, one backreference, one
    negative lookahead, [\b] and the multiline [$].  [+], [?] and [{2}] are
    written with these. *)

Inductive regex : Type :=
| Eps
| Chr (c : ascii)
| Cls (p : ascii -> bool)
| Seq (a b : regex)
| Alt (a b : regex)
| Star (greedy : bool) (a : regex)
| Group (i : nat) (a : regex)
| Backref (i : nat)
| NegLook (a : regex)
| WordB
| Eol.

Definition Plus (a : regex) : regex := Seq a (Star true a).
Definition Opt (a : regex) : regex := Alt a Eps.
(** [.] without the [s] flag: any character but a line terminator. *)
Definition Dot : regex := Cls (fun c => negb (is_line_terminator c)).
Definition Any : regex := Cls (fun _ => true).
Definition Word : regex := Cls is_word.
Definition Space : regex := Cls is_space.
Definition IdStart : regex := Cls is_ident_start.
Definition NotChr (c : ascii) : regex := Cls (fun x => negb (Ascii.eqb x c)).
Definition OneOf (s : string) : regex :=
  Cls (fun x => existsb (Ascii.eqb x) (lit s)).

Fixpoint Lit (s : str) : regex :=
  match s with
  | [] => Eps
  | [c] => Chr c
  | c :: s' => Seq (Chr c) (Lit s')
  end.

Definition L (s : string) : regex := Lit (lit s).

Fixpoint seqs (rs : list regex) : regex :=
  match rs with
  | [] => Eps
  | [r] => r
  | r :: rs' => Seq r (seqs rs')
  end.

Fixpoint alts (rs : list regex) : regex :=
  match rs with
  | [] => Eps
  | [r] => r
  | r :: rs' => Alt r (alts rs')
  end.

(** A position in the subject: the character before it (for [\b]), the text
    from it on, and its index. *)
Record cursor : Type := { prev : option ascii; rest : str; idx : nat }.

Definition caps := list (nat * str).

Fixpoint cap_get (i : nat) (cs : caps) : option str :=
  match cs with
  | [] => None
  | (j, w) :: cs' => if Nat.eqb i j then Some w else cap_get i cs'
  end.

Definition next (st : cursor) (x : ascii) (t : str) : cursor :=
  {| prev := Some x; rest := t; idx := S (idx st) |}.

(** Consume the text [w] at the cursor, if it is there. *)
Fixpoint consume (w : str) (st : cursor) : option cursor :=
  match w with
  | [] => Some st
  | a :: w' =>
      match rest st with
      | x :: t => if Ascii.eqb a x then consume w' (next st x t) else None
      | [] => None
      end
  end.

Definition word_at (o : option ascii) : bool :=
  match o with Some c => is_word c | None => false end.

Definition outcome := option (cursor * caps).

Definition matcher := cursor -> caps -> (cursor -> caps -> outcome) -> outcome.

(** The iterations of a star over [body], at most [n] of them.  A greedy
    star tries one more iteration first, a lazy star tries to stop first.  An
    iteration that consumes nothing is rejected. *)
Fixpoint star_iter (body : matcher) (greedy : bool) (k : cursor -> caps -> outcome)
    (n : nat) (st : cursor) (cs : caps) {struct n} : outcome :=
  match n with
  | O => k st cs
  | S n' =>
      let more :=
        body st cs (fun st' cs' =>
          if idx st <? idx st' then star_iter body greedy k n' st' cs' else None) in
      if greedy then
        match more with
        | Some o => Some o
        | None => k st cs
        end
      else
        match k st cs with
        | Some o => Some o
        | None => more
        end
  end.

(** The backtracking matcher, with the priorities of the language: the left
    alternative first, then the right one.  A star is bounded by one more than
    the number of characters left, which no sequence of consuming iterations
    can reach. *)
Fixpoint run (r : regex) (st : cursor) (cs : caps)
    (k : cursor -> caps -> outcome) {struct r} : outcome :=
  match r with
  | Eps => k st cs
  | Chr c =>
      match rest st with
      | x :: t => if Ascii.eqb x c then k (next st x t) cs else None
      | [] => None
      end
  | Cls p =>
      match rest st with
      | x :: t => if p x then k (next st x t) cs else None
      | [] => None
      end
  | Seq a b => run a st cs (fun st' cs' => run b st' cs' k)
  | Alt a b =>
      match run a st cs k with
      | Some o => Some o
      | None => run b st cs k
      end
  | Star greedy a => star_iter (run a) greedy k (S (length (rest st))) st cs
  | Group i a =>
      run a st cs (fun st' cs' =>
        k st' ((i, firstn (idx st' - idx st) (rest st)) :: cs'))
  | Backref i =>
      match cap_get i cs with
      | None => k st cs
      | Some w =>
          match consume w st with
          | Some st' => k st' cs
          | None => None
          end
      end
  | NegLook a =>
      match run a st cs (fun st' cs' => Some (st', cs')) with
      | Some _ => None
      | None => k st cs
      end
  | WordB =>
      if xorb (word_at (prev st)) (word_at (hd_error (rest st)))
      then k st cs else None
  | Eol =>
      match rest st with
      | [] => k st cs
      | x :: _ => if is_line_terminator x then k st cs else None
      end
  end.

(** The result of a successful [exec]: [index] is [m.index], [stop] is the
    index after the match, [whole] is [m[0]] and [groups] the captures. *)
Record MatchResult : Type :=
  { index : nat; stop : nat; whole : str; groups : caps }.

(** [m[i]]; a group that took no part in the match reads as the empty text. *)
Definition group (i : nat) (m : MatchResult) : str :=
  match cap_get i (groups m) with Some w => w | None => [] end.

Definition match_at (re : regex) (st : cursor) : option MatchResult :=
  match run re st [] (fun st' cs' => Some (st', cs')) with
  | Some (st', cs') =>
      Some {| index := idx st; stop := idx st';
              whole := firstn (idx st' - idx st) (rest st); groups := cs' |}
  | None => None
  end.

(** The leftmost match that starts at [lastIndex] or later. *)
Fixpoint exec_scan (re : regex) (p : option ascii) (s : str) (i lastIndex : nat)
    : option MatchResult :=
  let here :=
    if lastIndex <=? i
    then match_at re {| prev := p; rest := s; idx := i |}
    else None in
  match here with
  | Some m => Some m
  | None =>
      match s with
      | [] => None
      | x :: s' => exec_scan re (Some x) s' (S i) lastIndex
      end
  end.

Definition exec (re : regex) (s : str) (lastIndex : nat) : option MatchResult :=
  exec_scan re None s 0 lastIndex.

(** [re.test(s)] and [s.match(re)] for a pattern without the [g] flag. *)
Definition test (re : regex) (s : str) : bool :=
  match exec re s 0 with Some _ => true | None => false end.

(** The successive matches of a global pattern, [lastIndex] passing from one
    [exec] to the next.  With [advance], an empty match moves [lastIndex] one
    further, as [replace], [match] and [matchAll] do.  Without it, this is the
    loop [while ((m = re.exec(s)) !== null)], which an empty match would keep
    at the same place for ever: [None] is a loop that does not end. *)
Fixpoint exec_loop (advance : bool) (fuel : nat) (re : regex) (s : str)
    (lastIndex : nat) : option (list MatchResult) :=
  match fuel with
  | O => None
  | S fuel' =>
      match exec re s lastIndex with
      | None => Some []
      | Some m =>
          let li :=
            if (advance && (stop m =? index m))%bool then S (stop m) else stop m in
          match exec_loop advance fuel' re s li with
          | Some ms => Some (m :: ms)
          | None => None
          end
      end
  end.

Definition exec_while (re : regex) (s : str) : option (list MatchResult) :=
  exec_loop false (length s + 2) re s 0.

Definition match_all (re : regex) (s : str) : option (list MatchResult) :=
  exec_loop true (length s + 2) re s 0.

(** [s.replace(re, by)] for a global pattern [re]. *)
Fixpoint splice (s : str) (at_ : nat) (ms : list MatchResult) (by_ : str) : str :=
  match ms with
  | [] => skipn at_ s
  | m :: ms' => slice s at_ (index m) ++ by_ ++ splice s (stop m) ms' by_
  end.

Definition replace_all (re : regex) (s : str) (by_ : str) : option str :=
  match match_all re s with
  | Some ms => Some (splice s 0 ms by_)
  | None => None
  end.

(** ** The patterns of the program *)

Definition dquote : ascii := ascii_of_N 34.
Definition backslash : ascii := ascii_of_N 92.
Definition squote : ascii := ascii_of_N 39.
Definition backtick : ascii := ascii_of_N 96.

Definition ws : regex := Star true Space.
Definition ws1 : regex := Plus Space.
(** [[A-Za-z_]\w*] *)
Definition Ident : regex := Seq IdStart (Star true Word).
(** [\bword\b] *)
Definition whole_word (w : string) : regex := seqs [WordB; L w; WordB].

(** Line 3: [/\/\*[\s\S]*?\*\//g] *)
Definition blockCommentRe : regex := seqs [L "/*"; Star false Any; L "*/"].
(** Line 4: [/\/\/.*$/gm] *)
Definition lineCommentRe : regex := seqs [L "//"; Star true Dot; Eol].
(** Line 5: [/#.*$/gm] *)
Definition hashCommentRe : regex := seqs [Chr "#"; Star true Dot; Eol].
(** The pattern of line 6. *)
Definition stringRe : regex :=
  seqs [Group 1 (Cls (fun x => (Ascii.eqb x dquote || Ascii.eqb x squote
                                 || Ascii.eqb x backtick)%bool));
        Star true (Alt (Seq (Chr backslash) Dot) (Seq (NegLook (Backref 1)) Dot));
        Backref 1].

(** Line 37: [/\bbfs\s*\(|\bbreadth[- ]first\b/] *)
Definition bfsRe : regex :=
  Alt (seqs [WordB; L "bfs"; ws; Chr "("])
      (seqs [WordB; L "breadth"; OneOf "- "; L "first"; WordB]).
(** Line 38: [/\bdfs\s*\(|\bdepth[- ]first\b/] *)
Definition dfsRe : regex :=
  Alt (seqs [WordB; L "dfs"; ws; Chr "("])
      (seqs [WordB; L "depth"; OneOf "- "; L "first"; WordB]).
(** Line 38: [/return\s+\w+\s*\(/] *)
Definition returnCallRe : regex :=
  seqs [L "return"; ws1; Plus Word; ws; Chr "("].
(** Line 40: [/\bbellman[- ]?ford\b/] *)
Definition bellmanFordRe : regex :=
  seqs [WordB; L "bellman"; Opt (OneOf "- "); L "ford"; WordB].
(** Line 43: [/\bfloyd[- ]?warshall\b/] *)
Definition floydWarshallRe : regex :=
  seqs [WordB; L "floyd"; Opt (OneOf "- "); L "warshall"; WordB].
(** Line 46: [/\bfib\(|\bfibonacci\b/] *)
Definition fibRe : regex :=
  Alt (seqs [WordB; L "fib("]) (whole_word "fibonacci").
(** Line 47: [/\bmem|memo\b|\bcache\b|\bdp\b/] *)
Definition memoRe : regex :=
  alts [seqs [WordB; L "mem"]; seqs [L "memo"; WordB];
        whole_word "cache"; whole_word "dp"].
(** Line 55: [/\bdisjoint\b|\bunion[- ]find\b|\bunite\b/] *)
Definition unionFindRe : regex :=
  alts [whole_word "disjoint";
        seqs [WordB; L "union"; OneOf "- "; L "find"; WordB];
        whole_word "unite"].

(** The pattern of line 84. *)
Definition forRegex : regex :=
  seqs [L "for"; ws; Chr "("; Group 1 (Star true (NotChr ")")); Chr ")"].
(** The pattern of line 85. *)
Definition whileRegex : regex :=
  seqs [L "while"; ws; Chr "("; Group 1 (Star true (NotChr ")")); Chr ")"].
(** Line 86: [/for\s*\([\w\s,]*:\s*[^)]*\)/g] *)
Definition rangeForRegex : regex :=
  seqs [L "for"; ws; Chr "(";
        Star true (Cls (fun x => (is_word x || is_space x || Ascii.eqb x ",")%bool));
        Chr ":"; ws; Star true (NotChr ")"); Chr ")"].
(** The pattern of line 105. *)
Definition identRe : regex := seqs [WordB; Group 1 Ident; WordB].
(** The pattern of line 125. *)
Definition midCalcRegex : regex :=
  seqs [Group 1 (Plus Word); ws; Chr "="; ws; Chr "("; ws; Group 2 Ident; ws;
        Chr "+"; ws; Group 3 Ident; ws; Chr ")"; ws; Chr "/"; ws; Chr "2"; ws;
        Chr ";"].
(** Line 154: [/\/= *2|\/2\b|\*\= *2|<<=|>>=/] *)
Definition logHeaderRe : regex :=
  alts [seqs [L "/="; Star true (Chr " "); Chr "2"];
        seqs [L "/2"; WordB];
        seqs [L "*="; Star true (Chr " "); Chr "2"];
        L "<<="; L ">>="].
(** Line 155: [/:/] *)
Definition colonRe : regex := Chr ":".
(** Line 156: [/length|size|len/] *)
Definition lengthRe : regex := alts [L "length"; L "size"; L "len"].
(** Line 157: [(<|<=|>|>=)] *)
Definition relop (i : nat) : regex := Group i (alts [L "<"; L "<="; L ">"; L ">="]).
(** Line 157: [/(<|<=|>|>=).*[\+\-]{2}|(<|<=|>|>=).*\+\+|(<|<=|>|>=).*\-\-/] *)
Definition countingRe : regex :=
  alts [seqs [relop 1; Star true Dot; OneOf "+-"; OneOf "+-"];
        seqs [relop 2; Star true Dot; L "++"];
        seqs [relop 3; Star true Dot; L "--"]].

(** The pattern of line 187. *)
Definition jsFunc : regex := seqs [L "function"; ws1; Group 1 Ident; ws; Chr "("].
(** The pattern of line 189. *)
Definition pyDef : regex := seqs [L "def"; ws1; Group 1 Ident; ws; Chr "("].
(** The pattern of line 192. *)
Definition cStyle : regex :=
  seqs [IdStart;
        Plus (Cls (fun x => (is_word x || is_space x
                             || existsb (Ascii.eqb x) (lit ":<>*&"))%bool));
        ws1; Group 1 Ident; ws; Chr "("; Star true (NotChr ")"); Chr ")"; ws;
        Chr "{"].

(** ** Patterns built at run time

    [new RegExp(`...${name}...`)] splices the text of [name] into a pattern
    source.  A name made of word characters is read as itself.  Any other
    character could be read as pattern syntax, and the constructor throws a
    SyntaxError on a source it cannot parse: the embedding gives the error
    outcome [None] for every such name, so that [Some re] means both that the
    constructor returned and that [re] is what the template says.  The length
    of the name is not looked at: an engine that refuses a source as too
    large throws here for a long enough name. *)

Inductive piece : Type :=
| Src (r : regex)
| Hole (name : str).

Fixpoint RegExp_new (ps : list piece) : option regex :=
  match ps with
  | [] => Some Eps
  | Src r :: ps' =>
      match RegExp_new ps' with
      | Some re => Some (Seq r re)
      | None => None
      end
  | Hole name :: ps' =>
      if forallb is_word name then
        match RegExp_new ps' with
        | Some re => Some (Seq (Lit name) re)
        | None => None
        end
      else None
  end.

(** A computation that may throw or not end. *)
Notation "'do' x <- e ; k" :=
  (match e with Some x => k | None => None end)
  (at level 10, x name, e at level 100, k at level 200).

(** ** The sanitizer *)

Definition blank : str := lit " ".

Definition stripCommentsAndStrings (code : str) : option str :=
  do code <- replace_all blockCommentRe code blank;
  do code <- replace_all lineCommentRe code blank;
  do code <- replace_all hashCommentRe code blank;
  do code <- replace_all stringRe code blank;
  Some code.

Definition lower (code : str) : str := toLowerCase code.

(** ** Known algorithm detectors *)

Record KnownAlgorithmMatch : Type :=
  { name : string; k_time : string; k_space : string }.

Record KnownVerdict : Type :=
  { kv_time : string; kv_timeExplanation : string; kv_space : string;
    kv_spaceExplanation : string; kv_matches : list string }.

Definition entry (n t sp : string) : KnownAlgorithmMatch :=
  {| name := n; k_time := t; k_space := sp |}.

(** [if (cond) results.push(e)] *)
Definition push_if (cond : bool) (e : KnownAlgorithmMatch)
    (results : list KnownAlgorithmMatch) : list KnownAlgorithmMatch :=
  if cond then results ++ [e] else results.

Definition fibMention (c : str) : bool :=
  (includes c (lit "naive fibonacci") || test fibRe c)%bool.

Definition fibEntry (c : str) : KnownAlgorithmMatch :=
  if test memoRe c
  then entry "Memoized Fibonacci (DP)" "O(n)" "O(n)"
  else entry "Naive Recursive Fibonacci" "O(2^n)" "O(n)".

(** [c.includes(w)] for a literal [w]. *)
Definition mentions (c : str) (w : string) : bool := includes c (lit w).

(** The list [results] of [detectKnownAlgorithms], in catalog order. *)
Definition knownMatches (code : str) : list KnownAlgorithmMatch :=
  let c := lower code in
  let results := [] in
  let results := push_if (mentions c "merge sort" || test (whole_word "mergesort") c)
    (entry "Merge Sort" "O(n log n)" "O(n)") results in
  let results := push_if (mentions c "quick sort" || test (whole_word "quicksort") c)
    (entry "Quick Sort" "O(n log n) average, O(n²) worst" "O(log n) average") results in
  let results := push_if (mentions c "heap sort" || test (whole_word "heapsort") c)
    (entry "Heap Sort" "O(n log n)" "O(1)") results in
  let results := push_if (mentions c "bubble sort")
    (entry "Bubble Sort" "O(n²)" "O(1)") results in
  let results := push_if (mentions c "insertion sort")
    (entry "Insertion Sort" "O(n²)" "O(1)") results in
  let results := push_if (mentions c "selection sort")
    (entry "Selection Sort" "O(n²)" "O(1)") results in
  let results := push_if (mentions c "counting sort")
    (entry "Counting Sort" "O(n + k)" "O(k)") results in
  let results := push_if (mentions c "radix sort")
    (entry "Radix Sort" "O(nk)" "O(n + k)") results in
  let results := push_if (mentions c "binary search" || test (whole_word "binarysearch") c)
    (entry "Binary Search" "O(log n)" "O(1)") results in
  let results := push_if (mentions c "linear search" || mentions c "sequential search")
    (entry "Linear Search" "O(n)" "O(1)") results in
  let results := push_if
    (test bfsRe c || (mentions c "queue" && (mentions c "visited" || mentions c "adj")))
    (entry "BFS" "O(V + E)" "O(V)") results in
  let results := push_if
    (test dfsRe c
     || (mentions c "visited" && (mentions c "stack" || test returnCallRe code)))
    (entry "DFS" "O(V + E)" "O(V)") results in
  let results := push_if (mentions c "dijkstra")
    (entry "Dijkstra's algorithm" "O((V + E) log V)" "O(V + E)") results in
  let results := push_if (test bellmanFordRe c || mentions c "bellman ford")
    (entry "Bellman–Ford" "O(V × E)" "O(V)") results in
  let results := push_if (mentions c "kruskal")
    (entry "Kruskal's algorithm" "O(E log E)" "O(V + E)") results in
  let results := push_if (mentions c "prim")
    (entry "Prim's algorithm" "O(E log V)" "O(V + E)") results in
  let results := push_if (test floydWarshallRe c || mentions c "floyd warshall")
    (entry "Floyd–Warshall" "O(V³)" "O(V²)") results in
  let results := push_if (fibMention c) (fibEntry c) results in
  let results :=
    push_if
      (test unionFindRe c
       && negb (existsb (fun r => includes (toLowerCase (lit (name r))) (lit "kruskal"))
                  results))
      (entry "Union-Find usage" "Usually O(α(n) · (E log E)) for Kruskal context" "O(V)")
      results in
  let results :=
    push_if (test (whole_word "matrix chain") c || test (whole_word "matrixchain") c)
      (entry "Matrix Chain Multiplication (DP)" "O(n³)" "O(n²)") results in
  let results := push_if (test (whole_word "knapsack") c)
    (entry "Knapsack (DP typical)" "O(nW)" "O(W) or O(nW)") results in
  results.

Definition detectKnownAlgorithms (code : str) : option KnownVerdict :=
  match knownMatches code with
  | (primary :: _) as results =>
      Some {| kv_time := k_time primary;
              kv_timeExplanation :=
                String.append "Detected known algorithm or strong hint: "
                  (String.append (name primary) ".");
              kv_space := k_space primary;
              kv_spaceExplanation := k_space primary;
              kv_matches := map name results |}
  | [] => None
  end.

(** ** Structural analysis: loops *)

Inductive LoopType : Type := TFor | TWhile | TRangeFor.
Inductive IterKind : Type := KUnknown | KLog | KN.

Record Loop : Type := { type : LoopType; header : str; pos : nat }.

Record LoopInfo : Type :=
  { li_loop : Loop; depth : nat; iterKind : IterKind }.

Record LoopsInfo : Type :=
  { loopCount : nat; maxDepth : nat; maxNestedN : nat; logDetected : bool;
    loopInfos : list LoopInfo }.

Definition LoopType_eqb (a b : LoopType) : bool :=
  match a, b with
  | TFor, TFor | TWhile, TWhile | TRangeFor, TRangeFor => true
  | _, _ => false
  end.

Definition is_log (k : IterKind) : bool :=
  match k with KLog => true | _ => false end.
Definition is_n (k : IterKind) : bool :=
  match k with KN => true | _ => false end.

(** The three [while ((m = re.exec(code)) !== null) loops.push(...)] scans. *)
Definition scanLoops (code : str) : option (list Loop) :=
  do fs <- exec_while forRegex code;
  do wh <- exec_while whileRegex code;
  do rf <- exec_while rangeForRegex code;
  Some (map (fun m => {| type := TFor; header := group 1 m; pos := index m |}) fs
        ++ map (fun m => {| type := TWhile; header := group 1 m; pos := index m |}) wh
        ++ map (fun m => {| type := TRangeFor; header := whole m; pos := index m |}) rf).

Definition count_char (c : ascii) (s : str) : nat :=
  length (List.filter (Ascii.eqb c) s).

(** [Math.max(0, openBefore - closeBefore)]: the subtraction of [nat] stops
    at zero. *)
Definition depthAt (code : str) (start : nat) : nat :=
  let before := slice code 0 start in
  count_char "{" before - count_char "}" before.

(** The scan [for (let i = openBracePos; i < code.length; i++)] of the loop
    analyzer: the index at which the brace balance comes back to zero. *)
Fixpoint balance_scan (s : str) (i : nat) (depthBraces : Z) : option nat :=
  match s with
  | [] => None
  | c :: s' =>
      let d := if Ascii.eqb c "{" then (depthBraces + 1)%Z
               else if Ascii.eqb c "}" then (depthBraces - 1)%Z
               else depthBraces in
      if (d =? 0)%Z then Some i else balance_scan s' (S i) d
  end.

Definition loopBody (code : str) (p : nat) : str :=
  match indexOf code "{" p with
  | Some openBracePos =>
      match balance_scan (skipn openBracePos code) openBracePos 0 with
      | Some i => slice code (openBracePos + 1) i
      | None => []
      end
  | None => []
  end.

(** [[...header.matchAll(identRe)].map(x => x[1])] *)
Definition varsInCond (hd : str) : option (list str) :=
  do ms <- match_all identRe hd;
  Some (map (group 1) ms).

Definition str_in (x : str) (l : list str) : bool := existsb (str_eqb x) l.

Definition updateLeft (leftVar midVar : str) : option regex :=
  RegExp_new [Src WordB; Hole leftVar; Src WordB; Src ws; Src (Chr "="); Src ws;
              Hole midVar; Src ws; Src (Chr "+"); Src ws; Src (Chr "1")].

Definition updateRight (rightVar midVar : str) : option regex :=
  RegExp_new [Src WordB; Hole rightVar; Src WordB; Src ws; Src (Chr "="); Src ws;
              Hole midVar; Src ws; Src (Chr "-"); Src ws; Src (Chr "1")].

Definition isBinarySearch (vars : list str) (body : str) : option bool :=
  match exec midCalcRegex body 0 with
  | Some midMatch =>
      let midVar := group 1 midMatch in
      let leftVar := group 2 midMatch in
      let rightVar := group 3 midMatch in
      if (str_in leftVar vars && str_in rightVar vars)%bool then
        do ul <- updateLeft leftVar midVar;
        do ur <- updateRight rightVar midVar;
        Some (test ul body || test ur body)%bool
      else Some false
  | None => Some false
  end.

Definition divBy2Patterns (condVar : str) : option (list regex) :=
  do p1 <- RegExp_new [Src WordB; Hole condVar; Src ws; Src (Chr "="); Src ws;
                       Hole condVar; Src ws; Src (Chr "/"); Src ws; Src (Chr "2");
                       Src WordB];
  do p2 <- RegExp_new [Src WordB; Hole condVar; Src ws; Src (L ">>="); Src ws;
                       Src (Chr "1"); Src WordB];
  do p3 <- RegExp_new [Src WordB; Hole condVar; Src ws; Src (Chr "="); Src ws;
                       Src (L "Math.floor("); Src ws; Hole condVar; Src ws;
                       Src (Chr "/"); Src ws; Src (Chr "2"); Src ws; Src (Chr ")")];
  do p4 <- RegExp_new [Src WordB; Hole condVar; Src ws; Src (Chr "="); Src ws;
                       Src (L "Math.ceil("); Src ws; Hole condVar; Src ws;
                       Src (Chr "/"); Src ws; Src (Chr "2"); Src ws; Src (Chr ")")];
  Some [p1; p2; p3; p4].

(** The classification by the body: binary search, then halving of the first
    identifier of the header. *)
Definition bodyKind (vars : list str) (body : str) : option IterKind :=
  do bs <- isBinarySearch vars body;
  if bs then Some KLog
  else
    match vars with
    | (_ :: _) as condVar :: _ =>
        do ps <- divBy2Patterns condVar;
        Some (if existsb (fun re => test re body) ps then KLog else KUnknown)
    | _ => Some KUnknown
    end.

(** The classification by the header, for a loop the body did not make
    logarithmic. *)
Definition headerKind (hd : str) : IterKind :=
  if test logHeaderRe hd then KLog
  else if test colonRe hd then KN
  else if test lengthRe (toLowerCase hd) then KN
  else if test countingRe hd then KN
  else KUnknown.

Definition loopInfoOf (code : str) (lp : Loop) : option LoopInfo :=
  let d := depthAt code (pos lp) in
  do vars <- varsInCond (header lp);
  let body := loopBody code (pos lp) in
  do k <- bodyKind vars body;
  let k := if is_log k then k else headerKind (header lp) in
  Some {| li_loop := lp; depth := d; iterKind := k |}.

Fixpoint mapM {A B : Type} (f : A -> option B) (l : list A) : option (list B) :=
  match l with
  | [] => Some []
  | a :: l' =>
      do b <- f a;
      do bs <- mapM f l';
      Some (b :: bs)
  end.

(** [nLoopsAtDepth[li.depth] = (nLoopsAtDepth[li.depth] || 0) + 1] *)
Definition countN (m : gmap nat nat) (li : LoopInfo) : gmap nat nat :=
  if is_n (iterKind li)
  then <[depth li := default 0 (m !! depth li) + 1]> m
  else m.

Definition nLoopsAtDepth (lis : list LoopInfo) : gmap nat nat :=
  fold_left countN lis ∅.

(** [for (let d = 0; d <= maxDepth; d++) if ((m[d] || 0) > best) best = m[d]] *)
Definition maxOver (m : gmap nat nat) (maxDepth : nat) : nat :=
  fold_left
    (fun best d => if best <? default 0 (m !! d) then default 0 (m !! d) else best)
    (seq 0 (S maxDepth)) 0.

Definition detectLoopsAndNesting (code : str) : option LoopsInfo :=
  do loops <- scanLoops code;
  do lis <- mapM (loopInfoOf code) loops;
  let md := fold_left (fun a b => Nat.max a (depth b)) lis 0 in
  Some {| loopCount := length loops;
          maxDepth := md;
          maxNestedN := maxOver (nLoopsAtDepth lis) md;
          logDetected := existsb (fun l => is_log (iterKind l)) lis;
          loopInfos := lis |}.

(** ** Structural analysis: recursion *)

Record FnDecl : Type := { fn_name : str; fn_idx : nat }.

Record RecursionRecord : Type := { rec_name : str; calls : nat }.

Record RecursionInfo : Type :=
  { found : bool; functions : list RecursionRecord }.

Definition scanDecls (code : str) : option (list FnDecl) :=
  let decl m := {| fn_name := group 1 m; fn_idx := index m |} in
  do js <- exec_while jsFunc code;
  do py <- exec_while pyDef code;
  do cs <- exec_while cStyle code;
  Some (map decl js ++ map decl py ++ map decl cs).

(** The scan [for (let i = open; i < code.length; i++)] of the recursion
    analyzer: the index of the closing brace that brings the depth to zero. *)
Fixpoint close_scan (s : str) (i : nat) (d : Z) : option nat :=
  match s with
  | [] => None
  | c :: s' =>
      if Ascii.eqb c "{" then close_scan s' (S i) (d + 1)%Z
      else if Ascii.eqb c "}" then
        if (d - 1 =? 0)%Z then Some i else close_scan s' (S i) (d - 1)%Z
      else close_scan s' (S i) d
  end.

(** [new RegExp('\\b' + name + '\\s*\\(', 'g')] *)
Definition callRe (fname : str) : option regex :=
  RegExp_new [Src WordB; Hole fname; Src ws; Src (Chr "(")].

(** One turn of [for (const f of fnDecls)]. *)
Definition recursionStep (code : str) (recursion : list RecursionRecord) (f : FnDecl)
    : option (list RecursionRecord) :=
  match indexOf code "{" (fn_idx f) with
  | None => Some recursion
  | Some open =>
      match close_scan (skipn open code) open 0 with
      | None => Some recursion
      | Some close =>
          let body := slice code (open + 1) close in
          do re <- callRe (fn_name f);
          do ms <- match_all re body;
          let n := length ms in
          Some (if 0 <? n
                then recursion ++ [{| rec_name := fn_name f; calls := n |}]
                else recursion)
      end
  end.

Fixpoint foldM {A B : Type} (f : A -> B -> option A) (a : A) (l : list B)
    : option A :=
  match l with
  | [] => Some a
  | b :: l' => do a' <- f a b; foldM f a' l'
  end.

Definition detectRecursion (code : str) : option RecursionInfo :=
  do fnDecls <- scanDecls code;
  do recursion <- foldM (recursionStep code) [] fnDecls;
  Some {| found := 0 <? length recursion; functions := recursion |}.

(** ** The main analyzer *)

Inductive Details : Type :=
| NoDetails
| Matches (matches : list string)
| Findings (loopsInfo : LoopsInfo) (recursionInfo : RecursionInfo).

Record Verdict : Type :=
  { time : string; timeExplanation : string; space : string;
    spaceExplanation : string; details : Details }.

(** The decimal text of a number inside a template literal. *)
Definition show (n : nat) : string := NilEmpty.string_of_uint (Nat.to_uint n).

Definition cat (l : list string) : string := fold_right String.append EmptyString l.

(** [a || b] on texts: the empty text is falsy. *)
Definition or_text (a b : string) : string :=
  match a with EmptyString => b | _ => a end.

Definition hasNestedSameArrayLoop (lis : list LoopInfo) : bool :=
  existsb (fun outer =>
    existsb (fun inner =>
      (depth inner =? depth outer + 1)
      && LoopType_eqb (type (li_loop inner)) TFor
      && LoopType_eqb (type (li_loop outer)) TFor
      && test lengthRe (toLowerCase (header (li_loop outer)))
      && test lengthRe (toLowerCase (header (li_loop inner)))) lis) lis.

(** The branch taken when some recursive function was recorded. *)
Definition recursionVerdict (loopsInfo : LoopsInfo) (recursionInfo : RecursionInfo)
    : Verdict :=
  let multi := existsb (fun f => 1 <? calls f) (functions recursionInfo) in
  if multi then
    {| time := "O(2^n) (possible exponential recursive branching)";
       timeExplanation :=
         "Recursion with multiple recursive calls detected — likely exponential.";
       space := "O(n) (recursion stack)";
       spaceExplanation := "Recursion stack grows with depth.";
       details := Findings loopsInfo recursionInfo |}
  else if 0 <? loopCount loopsInfo then
    {| time := "O(n log n) or O(n * (loop cost))";
       timeExplanation :=
         "Single recursion detected together with loops — heuristic estimate O(n log n).";
       space := "O(n + additional)";
       spaceExplanation := "Recursion stack + container usage.";
       details := Findings loopsInfo recursionInfo |}
  else
    {| time := "O(n) (single recursion)";
       timeExplanation := "Single recursion detected — typically linear.";
       space := "O(n)";
       spaceExplanation := "Recursion stack.";
       details := Findings loopsInfo recursionInfo |}.

(** The time bound and its explanation when loops were found and no
    recursion. *)
Definition loopTime (loopsInfo : LoopsInfo) : string * string :=
  if logDetected loopsInfo then
    if maxNestedN loopsInfo =? 0 then
      ("O(log n)"%string, "Detected logarithmic loop pattern (divide-by-two behavior)."%string)
    else
      (cat ["O(n^"%string; show (maxNestedN loopsInfo); " log n)"%string],
       cat ["Detected "%string; show (maxNestedN loopsInfo);
            " nested loops with logarithmic behavior."%string])
  else if hasNestedSameArrayLoop (loopInfos loopsInfo) then
    ("O(n²)"%string, "Detected two nested loops iterating over same array."%string)
  else if 2 <=? maxNestedN loopsInfo then
    (cat ["O(n^"%string; show (maxNestedN loopsInfo); ")"%string],
     cat ["Detected "%string; show (maxNestedN loopsInfo);
          " nested loops iterating over input size."%string])
  else if maxNestedN loopsInfo =? 1 then
    ("O(n)"%string, "Detected single loop iterating over input size."%string)
  else
    ("O(1)"%string, "No loops or recursion detected (heuristic)."%string).

Definition structuralVerdict (loopsInfo : LoopsInfo) (recursionInfo : RecursionInfo)
    : Verdict :=
  if found recursionInfo then recursionVerdict loopsInfo recursionInfo
  else if 0 <? loopCount loopsInfo then
    {| time := fst (loopTime loopsInfo);
       timeExplanation := snd (loopTime loopsInfo);
       space := "O(n)";
       spaceExplanation := "Output array grows with input size.";
       details := Findings loopsInfo recursionInfo |}
  else
    {| time := "O(1)";
       timeExplanation := "No loops or recursion detected (heuristic).";
       space := "O(1)";
       spaceExplanation := "No obvious dynamic allocations detected.";
       details := Findings loopsInfo recursionInfo |}.

Definition is_empty (s : str) : bool :=
  match s with [] => true | _ => false end.

(** The test [!rawCode || !rawCode.trim()] of the first line of the analyzer. *)
Definition trivial_input (rawCode : str) : bool :=
  (is_empty rawCode || is_empty (trim rawCode))%bool.

Definition emptyVerdict : Verdict :=
  {| time := "O(1)";
     timeExplanation := "Empty or trivial code.";
     space := "O(1)";
     spaceExplanation := "No allocations detected.";
     details := NoDetails |}.

Definition knownVerdict (known : KnownVerdict) : Verdict :=
  {| time := kv_time known;
     timeExplanation := kv_timeExplanation known;
     space := kv_space known;
     spaceExplanation := or_text (kv_spaceExplanation known) (kv_space known);
     details := Matches (kv_matches known) |}.

(** [None] is a call that throws or does not return. *)
Definition analyzeComplexity (rawCode : str) : option Verdict :=
  if trivial_input rawCode then Some emptyVerdict
  else
    do cleaned <- stripCommentsAndStrings rawCode;
    match detectKnownAlgorithms cleaned with
    | Some known => Some (knownVerdict known)
    | None =>
        do loopsInfo <- detectLoopsAndNesting cleaned;
        do recursionInfo <- detectRecursion cleaned;
        Some (structuralVerdict loopsInfo recursionInfo)
    end.

(** ** Static measures of a pattern, used to reason about its matches *)

(** A lower bound on the number of characters a match consumes. *)
Fixpoint min_len (r : regex) : nat :=
  match r with
  | Chr _ | Cls _ => 1
  | Seq a b => min_len a + min_len b
  | Alt a b => Nat.min (min_len a) (min_len b)
  | Group _ a => min_len a
  | _ => 0
  end.

Definition all_ascii : list ascii := map ascii_of_nat (seq 0 256).

(** Every character of the class [p] satisfies [P]. *)
Definition cls_within (P p : ascii -> bool) : bool :=
  forallb (fun c => implb (p c) (P c)) all_ascii.

(** [r] has no group and no backreference, and consumes only characters
    that satisfy [P]. *)
Fixpoint only (P : ascii -> bool) (r : regex) : bool :=
  match r with
  | Eps | WordB | Eol | NegLook _ => true
  | Chr c => P c
  | Cls p => cls_within P p
  | Seq a b | Alt a b => only P a && only P b
  | Star _ a => only P a
  | Group _ _ | Backref _ => false
  end.

(** Every group of [r] that can set a capture captures characters that
    satisfy [P] only.  (What a negative lookahead captures is dropped.) *)
Fixpoint groups_in (P : ascii -> bool) (r : regex) : bool :=
  match r with
  | Seq a b | Alt a b => groups_in P a && groups_in P b
  | Star _ a => groups_in P a
  | Group _ a => only P a
  | _ => true
  end.

Definition caps_in (P : ascii -> bool) (cs : caps) : Prop :=
  Forall (fun iw => forallb P (snd iw) = true) cs.

(** [st'] is [st] after the text [w]. *)
Definition reaches (st st' : cursor) (w : str) : Prop :=
  rest st = w ++ rest st' /\ idx st' = idx st + length w.

Definition any_char : ascii -> bool := fun _ => true.

(** A piece that the constructor reads as the template says. *)
Definition hole_ok (p : piece) : bool :=
  match p with
  | Src _ => true
  | Hole n => forallb is_word n
  end.

(** The pieces written in the program have groups within [P]. *)
Definition src_groups_in (P : ascii -> bool) (p : piece) : bool :=
  match p with
  | Src r => groups_in P r
  | Hole _ => true
  end.

(** Texts made of word characters. *)
Definition all_word (l : list str) : Prop :=
  Forall (fun v => forallb is_word v = true) l.

Definition decls_word (ds : list FnDecl) : Prop :=
  Forall (fun d => forallb is_word (fn_name d) = true) ds.

(** Some catalog entry scanned before Dijkstra's matches: the conditions of
    lines 23 to 38 of the program, on the text [code] and its lower case. *)
Definition beforeDijkstra (code : str) : bool :=
  let c := lower code in
  (mentions c "merge sort" || test (whole_word "mergesort") c)
  || (mentions c "quick sort" || test (whole_word "quicksort") c)
  || (mentions c "heap sort" || test (whole_word "heapsort") c)
  || mentions c "bubble sort"
  || mentions c "insertion sort"
  || mentions c "selection sort"
  || mentions c "counting sort"
  || mentions c "radix sort"
  || (mentions c "binary search" || test (whole_word "binarysearch") c)
  || (mentions c "linear search" || mentions c "sequential search")
  || (test bfsRe c || (mentions c "queue" && (mentions c "visited" || mentions c "adj")))
  || (test dfsRe c
      || (mentions c "visited" && (mentions c "stack" || test returnCallRe code))).

(** ** Predicates and sample inputs of the statements below *)

(** What a successful run of [r] from [st] passes to its continuation. *)
Definition run_post (P : ascii -> bool) (r : regex) (st : cursor)
    (k : cursor -> caps -> outcome) (o : cursor * caps) : Prop :=
  exists st' cs' w,
    k st' cs' = Some o /\ reaches st st' w /\ min_len r <= length w
    /\ caps_in P cs' /\ (only P r = true -> forallb P w = true).

(** A text of blanks only. *)
Definition blank_text (s : str) : Prop := Forall (fun c => is_space c = true) s.

(** The count of linear loops that [nLoopsAtDepth] holds for a depth. *)
Definition countAt (m : gmap nat nat) (d : nat) : nat := default 0 (m !! d).

(** The catalog entries that the statements name. *)
Definition dijkstraEntry : KnownAlgorithmMatch :=
  entry "Dijkstra's algorithm" "O((V + E) log V)" "O(V + E)".

Definition memoFib : KnownAlgorithmMatch :=
  entry "Memoized Fibonacci (DP)" "O(n)" "O(n)".
Definition naiveFib : KnownAlgorithmMatch :=
  entry "Naive Recursive Fibonacci" "O(2^n)" "O(n)".

(** A Dijkstra routine with a loop and a later catalog name. *)
Definition dijkstra_sample : str :=
  lit "function dijkstra(graph, src) { const dist = {}; for (let i = 0; i < graph.length; i++) { dist[i] = Infinity; } kruskal(); }".

(** A Dijkstra routine that mentions queue and visited. *)
Definition dijkstra_with_queue : str :=
  lit "function dijkstra(graph, src) { const visited = new Set(); const queue = [src]; }".

(** A function with two self-calls, no loop, no catalog name. *)
Definition two_calls_sample : str :=
  lit "function paths(n) { if (n < 2) return 1; return paths(n - 1) + paths(n - 2); }".

(** A function with two self-calls whose name is in the catalog. *)
Definition merge_sort_sample : str :=
  lit "function mergeSort(a) { if (a.length < 2) return a; return merge(mergeSort(left(a)), mergeSort(right(a))); }".

(** A function with one self-call and no loop. *)
Definition one_call_sample : str :=
  lit "function f(n) { if (n <= 0) return 0; return 1 + f(n - 1); }".

(** The halving loop of the specification. *)
Definition halving_sample : str := lit "while (n > 1) { n = Math.floor(n / 2); }".

(** A loop that halves the second identifier of its condition. *)
Definition halving_second_variable : str := lit "while (i < n) { n = n / 2; }".

(** Two nested loops over the length of one array, and their headers. *)
Definition pairs_header (v : string) : str :=
  lit (String.append "let " (String.append v
        (String.append " = 0; " (String.append v
          (String.append " < arr.length; " (String.append v "++")))))).

Definition pairs_sample : str :=
  lit "function pairs(arr) { for (let i = 0; i < arr.length; i++) { for (let j = 0; j < arr.length; j++) { out.push([arr[i], arr[j]]); } } }".

(** Two nested loops over the length of one array, the outer one up to half
    of it. *)
Definition half_length_sample : str :=
  lit "function mirror(arr) { for (let i = 0; i < arr.length/2; i++) { for (let j = 0; j < arr.length; j++) { swap(arr, i, j); } } }".

(** A single range-style loop. *)
Definition range_for_sample : str := lit "for (int x : arr) { sum += x; }".


(** ** Further measures of patterns and texts *)

(** [r] consumes nothing, whatever it matches. *)
Fixpoint zero_width (r : regex) : bool :=
  match r with
  | Eps | WordB | Eol | NegLook _ => true
  | Seq a b => zero_width a && zero_width b
  | _ => false
  end.

(** Every match of [r] starts with a character that satisfies [P]. *)
Fixpoint first_in (P : ascii -> bool) (r : regex) : bool :=
  match r with
  | Chr c => P c
  | Cls p => cls_within P p
  | Seq a b => first_in P a || (zero_width a && first_in P b)
  | Alt a b => first_in P a && first_in P b
  | Group _ a => first_in P a
  | _ => false
  end.

(** The characters that start a comment or a string literal. *)
Definition is_trigger (c : ascii) : bool :=
  (Ascii.eqb c "/" || Ascii.eqb c "#" || Ascii.eqb c dquote || Ascii.eqb c squote
   || Ascii.eqb c backtick)%bool.

(** The matches [ms] follow one another from [at_] on in a text of length
    [len], each of [n] characters at least. *)
Fixpoint chained (n len at_ : nat) (ms : list MatchResult) : Prop :=
  match ms with
  | [] => True
  | m :: ms' =>
      at_ <= index m /\ index m + n <= stop m /\ stop m <= len
      /\ chained n len (stop m) ms'
  end.

(** The first entry of the catalog, and its condition (line 23). *)
Definition mergeSortEntry : KnownAlgorithmMatch :=
  entry "Merge Sort" "O(n log n)" "O(n)".

Definition mergeSortCue (c : str) : bool :=
  (mentions c "merge sort" || test (whole_word "mergesort") c)%bool.

(** The entries of lines 41 and 57. *)
Definition kruskalEntry : KnownAlgorithmMatch :=
  entry "Kruskal's algorithm" "O(E log E)" "O(V + E)".

Definition unionFindEntry : KnownAlgorithmMatch :=
  entry "Union-Find usage" "Usually O(α(n) · (E log E)) for Kruskal context" "O(V)".

(** The keyword at the start of a loop of each kind. *)
Definition keyword (t : LoopType) : str :=
  match t with
  | TFor | TRangeFor => lit "for"
  | TWhile => lit "while"
  end.

(** The number of linear loops among [lis] at depth [d]. *)
Definition linearAt (lis : list LoopInfo) (d : nat) : nat :=
  length (List.filter (fun l => is_n (iterKind l) && (depth l =? d)) lis).

(** Texts in which every brace is matched, to any depth. *)
Inductive balanced : str -> Prop :=
| balanced_nil : balanced []
| balanced_char (c : ascii) (b : str) :
    Ascii.eqb c "{" = false -> Ascii.eqb c "}" = false -> balanced b ->
    balanced (c :: b)
| balanced_block (b1 b2 : str) :
    balanced b1 -> balanced b2 -> balanced ("{"%char :: b1 ++ "}"%char :: b2).

(** Two loops, one after the other. *)
Definition two_loops_in_a_row : str :=
  lit "for (i = 0; i < n; i++) { a(); } for (j = 0; j < n; j++) { b(); }".

(** A loop that no rule classifies, and a recursive function with a loop. *)
Definition endless_loop : str := lit "while (true) { work(); }".

Definition recursion_with_loop : str :=
  lit "function walk(t) { for (i = 0; i < t.kids; i++) { walk(t.kid[i]); } }".

(** The value of a computation that returns, and [d] for one that does not. *)
Definition get {A : Type} (d : A) (o : option A) : A :=
  match o with Some a => a | None => d end.

Definition noLoops : LoopsInfo :=
  {| loopCount := 0; maxDepth := 0; maxNestedN := 0; logDetected := false;
     loopInfos := [] |}.

Definition noRecursion : RecursionInfo := {| found := false; functions := [] |}.

(** A Python function with two self-calls. *)
Definition python_fib_like : str :=
  lit "def count(n):
    return count(n - 1) + count(n - 2)".

Definition is_empty_list {A : Type} (l : list A) : bool :=
  match l with [] => true | _ => false end.

(** ** The page that calls the analyzer

    The component [App] keeps three pieces of state: the text of the editor,
    the verdict shown in the result pane ([None] is JavaScript's null) and the
    selected language.  Its handlers are the transitions below. *)

Module App.

Definition SAMPLE_JS : str :=
  lit "// Example 1: O(n)
function sum(arr) {
  let s = 0;
  for (let i = 0; i < arr.length; i++) {
    s += arr[i];
  }
  return s;
}".

Definition SAMPLE_JS_NESTED : str :=
  lit "// Example 2: O(n^2)
function pairs(arr) {
  let out = [];
  for (let i = 0; i < arr.length; i++) {
    for (let j = 0; j < arr.length; j++) {
      out.push([arr[i], arr[j]]);
    }
  }
  return out;
}".

Definition SAMPLE_JS_LOG : str :=
  lit "// Example 3: O(log n)
function halves(n) {
  while (n > 1) {
    n = Math.floor(n / 2);
  }
}".

Definition SAMPLE_JS_RECUR : str :=
  lit "// Example 4: O(2^n) naive fibonacci (exponential)
function fib(n) {
  if (n <= 1) return n;
  return fib(n-1) + fib(n-2);
}".

Record State : Type :=
  { code : str; result : option Verdict; language : string }.

(** The three [useState] initial values. *)
Definition initial : State :=
  {| code := SAMPLE_JS; result := None; language := "javascript" |}.

Definition setCode (c : str) (st : State) : State :=
  {| code := c; result := result st; language := language st |}.

Definition setResult (r : Verdict) (st : State) : State :=
  {| code := code st; result := Some r; language := language st |}.

Definition setLanguage (l : string) (st : State) : State :=
  {| code := code st; result := result st; language := l |}.

(** A call of the analyzer that throws leaves the state as it is. *)
Definition handleCalculate (st : State) : State :=
  match analyzeComplexity (code st) with
  | Some res => setResult res st
  | None => st
  end.

Definition loadSample (n : nat) (st : State) : State :=
  let st := if n =? 1 then setCode SAMPLE_JS st else st in
  let st := if n =? 2 then setCode SAMPLE_JS_NESTED st else st in
  let st := if n =? 3 then setCode SAMPLE_JS_LOG st else st in
  let st := if n =? 4 then setCode SAMPLE_JS_RECUR st else st in
  st.

(** [onChange={(val) => setCode(val || '')}]: [None] is an undefined value. *)
Definition onChange (val : option str) (st : State) : State :=
  match val with
  | Some (c :: v) => setCode (c :: v) st
  | _ => setCode [] st
  end.

(** What the user does. *)
Inductive Event : Type :=
| AnalyzeClick
| SampleClick (n : nat)
| EditorChange (val : option str)
| LanguageChange (value : string).

Definition step (st : State) (e : Event) : State :=
  match e with
  | AnalyzeClick => handleCalculate st
  | SampleClick n => loadSample n st
  | EditorChange val => onChange val st
  | LanguageChange value => setLanguage value st
  end.

Definition run (st : State) (evs : list Event) : State := fold_left step evs st.

Definition is_analyze (e : Event) : bool :=
  match e with AnalyzeClick => true | _ => false end.

(** The result pane: the four texts of the verdict, or the invitation to
    paste code when there is no result. *)
Definition resultPane (st : State) : option (string * string * string * string) :=
  match result st with
  | Some r => Some (time r, timeExplanation r, space r, spaceExplanation r)
  | None => None
  end.

End App.

(** A loop whose body has a block of its own. *)
Definition loop_with_inner_block : str :=
  lit "while (n > 1) { if (odd) { n = n - 1; } n = n / 2; } done();".

(** Every match of [r] holds the character [c]. *)
Fixpoint needs (c : ascii) (r : regex) : bool :=
  match r with
  | Chr x => Ascii.eqb x c
  | Seq a b => needs c a || needs c b
  | Alt a b => needs c a && needs c b
  | Group _ a => needs c a
  | _ => false
  end.

(** The verdict of the last rule: nothing found. *)
Definition defaultVerdict : Verdict :=
  {| time := "O(1)";
     timeExplanation := "No loops or recursion detected (heuristic).";
     space := "O(1)";
     spaceExplanation := "No obvious dynamic allocations detected.";
     details := Findings noLoops noRecursion |}.

(** Two loops in a text without braces. *)
Definition python_two_loops : str :=
  lit "for (x : xs) total += x
while (i < len(xs)) i++".

(** ** Further predicates, stores and texts of a given shape *)

(** Some catalog entry scanned before the Fibonacci one (lines 23 to 43)
    matches. *)
Definition beforeFibonacci (code : str) : bool :=
  let c := lower code in
  beforeDijkstra code
  || mentions c "dijkstra"
  || (test bellmanFordRe c || mentions c "bellman ford")
  || mentions c "kruskal"
  || mentions c "prim"
  || (test floydWarshallRe c || mentions c "floyd warshall").

(** A naive Fibonacci under a comment-free mention of binary search. *)
Definition fib_after_binary_search : str :=
  lit "binary search first; function fib(n) { return fib(n - 1) + fib(n - 2); }".

Definition memo_fib_sample : str :=
  lit "function fib(n) { if (memo[n]) return memo[n]; }".

(** ** The pattern objects of a call

    A pattern with the [g] flag is an object with a [lastIndex], which
    [exec] reads and writes: the six loops [while ((m = re.exec(code)) !==
    null)] of the program run on that state.  The store below holds the
    [lastIndex] of every pattern object made so far, by this call of the
    analyzer and by the calls before it.  The other patterns of the program
    are handed to one call of [replace], [match], [matchAll] or [test], which
    starts at index 0 by itself. *)

Definition Heap := list nat.
Definition RegExpRef := nat.

(** Evaluating a pattern literal makes a new object, with [lastIndex] 0. *)
Definition alloc (h : Heap) : RegExpRef * Heap := (length h, h ++ [0]).

Definition lastIndexOf (h : Heap) (r : RegExpRef) : nat := nth r h 0.

Definition setLastIndex (r : RegExpRef) (v : nat) (h : Heap) : Heap := <[r := v]> h.

(** [re.exec(s)] on the object [r] of a global pattern: the search starts at
    its [lastIndex], which becomes the end of the match, or 0 on a failure. *)
Definition exec_obj (re : regex) (r : RegExpRef) (s : str) (h : Heap)
    : option MatchResult * Heap :=
  match exec re s (lastIndexOf h r) with
  | Some m => (Some m, setLastIndex r (stop m) h)
  | None => (None, setLastIndex r 0 h)
  end.

(** [while ((m = re.exec(s)) !== null) ...]; [None] is a loop that does not
    end. *)
Fixpoint while_exec (fuel : nat) (re : regex) (r : RegExpRef) (s : str) (h : Heap)
    : option (list MatchResult) * Heap :=
  match fuel with
  | O => (None, h)
  | S fuel' =>
      match exec_obj re r s h with
      | (None, h') => (Some [], h')
      | (Some m, h') =>
          match while_exec fuel' re r s h' with
          | (Some ms, h'') => (Some (m :: ms), h'')
          | (None, h'') => (None, h'')
          end
      end
  end.

(** Lines 84 to 91: the three pattern objects, then the three loops. *)
Definition scanLoops_in (code : str) (h : Heap) : option (list Loop) * Heap :=
  let '(forRef, h) := alloc h in
  let '(whileRef, h) := alloc h in
  let '(rangeForRef, h) := alloc h in
  match while_exec (length code + 2) forRegex forRef code h with
  | (None, h) => (None, h)
  | (Some fs, h) =>
      match while_exec (length code + 2) whileRegex whileRef code h with
      | (None, h) => (None, h)
      | (Some wh, h) =>
          match while_exec (length code + 2) rangeForRegex rangeForRef code h with
          | (None, h) => (None, h)
          | (Some rf, h) =>
              (Some (map (fun m => {| type := TFor; header := group 1 m;
                                      pos := index m |}) fs
                     ++ map (fun m => {| type := TWhile; header := group 1 m;
                                         pos := index m |}) wh
                     ++ map (fun m => {| type := TRangeFor; header := whole m;
                                         pos := index m |}) rf), h)
          end
      end
  end.

(** Lines 93 to 181, on the loops found. *)
Definition loopsInfoOf (code : str) (loops : list Loop) : option LoopsInfo :=
  do lis <- mapM (loopInfoOf code) loops;
  let md := fold_left (fun a b => Nat.max a (depth b)) lis 0 in
  Some {| loopCount := length loops;
          maxDepth := md;
          maxNestedN := maxOver (nLoopsAtDepth lis) md;
          logDetected := existsb (fun l => is_log (iterKind l)) lis;
          loopInfos := lis |}.

Definition detectLoopsAndNesting_in (code : str) (h : Heap)
    : option LoopsInfo * Heap :=
  match scanLoops_in code h with
  | (Some loops, h) => (loopsInfoOf code loops, h)
  | (None, h) => (None, h)
  end.

(** Lines 185 to 194: each pattern object is made just before its loop. *)
Definition scanDecls_in (code : str) (h : Heap) : option (list FnDecl) * Heap :=
  let decl m := {| fn_name := group 1 m; fn_idx := index m |} in
  let '(jsRef, h) := alloc h in
  match while_exec (length code + 2) jsFunc jsRef code h with
  | (None, h) => (None, h)
  | (Some js, h) =>
      let '(pyRef, h) := alloc h in
      match while_exec (length code + 2) pyDef pyRef code h with
      | (None, h) => (None, h)
      | (Some py, h) =>
          let '(cRef, h) := alloc h in
          match while_exec (length code + 2) cStyle cRef code h with
          | (None, h) => (None, h)
          | (Some cs, h) => (Some (map decl js ++ map decl py ++ map decl cs), h)
          end
      end
  end.

Definition detectRecursion_in (code : str) (h : Heap)
    : option RecursionInfo * Heap :=
  match scanDecls_in code h with
  | (Some fnDecls, h) =>
      (do recursion <- foldM (recursionStep code) [] fnDecls;
       Some {| found := 0 <? length recursion; functions := recursion |}, h)
  | (None, h) => (None, h)
  end.

(** A call of the analyzer in a store left by earlier calls: the outcome
    ([None] for a call that throws or does not return) and the store it
    leaves. *)
Definition analyzeComplexity_in (rawCode : str) (h : Heap) : option Verdict * Heap :=
  if trivial_input rawCode then (Some emptyVerdict, h)
  else
    match stripCommentsAndStrings rawCode with
    | None => (None, h)
    | Some cleaned =>
        match detectKnownAlgorithms cleaned with
        | Some known => (Some (knownVerdict known), h)
        | None =>
            match detectLoopsAndNesting_in cleaned h with
            | (None, h) => (None, h)
            | (Some loopsInfo, h) =>
                match detectRecursion_in cleaned h with
                | (None, h) => (None, h)
                | (Some recursionInfo, h) =>
                    (Some (structuralVerdict loopsInfo recursionInfo), h)
                end
            end
        end
    end.

(** ** Cursors along a text *)

(** The cursor after the characters of [w]. *)
Fixpoint adv (st : cursor) (w : str) : cursor :=
  match w with
  | [] => st
  | x :: w' => adv (next st x (tl (rest st))) w'
  end.

(** The character before the position that follows [w]. *)
Fixpoint prev_after (p : option ascii) (w : str) : option ascii :=
  match w with
  | [] => p
  | x :: w' => prev_after (Some x) w'
  end.

(** A run of [p] characters cannot go on into [t]. *)
Definition stops (p : ascii -> bool) (t : str) : bool :=
  match t with
  | [] => true
  | y :: _ => negb (p y)
  end.

(** The offsets at which [w] occurs in [s], counted from [i]. *)
Fixpoint occurrences (w s : str) (i : nat) : list nat :=
  (if starts_with w s then [i] else [])
  ++ match s with
     | [] => []
     | _ :: s' => occurrences w s' (S i)
     end.



(** An identifier: [[A-Za-z_]\w*]. *)
Definition ident (s : str) : bool :=
  match s with
  | c :: v => (is_ident_start c && forallb is_word v)%bool
  | [] => false
  end.

(** The text of a function declaration up to its opening brace. *)
Definition function_head (sp1 name sp2 sig : str) : str :=
  lit "function" ++ sp1 ++ name ++ sp2 ++ "("%char :: sig.

(** A JavaScript function declaration with a brace-delimited body, between
    [pre] and [post]: [function name(sig{body}]. *)
Definition function_text (pre sp1 name sp2 sig body post : str) : str :=
  pre ++ function_head sp1 name sp2 sig ++ "{"%char :: body ++ "}"%char :: post.

Definition not_char (c : ascii) : ascii -> bool := fun x => negb (Ascii.eqb x c).

(** The pattern that line 212 builds for a name of word characters. *)
Definition callPattern (fname : str) : regex :=
  Seq WordB (Seq (Lit fname) (Seq ws (Seq (Chr "(") Eps))).

(** A body with two call sites of [name]. *)
Definition two_calls_body (name b0 b1 b2 : str) : str :=
  b0 ++ name ++ "("%char :: b1 ++ name ++ "("%char :: b2.

(** A body with a call site of [name]. *)
Definition one_call_body (name b0 b1 : str) : str := b0 ++ name ++ "("%char :: b1.

Definition no_brace (s : str) : bool :=
  forallb (fun c => (negb (Ascii.eqb c "{") && negb (Ascii.eqb c "}"))%bool) s.

(** A function with one self-call, whose name is not part of another word
    of its body. *)
Definition single_call_sample : str :=
  lit "function walk(n) { if (n <= 0) return 0; return 1 + walk(n - 1); }".

(** A function with one self-call whose name is in the catalog. *)
Definition known_name_one_call : str :=
  lit "function dfs(n) { if (n <= 0) return 0; return 1 + dfs(n - 1); }".

(** A Python function with one self-call: no brace-delimited body. *)
Definition python_one_call : str :=
  lit "def count(n):
    return 1 + count(n - 1)".

(** * Properties *)

(** ** The matcher *)

Section Engine.

Variable P : ascii -> bool.

Lemma cls_within_sound (p : ascii -> bool) (c : ascii) :
  cls_within P p = true -> p c = true -> P c = true.
Proof.
  unfold cls_within. intros H Hp.
  rewrite forallb_forall in H.
  assert (Hin : In c all_ascii).
  { unfold all_ascii. rewrite <- (ascii_nat_embedding c).
    apply in_map, in_seq. pose proof (nat_ascii_bounded c). lia. }
  specialize (H c Hin). rewrite Hp in H. exact H.
Qed.

Lemma only_groups_in (r : regex) : only P r = true -> groups_in P r = true.
Proof.
  induction r; simpl; intros H; try reflexivity; try discriminate.
  - apply andb_true_iff in H as [Ha Hb]. rewrite IHr1, IHr2; auto.
  - apply andb_true_iff in H as [Ha Hb]. rewrite IHr1, IHr2; auto.
  - auto.
Qed.

Lemma reaches_refl (st : cursor) : reaches st st [].
Proof. split; simpl; [reflexivity | lia]. Qed.

Lemma reaches_next (st : cursor) (x : ascii) (t : str) :
  rest st = x :: t -> reaches st (next st x t) [x].
Proof. intros H. split; simpl; [exact H | lia]. Qed.

Lemma reaches_trans (a b c : cursor) (u v : str) :
  reaches a b u -> reaches b c v -> reaches a c (u ++ v).
Proof.
  intros [H1 H2] [H3 H4]. split.
  - rewrite H1, H3, app_assoc. reflexivity.
  - rewrite H4, H2, length_app. lia.
Qed.

Lemma reaches_firstn (st st' : cursor) (w : str) :
  reaches st st' w -> firstn (idx st' - idx st) (rest st) = w.
Proof.
  intros [H1 H2]. rewrite H1, H2.
  replace (idx st + length w - idx st) with (length w + 0) by lia.
  rewrite firstn_app_2. simpl. apply app_nil_r.
Qed.

Lemma consume_reaches (w : str) :
  forall st st', consume w st = Some st' -> reaches st st' w.
Proof.
  induction w as [|a w IH]; simpl; intros st st' H.
  - inversion H; subst. apply reaches_refl.
  - destruct (rest st) as [|x t] eqn:E; [discriminate|].
    destruct (Ascii.eqb a x) eqn:Eax; [|discriminate].
    apply Ascii.eqb_eq in Eax. subst x.
    apply (reaches_trans (u := [a]) (reaches_next st E) (IH _ _ H)).
Qed.

Lemma cap_get_in (i : nat) (cs : caps) (w : str) :
  caps_in P cs -> cap_get i cs = Some w -> forallb P w = true.
Proof.
  induction cs as [|[j v] cs IH]; simpl; intros Hc H; [discriminate|].
  inversion Hc; subst.
  destruct (Nat.eqb i j).
  - inversion H; subst. assumption.
  - auto.
Qed.

Lemma star_inv (a : regex) (greedy : bool) (k : cursor -> caps -> outcome) :
  (forall st cs k o, caps_in P cs -> run a st cs k = Some o -> run_post P a st k o) ->
  forall n st cs o,
    caps_in P cs -> star_iter (run a) greedy k n st cs = Some o ->
    exists st' cs' w,
      k st' cs' = Some o /\ reaches st st' w /\ caps_in P cs'
      /\ (only P a = true -> forallb P w = true).
Proof.
  intros IHa. induction n as [|n IHn]; intros st cs o Hcs H; simpl in H.
  - exists st, cs, []. split_and!; auto using reaches_refl.
  - set (k' := fun st' cs' =>
                 if idx st <? idx st' then star_iter (run a) greedy k n st' cs'
                 else None) in H.
    assert (Hmore : run a st cs k' = Some o ->
                    exists st' cs' w,
                      k st' cs' = Some o /\ reaches st st' w /\ caps_in P cs'
                      /\ (only P a = true -> forallb P w = true)).
    { intros Hr. destruct (IHa _ _ _ _ Hcs Hr) as (st1 & cs1 & w1 & Hk & R1 & _ & C1 & O1).
      unfold k' in Hk. destruct (idx st <? idx st1); [|discriminate].
      destruct (IHn _ _ _ C1 Hk) as (st2 & cs2 & w2 & Hk2 & R2 & C2 & O2).
      exists st2, cs2, (w1 ++ w2). split_and!; auto.
      - apply (reaches_trans R1 R2).
      - intros Ho. rewrite forallb_app, O1, O2; auto. }
    assert (Hstop : k st cs = Some o ->
                    exists st' cs' w,
                      k st' cs' = Some o /\ reaches st st' w /\ caps_in P cs'
                      /\ (only P a = true -> forallb P w = true)).
    { intros Hk. exists st, cs, []. split_and!; auto using reaches_refl. }
    destruct greedy.
    + destruct (run a st cs k') as [o'|] eqn:E.
      * inversion H; subst. auto.
      * auto.
    + destruct (k st cs) as [o'|] eqn:E.
      * inversion H; subst. auto.
      * auto.
Qed.

Lemma run_inv (r : regex) :
  groups_in P r = true ->
  forall st cs k o, caps_in P cs -> run r st cs k = Some o -> run_post P r st k o.
Proof.
  induction r as [|c|p|a IHa b IHb|a IHa b IHb|g a IHa|i a IHa|i|a IHa| |];
    simpl; intros G st cs k o Hcs H.
  - exists st, cs, []. split_and!; simpl; auto using reaches_refl.
  - destruct (rest st) as [|x t] eqn:E; [discriminate|].
    destruct (Ascii.eqb x c) eqn:Exc; [|discriminate].
    apply Ascii.eqb_eq in Exc. subst x.
    exists (next st c t), cs, [c]. split_and!; simpl; auto; try apply (reaches_next st E).
    intros ->. reflexivity.
  - destruct (rest st) as [|x t] eqn:E; [discriminate|].
    destruct (p x) eqn:Epx; [|discriminate].
    exists (next st x t), cs, [x]. split_and!; simpl; auto; try apply (reaches_next st E).
    intros Hw. rewrite (cls_within_sound _ _ Hw Epx). reflexivity.
  - apply andb_true_iff in G as [Ga Gb].
    destruct (IHa Ga _ _ _ _ Hcs H) as (st1 & cs1 & w1 & Hk & R1 & M1 & C1 & O1).
    destruct (IHb Gb _ _ _ _ C1 Hk) as (st2 & cs2 & w2 & Hk2 & R2 & M2 & C2 & O2).
    exists st2, cs2, (w1 ++ w2). split_and!; simpl; auto; try apply (reaches_trans R1 R2).
    + rewrite length_app. lia.
    + intros Ho. apply andb_true_iff in Ho as [Ho1 Ho2].
      rewrite forallb_app, O1, O2; auto.
  - apply andb_true_iff in G as [Ga Gb].
    destruct (run a st cs k) as [o'|] eqn:E.
    + inversion H; subst.
      destruct (IHa Ga _ _ _ _ Hcs E) as (st1 & cs1 & w1 & Hk & R1 & M1 & C1 & O1).
      exists st1, cs1, w1. split_and!; simpl; auto; try apply R1; [lia|].
      intros Ho. apply andb_true_iff in Ho as [Ho1 Ho2]. auto.
    + destruct (IHb Gb _ _ _ _ Hcs H) as (st1 & cs1 & w1 & Hk & R1 & M1 & C1 & O1).
      exists st1, cs1, w1. split_and!; simpl; auto; try apply R1; [lia|].
      intros Ho. apply andb_true_iff in Ho as [Ho1 Ho2]. auto.
  - change (star_iter (run a) g k (S (length (rest st))) st cs = Some o) in H.
    destruct (@star_inv a g k (IHa G) _ _ _ _ Hcs H) as (st1 & cs1 & w1 & Hk & R1 & C1 & O1).
    exists st1, cs1, w1. split_and!; simpl; auto; try apply R1. lia.
  - destruct (IHa (only_groups_in _ G) _ _ _ _ Hcs H)
      as (st1 & cs1 & w1 & Hk & R1 & M1 & C1 & O1).
    rewrite (reaches_firstn R1) in Hk.
    eexists st1, _, w1.
    split_and!; [exact Hk| | | |]; simpl; auto; try apply R1; try discriminate.
    constructor; simpl; auto.
  - destruct (cap_get i cs) as [w|] eqn:E.
    + destruct (consume w st) as [st1|] eqn:Ec; [|discriminate].
      exists st1, cs, w.
      split_and!; simpl; auto; try apply (consume_reaches _ _ Ec);
        try lia; try discriminate.
    + exists st, cs, []. split_and!; simpl; auto using reaches_refl.
  - destruct (run a st cs (fun st' cs' => Some (st', cs'))); [discriminate|].
    exists st, cs, []. split_and!; simpl; auto using reaches_refl.
  - destruct (xorb _ _); [|discriminate].
    exists st, cs, []. split_and!; simpl; auto using reaches_refl.
  - assert (Hk : k st cs = Some o).
    { destruct (rest st) as [|x t]; auto. destruct (is_line_terminator x); [auto|discriminate]. }
    exists st, cs, []. split_and!; simpl; auto using reaches_refl.
Qed.

End Engine.

(** ** [exec] and the loops over it *)

Section Exec.

Variable P : ascii -> bool.
Variable re : regex.
Hypothesis G : groups_in P re = true.

Lemma match_at_inv (st : cursor) (m : MatchResult) :
  match_at re st = Some m ->
  index m = idx st /\ stop m = idx st + length (whole m)
  /\ min_len re <= length (whole m) /\ length (whole m) <= length (rest st)
  /\ caps_in P (groups m).
Proof.
  unfold match_at. intros H.
  destruct (run re st [] (fun st' cs' => Some (st', cs'))) as [[st1 cs1]|] eqn:E;
    [|discriminate].
  inversion H; subst; clear H; simpl.
  destruct (@run_inv P re G st [] (fun st' cs' => Some (st', cs')) _ ltac:(constructor) E)
    as (st' & cs' & w & Hk & R & M & C & _).
  inversion Hk; subst; clear Hk.
  rewrite (reaches_firstn R). destruct R as [R1 R2].
  split_and!; auto.
  rewrite R1, length_app. lia.
Qed.

Lemma exec_scan_inv (s : str) :
  forall p i li m,
    exec_scan re p s i li = Some m ->
    li <= index m /\ i <= index m /\ index m + min_len re <= stop m
    /\ stop m <= i + length s /\ caps_in P (groups m).
Proof.
  induction s as [|x s IH]; intros p i li m H; simpl in H.
  - destruct (li <=? i) eqn:E; [|discriminate].
    destruct (match_at re _) as [m'|] eqn:Em; [|discriminate].
    inversion H; subst. apply Nat.leb_le in E.
    destruct (match_at_inv _ Em) as (H1 & H2 & H3 & H4 & H5). simpl in *.
    split_and!; auto; lia.
  - destruct (if li <=? i then match_at re _ else None) as [m'|] eqn:Em.
    + inversion H; subst. destruct (li <=? i) eqn:E; [|discriminate].
      apply Nat.leb_le in E.
      destruct (match_at_inv _ Em) as (H1 & H2 & H3 & H4 & H5). simpl in *.
      split_and!; auto; lia.
    + destruct (IH _ _ _ _ H) as (H1 & H2 & H3 & H4 & H5). simpl.
      split_and!; auto; lia.
Qed.

Lemma exec_inv (s : str) (li : nat) (m : MatchResult) :
  exec re s li = Some m ->
  li <= index m /\ index m + min_len re <= stop m /\ stop m <= length s
  /\ caps_in P (groups m).
Proof.
  intros H. destruct (exec_scan_inv _ _ _ _ H) as (H1 & H2 & H3 & H4 & H5).
  split_and!; auto.
Qed.

(** A loop over [exec] ends, with [length s + 2] turns at most, when every
    turn moves [lastIndex] forward. *)
Lemma exec_loop_total (advance : bool) (s : str) :
  advance = true \/ 1 <= min_len re ->
  forall fuel li,
    length s + 2 <= fuel + li -> li <= length s + 1 ->
    exists ms, exec_loop advance fuel re s li = Some ms
               /\ Forall (fun m => caps_in P (groups m)) ms.
Proof.
  intros Hadv. induction fuel as [|fuel IH]; intros li Hf Hli; [lia|].
  simpl. destruct (exec re s li) as [m|] eqn:E.
  - destruct (exec_inv _ _ E) as (H1 & H2 & H3 & H4).
    set (li' := if (advance && (stop m =? index m))%bool then S (stop m) else stop m).
    assert (Hprog : li < li' /\ li' <= length s + 1).
    { unfold li'. destruct advance; simpl.
      - destruct (stop m =? index m) eqn:Es.
        + apply Nat.eqb_eq in Es. lia.
        + apply Nat.eqb_neq in Es. lia.
      - destruct Hadv as [Hadv|Hadv]; [discriminate|]. lia. }
    destruct (IH li') as (ms & Hms & Hall); try lia.
    rewrite Hms. exists (m :: ms). split; auto.
  - exists []. split; auto.
Qed.

Lemma match_all_total (s : str) :
  exists ms, match_all re s = Some ms /\ Forall (fun m => caps_in P (groups m)) ms.
Proof. apply exec_loop_total; [left; reflexivity | lia | lia]. Qed.

Lemma exec_while_total (s : str) :
  1 <= min_len re ->
  exists ms, exec_while re s = Some ms /\ Forall (fun m => caps_in P (groups m)) ms.
Proof. intros H. apply exec_loop_total; [right; exact H | lia | lia]. Qed.

Lemma replace_all_total (s by_ : str) : exists t, replace_all re s by_ = Some t.
Proof.
  unfold replace_all. destruct (match_all_total s) as (ms & -> & _). eauto.
Qed.

End Exec.

Lemma group_in (P : ascii -> bool) (i : nat) (m : MatchResult) :
  caps_in P (groups m) -> forallb P (group i m) = true.
Proof.
  unfold group. intros H. destruct (cap_get i (groups m)) eqn:E; [|reflexivity].
  apply (cap_get_in i H E).
Qed.

(** Whatever the matches, a replacement keeps a property that holds of every
    character of the text and of the replacement. *)
Lemma splice_Forall (Q : ascii -> Prop) (s by_ : str) (ms : list MatchResult) :
  Forall Q s -> Forall Q by_ -> forall at_, Forall Q (splice s at_ ms by_).
Proof.
  intros Hs Hb. induction ms as [|m ms IH]; intros at_; simpl.
  - apply Forall_drop; assumption.
  - repeat apply Forall_app_2; auto.
    unfold slice. apply Forall_take, Forall_drop; assumption.
Qed.

Lemma replace_all_Forall (Q : ascii -> Prop) (re : regex) (s by_ t : str) :
  replace_all re s by_ = Some t -> Forall Q s -> Forall Q by_ -> Forall Q t.
Proof.
  unfold replace_all. destruct (match_all re s); [|discriminate].
  intros H. inversion H; subst. intros. apply splice_Forall; assumption.
Qed.

(** ** Patterns built at run time *)

Lemma RegExp_new_ok (ps : list piece) :
  forallb hole_ok ps = true -> exists re, RegExp_new ps = Some re.
Proof.
  induction ps as [|[r|n] ps IH]; simpl; intros H.
  - eauto.
  - destruct (IH H) as (re & ->). eauto.
  - apply andb_true_iff in H as [Hn Hps]. rewrite Hn.
    destruct (IH Hps) as (re & ->). eauto.
Qed.

(** ** No step of the analyzer throws or loops for ever *)

Lemma stripCommentsAndStrings_total (code : str) :
  exists cleaned, stripCommentsAndStrings code = Some cleaned.
Proof.
  unfold stripCommentsAndStrings.
  destruct (@replace_all_total any_char blockCommentRe eq_refl code blank) as (c1 & ->).
  destruct (@replace_all_total any_char lineCommentRe eq_refl c1 blank) as (c2 & ->).
  destruct (@replace_all_total any_char hashCommentRe eq_refl c2 blank) as (c3 & ->).
  destruct (@replace_all_total any_char stringRe eq_refl c3 blank) as (c4 & ->).
  eauto.
Qed.

Lemma groups_all_word (i : nat) (ms : list MatchResult) :
  Forall (fun m => caps_in is_word (groups m)) ms -> all_word (map (group i) ms).
Proof.
  unfold all_word. induction 1; simpl; constructor; auto using group_in.
Qed.

Lemma varsInCond_total (hd : str) :
  exists vars, varsInCond hd = Some vars /\ all_word vars.
Proof.
  unfold varsInCond.
  destruct (@match_all_total is_word identRe eq_refl hd) as (ms & -> & Hall).
  eauto using groups_all_word.
Qed.

Lemma isBinarySearch_total (vars : list str) (body : str) :
  exists b, isBinarySearch vars body = Some b.
Proof.
  unfold isBinarySearch.
  destruct (exec midCalcRegex body 0) as [m|] eqn:E; [|eauto].
  destruct (@exec_inv is_word midCalcRegex eq_refl _ _ _ E) as (_ & _ & _ & Hc).
  destruct (str_in (group 2 m) vars && str_in (group 3 m) vars)%bool; [|eauto].
  pose proof (group_in 1 m Hc) as H1.
  pose proof (group_in 2 m Hc) as H2.
  pose proof (group_in 3 m Hc) as H3.
  destruct (RegExp_new_ok
              [Src WordB; Hole (group 2 m); Src WordB; Src ws; Src (Chr "="); Src ws;
               Hole (group 1 m); Src ws; Src (Chr "+"); Src ws; Src (Chr "1")])
    as (ul & Hul); [simpl; rewrite H1, H2; reflexivity|].
  destruct (RegExp_new_ok
              [Src WordB; Hole (group 3 m); Src WordB; Src ws; Src (Chr "="); Src ws;
               Hole (group 1 m); Src ws; Src (Chr "-"); Src ws; Src (Chr "1")])
    as (ur & Hur); [simpl; rewrite H1, H3; reflexivity|].
  unfold updateLeft, updateRight. rewrite Hul, Hur. eauto.
Qed.

Lemma divBy2Patterns_total (v : str) :
  forallb is_word v = true -> exists ps, divBy2Patterns v = Some ps.
Proof.
  intros H. unfold divBy2Patterns.
  repeat match goal with
  | |- context [RegExp_new ?ps] =>
      let re := fresh "re" in let E := fresh "E" in
      destruct (RegExp_new_ok ps) as (re & E);
      [simpl; rewrite ?H; reflexivity | rewrite E; clear E]
  end.
  eauto.
Qed.

Lemma bodyKind_total (vars : list str) (body : str) :
  all_word vars -> exists k, bodyKind vars body = Some k.
Proof.
  intros Hv. unfold bodyKind.
  destruct (isBinarySearch_total vars body) as (b & ->).
  destruct b; [eauto|].
  destruct vars as [|[|c v] vars]; [eauto | eauto |].
  inversion Hv; subst.
  destruct (divBy2Patterns_total (c :: v)) as (ps & ->); eauto.
Qed.

Lemma loopInfoOf_total (code : str) (lp : Loop) :
  exists li, loopInfoOf code lp = Some li /\ li_loop li = lp
             /\ depth li = depthAt code (pos lp).
Proof.
  unfold loopInfoOf.
  destruct (varsInCond_total (header lp)) as (vars & -> & Hv).
  destruct (bodyKind_total (loopBody code (pos lp)) Hv) as (k & ->).
  eexists. split_and!; reflexivity.
Qed.

Lemma mapM_total {A B : Type} (f : A -> option B) (l : list A) :
  (forall a, exists b, f a = Some b) -> exists bs, mapM f l = Some bs.
Proof.
  intros Hf. induction l as [|a l (bs & IH)]; simpl; [eauto|].
  destruct (Hf a) as (b & ->). rewrite IH. eauto.
Qed.

Lemma mapM_length {A B : Type} (f : A -> option B) (l : list A) (bs : list B) :
  mapM f l = Some bs -> length bs = length l.
Proof.
  revert bs. induction l as [|a l IH]; simpl; intros bs H.
  - inversion H. reflexivity.
  - destruct (f a); [|discriminate]. destruct (mapM f l); [|discriminate].
    inversion H; subst. simpl. f_equal. auto.
Qed.

Lemma scanLoops_total (code : str) : exists loops, scanLoops code = Some loops.
Proof.
  unfold scanLoops.
  destruct (@exec_while_total any_char forRegex eq_refl code) as (a & -> & _);
    [simpl; lia|].
  destruct (@exec_while_total any_char whileRegex eq_refl code) as (b & -> & _);
    [simpl; lia|].
  destruct (@exec_while_total any_char rangeForRegex eq_refl code) as (c & -> & _);
    [simpl; lia|].
  eauto.
Qed.

Lemma detectLoopsAndNesting_total (code : str) :
  exists loopsInfo, detectLoopsAndNesting code = Some loopsInfo.
Proof.
  unfold detectLoopsAndNesting.
  destruct (scanLoops_total code) as (loops & ->).
  destruct (mapM_total (loopInfoOf code) loops) as (lis & ->); [|eauto].
  intros lp. destruct (loopInfoOf_total code lp) as (li & H & _). eauto.
Qed.

Lemma decls_of_matches (ms : list MatchResult) :
  Forall (fun m => caps_in is_word (groups m)) ms ->
  decls_word (map (fun m => {| fn_name := group 1 m; fn_idx := index m |}) ms).
Proof.
  unfold decls_word. induction 1; simpl; constructor; simpl; auto using group_in.
Qed.

Lemma scanDecls_total (code : str) :
  exists ds, scanDecls code = Some ds /\ decls_word ds.
Proof.
  unfold scanDecls.
  destruct (@exec_while_total is_word jsFunc eq_refl code) as (a & -> & Ha);
    [simpl; lia|].
  destruct (@exec_while_total is_word pyDef eq_refl code) as (b & -> & Hb);
    [simpl; lia|].
  destruct (@exec_while_total is_word cStyle eq_refl code) as (c & -> & Hc);
    [simpl; lia|].
  eexists. split; [reflexivity|].
  unfold decls_word. repeat apply Forall_app_2; apply decls_of_matches; assumption.
Qed.

Lemma Lit_groups_in (P : ascii -> bool) (n : str) : groups_in P (Lit n) = true.
Proof.
  induction n as [|c [|d n] IH]; simpl; auto.
Qed.

Lemma RegExp_new_groups_in (P : ascii -> bool) (ps : list piece) (re : regex) :
  forallb (src_groups_in P) ps = true -> RegExp_new ps = Some re ->
  groups_in P re = true.
Proof.
  revert re. induction ps as [|[r|n] ps IH]; simpl; intros re H E.
  - inversion E. reflexivity.
  - apply andb_true_iff in H as [Hr Hps].
    destruct (RegExp_new ps) as [re'|]; [|discriminate].
    inversion E; subst. simpl. rewrite Hr, (IH _ Hps eq_refl). reflexivity.
  - destruct (forallb is_word n); [|discriminate].
    destruct (RegExp_new ps) as [re'|]; [|discriminate].
    inversion E; subst. simpl. rewrite Lit_groups_in, (IH _ H eq_refl). reflexivity.
Qed.

Lemma recursionStep_total (code : str) (recursion : list RecursionRecord) (f : FnDecl) :
  forallb is_word (fn_name f) = true ->
  exists r, recursionStep code recursion f = Some r.
Proof.
  intros H. unfold recursionStep.
  destruct (indexOf code "{" (fn_idx f)) as [open|]; [|eauto].
  destruct (close_scan _ open 0) as [close|]; [|eauto].
  unfold callRe.
  destruct (RegExp_new_ok [Src WordB; Hole (fn_name f); Src ws; Src (Chr "(")])
    as (re & E); [simpl; rewrite H; reflexivity|].
  rewrite E.
  assert (G : groups_in any_char re = true).
  { apply (RegExp_new_groups_in any_char) with (2 := E). reflexivity. }
  destruct (@match_all_total any_char re G (slice code (open + 1) close))
    as (ms & -> & _).
  eauto.
Qed.

Lemma foldM_total {A B : Type} (Q : B -> Prop) (f : A -> B -> option A) (l : list B) :
  (forall a b, Q b -> exists a', f a b = Some a') ->
  Forall Q l -> forall a, exists a', foldM f a l = Some a'.
Proof.
  intros Hf. induction 1 as [|b l Hb Hl IH]; intros a; simpl; [eauto|].
  destruct (Hf a b Hb) as (a' & ->). apply IH.
Qed.

Lemma detectRecursion_total (code : str) :
  exists recursionInfo, detectRecursion code = Some recursionInfo.
Proof.
  unfold detectRecursion.
  destruct (scanDecls_total code) as (ds & -> & Hds).
  destruct (foldM_total (recursionStep code)
              (fun a b => @recursionStep_total code a b) Hds [])
    as (r & ->).
  eauto.
Qed.

(** In the embedding, every call returns a verdict. *)
Lemma analyzeComplexity_returns (rawCode : str) :
  exists verdict, analyzeComplexity rawCode = Some verdict.
Proof.
  unfold analyzeComplexity.
  destruct (trivial_input rawCode); [eauto|].
  destruct (stripCommentsAndStrings_total rawCode) as (cleaned & ->).
  destruct (detectKnownAlgorithms cleaned); [eauto|].
  destruct (detectLoopsAndNesting_total cleaned) as (loopsInfo & ->).
  destruct (detectRecursion_total cleaned) as (recursionInfo & ->).
  eauto.
Qed.

(** ** Blank texts *)

Lemma trim_start_split (s : str) :
  exists pre, s = pre ++ trim_start s /\ blank_text pre.
Proof.
  induction s as [|c s (pre & E & Hpre)]; simpl.
  - exists []. split; [reflexivity | constructor].
  - destruct (is_space c) eqn:Ec.
    + exists (c :: pre). split; [simpl; congruence | constructor; assumption].
    + exists []. split; [reflexivity | constructor].
Qed.

Lemma trivial_input_blank (s : str) : trivial_input s = true -> blank_text s.
Proof.
  unfold trivial_input, trim. intros H.
  apply orb_true_iff in H as [H|H].
  - destruct s; [constructor | discriminate].
  - destruct (rev (trim_start (rev (trim_start s)))) eqn:E; [|discriminate].
    apply (f_equal (@rev ascii)) in E. rewrite rev_involutive in E. simpl in E.
    destruct (trim_start_split s) as (p1 & E1 & H1).
    destruct (trim_start_split (rev (trim_start s))) as (p2 & E2 & H2).
    rewrite E, app_nil_r in E2.
    apply (f_equal (@rev ascii)) in E2. rewrite rev_involutive in E2.
    rewrite E1, E2. apply Forall_app_2; [assumption|].
    apply Forall_rev. assumption.
Qed.

Lemma includes_In (s w : str) (c : ascii) : includes s (c :: w) = true -> In c s.
Proof.
  induction s as [|x s IH]; simpl; intros H; [discriminate|].
  apply orb_true_iff in H as [H|H].
  - apply andb_true_iff in H as [H _]. apply Ascii.eqb_eq in H. left. congruence.
  - right. auto.
Qed.

Lemma lower_blank (s : str) : blank_text s -> blank_text (lower s).
Proof.
  unfold blank_text, lower, toLowerCase.
  induction 1 as [|c s Hc Hs IH]; simpl; constructor; [|exact IH].
  apply (@cls_within_sound (fun c => is_space (lower_char c)) is_space c);
    [vm_compute; reflexivity | exact Hc].
Qed.

Lemma strip_blank (s t : str) :
  stripCommentsAndStrings s = Some t -> blank_text s -> blank_text t.
Proof.
  unfold stripCommentsAndStrings. intros H Hs.
  assert (Hb : blank_text blank) by (repeat constructor).
  destruct (replace_all blockCommentRe s blank) as [c1|] eqn:E1; [|discriminate].
  destruct (replace_all lineCommentRe c1 blank) as [c2|] eqn:E2; [|discriminate].
  destruct (replace_all hashCommentRe c2 blank) as [c3|] eqn:E3; [|discriminate].
  destruct (replace_all stringRe c3 blank) as [c4|] eqn:E4; [|discriminate].
  inversion H; subst.
  unfold blank_text in *.
  eauto using replace_all_Forall.
Qed.

(** A text that mentions a word starting with a letter is not trivial. *)
Lemma mention_not_trivial (raw cleaned : str) (c : ascii) (w : str) :
  is_space c = false ->
  stripCommentsAndStrings raw = Some cleaned ->
  includes (lower cleaned) (c :: w) = true ->
  trivial_input raw = false.
Proof.
  intros Hc Hs Hi.
  destruct (trivial_input raw) eqn:E; [|reflexivity].
  apply trivial_input_blank in E.
  pose proof (lower_blank (strip_blank Hs E)) as Hb.
  apply includes_In in Hi.
  unfold blank_text in Hb. rewrite List.Forall_forall in Hb.
  specialize (Hb c Hi). congruence.
Qed.

(** ** The catalog of known algorithms *)

Lemma push_if_cons (b : bool) (e x : KnownAlgorithmMatch) (l : list KnownAlgorithmMatch) :
  push_if b e (x :: l) = x :: push_if b e l.
Proof. destruct b; reflexivity. Qed.

Lemma push_if_head (b : bool) (e x : KnownAlgorithmMatch) (l : list KnownAlgorithmMatch) :
  hd_error (push_if b e (x :: l)) = Some x.
Proof. rewrite push_if_cons. reflexivity. Qed.

Lemma in_push_if (b : bool) (e x : KnownAlgorithmMatch) (l : list KnownAlgorithmMatch) :
  In x (push_if b e l) <-> In x l \/ (b = true /\ x = e).
Proof.
  destruct b; simpl.
  - rewrite in_app_iff. simpl. intuition congruence.
  - intuition congruence.
Qed.

(** When no earlier entry of the catalog matches, a mention of dijkstra
    makes Dijkstra's entry the first of the list. *)
Lemma dijkstra_first (code : str) :
  beforeDijkstra code = false ->
  mentions (lower code) "dijkstra" = true ->
  hd_error (knownMatches code) = Some dijkstraEntry.
Proof.
  unfold beforeDijkstra. intros H Hd.
  repeat (apply orb_false_elim in H; destruct H as [H ?]).
  unfold knownMatches.
  repeat match goal with
  | E : ?c = false |- context [?c] => rewrite E
  end.
  rewrite Hd. cbn [push_if app orb andb].
  repeat match goal with
  | |- hd_error (push_if _ _ (_ :: _)) = _ => apply push_if_head
  | |- context [push_if ?b ?e (?x :: ?l)] => rewrite (push_if_cons b e x l)
  end.
Qed.

Lemma detectKnown_primary (code : str) (e : KnownAlgorithmMatch) :
  hd_error (knownMatches code) = Some e ->
  exists known, detectKnownAlgorithms code = Some known
                /\ kv_time known = k_time e /\ kv_space known = k_space e.
Proof.
  unfold detectKnownAlgorithms. destruct (knownMatches code) as [|p l]; simpl; intros H.
  - discriminate.
  - inversion H; subst. eexists. split_and!; reflexivity.
Qed.

(** C3 (amended): for every input whose sanitized text, in lower case,
    contains "dijkstra", and in which no catalog entry scanned before
    Dijkstra's matches (the sorts, the searches, BFS and DFS), the verdict's
    time is "O((V + E) log V)", whatever the loops and the recursion of the
    input and whatever later catalog entries match. *)
Theorem dijkstra_time_when_first_match (raw cleaned : str) :
  stripCommentsAndStrings raw = Some cleaned ->
  mentions (lower cleaned) "dijkstra" = true ->
  beforeDijkstra cleaned = false ->
  exists verdict,
    analyzeComplexity raw = Some verdict
    /\ time verdict = "O((V + E) log V)"%string.
Proof.
  intros Hs Hd Hb.
  assert (Ht : trivial_input raw = false).
  { apply (@mention_not_trivial raw cleaned "d" (lit "ijkstra")); auto. }
  destruct (detectKnown_primary _ (dijkstra_first _ Hb Hd)) as (known & Hk & Htime & _).
  unfold analyzeComplexity. rewrite Ht, Hs, Hk.
  eexists. split; [reflexivity|]. simpl. exact Htime.
Qed.

Lemma dijkstra_time_when_first_match_witness :
  stripCommentsAndStrings dijkstra_sample = Some dijkstra_sample
  /\ mentions (lower dijkstra_sample) "dijkstra" = true
  /\ beforeDijkstra dijkstra_sample = false
  /\ exists verdict,
       analyzeComplexity dijkstra_sample = Some verdict
       /\ time verdict = "O((V + E) log V)"%string.
Proof.
  assert (H1 : stripCommentsAndStrings dijkstra_sample = Some dijkstra_sample)
    by (vm_compute; reflexivity).
  assert (H2 : mentions (lower dijkstra_sample) "dijkstra" = true)
    by (vm_compute; reflexivity).
  assert (H3 : beforeDijkstra dijkstra_sample = false) by (vm_compute; reflexivity).
  split_and!; auto.
  exact (dijkstra_time_when_first_match dijkstra_sample H1 H2 H3).
Defined.

(** C3 (as stated) fails: this text contains "dijkstra" outside comments and
    strings, the words queue and visited make BFS the first match, and the
    time is the one of BFS. *)
Lemma dijkstra_after_bfs_counterexample :
  stripCommentsAndStrings dijkstra_with_queue = Some dijkstra_with_queue
  /\ mentions (lower dijkstra_with_queue) "dijkstra" = true
  /\ option_map time (analyzeComplexity dijkstra_with_queue) = Some "O(V + E)"%string
  /\ option_map time (analyzeComplexity dijkstra_with_queue)
     <> Some "O((V + E) log V)"%string.
Proof. vm_compute. split_and!; try reflexivity. discriminate. Qed.

(** ** The decision rules *)

Unset Implicit Arguments.

Lemma detectRecursion_found (code : str) (ri : RecursionInfo) :
  detectRecursion code = Some ri -> found ri = (0 <? length (functions ri)).
Proof.
  unfold detectRecursion. intros H.
  destruct (scanDecls code); [|discriminate].
  destruct (foldM _ _ _); [|discriminate].
  inversion H; subst. reflexivity.
Qed.

Lemma analyze_structural (raw cleaned : str) (li : LoopsInfo) (ri : RecursionInfo) :
  trivial_input raw = false ->
  stripCommentsAndStrings raw = Some cleaned ->
  detectKnownAlgorithms cleaned = None ->
  detectLoopsAndNesting cleaned = Some li ->
  detectRecursion cleaned = Some ri ->
  analyzeComplexity raw = Some (structuralVerdict li ri).
Proof.
  intros Ht Hs Hk Hl Hr. unfold analyzeComplexity.
  rewrite Ht, Hs, Hk, Hl, Hr. reflexivity.
Qed.

(** C8 (amended): the empty-input branch returns empty diagnostics, the
    known-pattern branch returns the names of the matches only, and every
    other branch (recursion, loops, default) returns the loop records and the
    recursion records that the two analyzers found. *)
Theorem details_of_each_branch (raw : str) :
  exists verdict,
    analyzeComplexity raw = Some verdict
    /\ if trivial_input raw then details verdict = NoDetails
       else exists cleaned,
         stripCommentsAndStrings raw = Some cleaned
         /\ match detectKnownAlgorithms cleaned with
            | Some known => details verdict = Matches (kv_matches known)
            | None =>
                exists li ri,
                  detectLoopsAndNesting cleaned = Some li
                  /\ detectRecursion cleaned = Some ri
                  /\ details verdict = Findings li ri
            end.
Proof.
  unfold analyzeComplexity.
  destruct (trivial_input raw); [eexists; split; reflexivity|].
  destruct (stripCommentsAndStrings_total raw) as (cleaned & Hs). rewrite Hs.
  destruct (detectKnownAlgorithms cleaned) as [known|] eqn:Ek.
  - eexists. split; [reflexivity|]. exists cleaned. rewrite Ek. auto.
  - destruct (detectLoopsAndNesting_total cleaned) as (li & Hl).
    destruct (detectRecursion_total cleaned) as (ri & Hr).
    rewrite Hl, Hr. eexists. split; [reflexivity|].
    exists cleaned. rewrite Ek. split; [reflexivity|].
    exists li, ri. split_and!; auto.
    unfold structuralVerdict, recursionVerdict.
    repeat match goal with |- context [if ?b then _ else _] => destruct b end;
      reflexivity.
Qed.

(** C8 (as stated) fails: the empty input has empty diagnostics, and an
    input with a known pattern has the names of the matches and no loop or
    recursion records, although it has a loop. *)
Lemma details_without_findings_counterexample :
  option_map details (analyzeComplexity (lit "")) = Some NoDetails
  /\ option_map details
       (analyzeComplexity (lit "for (i = 0; i < n; i++) { bubble sort }"))
     = Some (Matches ["Bubble Sort"%string]).
Proof. vm_compute. split; reflexivity. Qed.

Lemma fib_in_matches (code : str) :
  fibMention (lower code) = true -> In (fibEntry (lower code)) (knownMatches code).
Proof.
  intros H. unfold knownMatches.
  do 3 (apply in_push_if; left).
  apply in_push_if. right. auto.
Qed.

Lemma other_fib_not_in_matches (code : str) (x : KnownAlgorithmMatch) :
  In x (knownMatches code) -> (x = memoFib \/ x = naiveFib) -> x = fibEntry (lower code).
Proof.
  unfold knownMatches. intros H Hx.
  repeat (apply in_push_if in H; destruct H as [H | [_ H]]);
    try (destruct H; fail); try assumption;
    subst x; destruct Hx as [Hx|Hx]; discriminate Hx.
Qed.

Lemma found_of_member (code : str) (ri : RecursionInfo) (f : RecursionRecord) :
  detectRecursion code = Some ri -> In f (functions ri) -> found ri = true.
Proof.
  intros H Hin. rewrite (detectRecursion_found code ri H).
  destruct (functions ri); [destruct Hin | reflexivity].
Qed.

(** ** The loop analyzer *)

Lemma detectLoops_spec (code : str) (loops : list Loop) (lis : list LoopInfo) :
  scanLoops code = Some loops ->
  mapM (loopInfoOf code) loops = Some lis ->
  detectLoopsAndNesting code
  = Some {| loopCount := length loops;
            maxDepth := fold_left (fun a b => Nat.max a (depth b)) lis 0;
            maxNestedN :=
              maxOver (nLoopsAtDepth lis)
                (fold_left (fun a b => Nat.max a (depth b)) lis 0);
            logDetected := existsb (fun l => is_log (iterKind l)) lis;
            loopInfos := lis |}.
Proof.
  intros H1 H2. unfold detectLoopsAndNesting. rewrite H1, H2. reflexivity.
Qed.

Lemma detectLoops_inv (code : str) (li : LoopsInfo) :
  detectLoopsAndNesting code = Some li ->
  exists loops,
    scanLoops code = Some loops
    /\ mapM (loopInfoOf code) loops = Some (loopInfos li)
    /\ loopCount li = length (loopInfos li)
    /\ logDetected li = existsb (fun l => is_log (iterKind l)) (loopInfos li)
    /\ maxNestedN li = maxOver (nLoopsAtDepth (loopInfos li)) (maxDepth li)
    /\ maxDepth li = fold_left (fun a b => Nat.max a (depth b)) (loopInfos li) 0.
Proof.
  unfold detectLoopsAndNesting. intros H.
  destruct (scanLoops code) as [loops|]; [|discriminate].
  destruct (mapM (loopInfoOf code) loops) as [lis|] eqn:E; [|discriminate].
  inversion H; subst; simpl. exists loops. split_and!; auto.
  symmetry. apply (mapM_length _ _ E).
Qed.

Lemma maxOver_fold (m : gmap nat nat) (l : list nat) (best : nat) :
  let step := fun best d =>
    if best <? default 0 (m !! d) then default 0 (m !! d) else best in
  best <= fold_left step l best
  /\ (forall d, In d l -> countAt m d <= fold_left step l best)
  /\ (forall B, best <= B -> (forall d, In d l -> countAt m d <= B) ->
        fold_left step l best <= B).
Proof.
  intros step. revert best. induction l as [|x l IH]; intros best; simpl.
  - split_and!; auto. intros d [].
  - destruct (IH (step best x)) as (H1 & H2 & H3).
    assert (Hs : best <= step best x /\ countAt m x <= step best x
                 /\ (step best x = best \/ step best x = countAt m x)).
    { unfold step, countAt. destruct (best <? default 0 (m !! x)) eqn:E.
      - apply Nat.ltb_lt in E. lia.
      - apply Nat.ltb_ge in E. lia. }
    split_and!.
    + lia.
    + intros d [<-|Hd]; [lia | auto].
    + intros B Hb Hall. apply H3.
      * destruct Hs as (_ & _ & [->| ->]); auto.
      * auto.
Qed.

(** [maxOver] is the largest count at a depth from 0 to [md]. *)
Lemma maxOver_is (m : gmap nat nat) (md B d : nat) :
  d <= md -> countAt m d = B -> (forall j, countAt m j <= B) -> maxOver m md = B.
Proof.
  intros Hd HB Hall. unfold maxOver.
  destruct (maxOver_fold m (seq 0 (S md)) 0) as (_ & H2 & H3).
  apply Nat.le_antisymm.
  - apply H3; [lia | auto].
  - rewrite <- HB. apply H2. apply in_seq. lia.
Qed.

Lemma maxOver_empty (md : nat) : maxOver ∅ md = 0.
Proof.
  apply (maxOver_is ∅ md 0 0); [lia | reflexivity |].
  intros j. unfold countAt. rewrite lookup_empty. simpl. lia.
Qed.

Lemma loopInfoOf_halving (code : str) (lp : Loop) (c : ascii) (v : str)
    (vars : list str) (ps : list regex) :
  varsInCond (header lp) = Some ((c :: v) :: vars) ->
  divBy2Patterns (c :: v) = Some ps ->
  existsb (fun re => test re (loopBody code (pos lp))) ps = true ->
  exists li, loopInfoOf code lp = Some li /\ iterKind li = KLog.
Proof.
  intros Hv Hd He. unfold loopInfoOf, bodyKind. rewrite Hv.
  destruct (isBinarySearch_total ((c :: v) :: vars) (loopBody code (pos lp))) as (b & ->).
  destruct b.
  - eexists. split; reflexivity.
  - rewrite Hd, He. eexists. split; reflexivity.
Qed.

(** C4 (amended): the input [while (n > 1) { n = Math.floor(n / 2); }] has
    time "O(log n)", space "O(n)" and an explanation that names the
    divide-by-two behavior; more generally, for every input with no
    known-algorithm match and no recorded recursion whose only loop record is
    a while loop such that the first identifier of its condition is halved in
    its body (one of the four patterns of line 143: [v = v / 2], [v >>= 1],
    [v = Math.floor(v / 2)], [v = Math.ceil(v / 2)]), the time is "O(log n)"
    and the space is "O(n)". *)
Theorem halving_while_logarithmic :
  option_map (fun v => (time v, space v, timeExplanation v))
    (analyzeComplexity halving_sample)
  = Some ("O(log n)"%string, "O(n)"%string,
          "Detected logarithmic loop pattern (divide-by-two behavior)."%string)
  /\ forall (raw cleaned : str) (ri : RecursionInfo) (lp : Loop) (c : ascii) (v : str)
       (vars : list str) (ps : list regex),
       trivial_input raw = false ->
       stripCommentsAndStrings raw = Some cleaned ->
       detectKnownAlgorithms cleaned = None ->
       detectRecursion cleaned = Some ri -> found ri = false ->
       scanLoops cleaned = Some [lp] -> type lp = TWhile ->
       varsInCond (header lp) = Some ((c :: v) :: vars) ->
       divBy2Patterns (c :: v) = Some ps ->
       existsb (fun re => test re (loopBody cleaned (pos lp))) ps = true ->
       exists verdict,
         analyzeComplexity raw = Some verdict
         /\ time verdict = "O(log n)"%string
         /\ space verdict = "O(n)"%string
         /\ timeExplanation verdict
            = "Detected logarithmic loop pattern (divide-by-two behavior)."%string.
Proof.
  split; [vm_compute; reflexivity|].
  intros raw cleaned ri lp c v vars ps Ht Hs Hk Hr Hf Hl _ Hv Hd He.
  destruct (loopInfoOf_halving cleaned lp c v vars ps Hv Hd He) as (li & Hli & Hkind).
  assert (Hm : mapM (loopInfoOf cleaned) [lp] = Some [li]).
  { simpl. rewrite Hli. reflexivity. }
  rewrite (analyze_structural raw cleaned _ ri Ht Hs Hk
             (detectLoops_spec cleaned [lp] [li] Hl Hm) Hr).
  unfold structuralVerdict, loopTime. rewrite Hf. simpl.
  unfold nLoopsAtDepth, countN. simpl. rewrite Hkind. simpl.
  rewrite maxOver_empty. simpl.
  eexists. split; [reflexivity|]. split_and!; reflexivity.
Qed.

Lemma halving_while_logarithmic_witness :
  exists verdict,
    analyzeComplexity halving_sample = Some verdict
    /\ time verdict = "O(log n)"%string
    /\ space verdict = "O(n)"%string
    /\ timeExplanation verdict
       = "Detected logarithmic loop pattern (divide-by-two behavior)."%string.
Proof.
  refine (proj2 halving_while_logarithmic halving_sample halving_sample
            {| found := false; functions := [] |}
            {| type := TWhile; header := lit "n > 1"; pos := 0 |}
            "n"%char [] []
            (match divBy2Patterns (lit "n") with Some ps => ps | None => [] end)
            _ _ _ _ _ _ _ _ _ _);
    vm_compute; reflexivity.
Defined.

(** C4 (as stated) fails in its general part: the condition of this single
    while loop references [n], the body halves [n], and the time is "O(1)":
    only the first identifier of the condition is looked for in the body. *)
Lemma halved_variable_not_first_counterexample :
  option_map (map (fun l => (type (li_loop l), header (li_loop l), iterKind l)))
    (option_map loopInfos (detectLoopsAndNesting halving_second_variable))
  = Some [(TWhile, lit "i < n", KUnknown)]
  /\ option_map (fun ps => existsb (fun re =>
        test re (loopBody halving_second_variable 0)) ps) (divBy2Patterns (lit "n"))
     = Some true
  /\ option_map time (analyzeComplexity halving_second_variable) = Some "O(1)"%string
  /\ option_map time (analyzeComplexity halving_second_variable) <> Some "O(log n)"%string.
Proof. vm_compute. split_and!; try reflexivity. discriminate. Qed.

(** C5 (amended): for every input with no known-algorithm match, no
    recorded recursion and no loop classified logarithmic, in which the loop
    analyzer records two [for] loops, one at a depth one greater than the
    other, whose headers both contain length, size or len (in any case), the
    time is "O(n²)" and the explanation is "Detected two nested loops
    iterating over same array."; this holds whatever the count of linear
    loops at one depth is, so the idiom comes before the generic rule. *)
Theorem nested_length_loops_quadratic
    (raw cleaned : str) (li : LoopsInfo) (ri : RecursionInfo) (outer inner : LoopInfo) :
  trivial_input raw = false ->
  stripCommentsAndStrings raw = Some cleaned ->
  detectKnownAlgorithms cleaned = None ->
  detectRecursion cleaned = Some ri -> found ri = false ->
  detectLoopsAndNesting cleaned = Some li -> logDetected li = false ->
  In outer (loopInfos li) -> In inner (loopInfos li) ->
  type (li_loop outer) = TFor -> type (li_loop inner) = TFor ->
  depth inner = depth outer + 1 ->
  test lengthRe (toLowerCase (header (li_loop outer))) = true ->
  test lengthRe (toLowerCase (header (li_loop inner))) = true ->
  exists verdict,
    analyzeComplexity raw = Some verdict
    /\ time verdict = "O(n²)"%string
    /\ timeExplanation verdict
       = "Detected two nested loops iterating over same array."%string.
Proof.
  intros Ht Hs Hk Hr Hf Hl Hlog Ho Hi To Ti Hd Lo Li.
  rewrite (analyze_structural raw cleaned li ri Ht Hs Hk Hl Hr).
  destruct (detectLoops_inv cleaned li Hl) as (loops & _ & _ & Hc & _).
  unfold structuralVerdict, loopTime. rewrite Hf, Hlog.
  assert (Hpos : (0 <? loopCount li) = true).
  { rewrite Hc. destruct (loopInfos li); [destruct Ho | reflexivity]. }
  assert (Hn : hasNestedSameArrayLoop (loopInfos li) = true).
  { unfold hasNestedSameArrayLoop. apply existsb_exists. exists outer. split; [exact Ho|].
    apply existsb_exists. exists inner. split; [exact Hi|].
    rewrite To, Ti, Lo, Li, Hd, Nat.eqb_refl. reflexivity. }
  rewrite Hpos, Hn. eexists. split; [reflexivity|]. split; reflexivity.
Qed.

Lemma nested_length_loops_quadratic_witness :
  exists verdict,
    analyzeComplexity pairs_sample = Some verdict
    /\ time verdict = "O(n²)"%string
    /\ timeExplanation verdict
       = "Detected two nested loops iterating over same array."%string.
Proof.
  set (o := {| li_loop := {| type := TFor; header := pairs_header "i"; pos := 22 |};
               depth := 1; iterKind := KN |}).
  set (i := {| li_loop := {| type := TFor; header := pairs_header "j"; pos := 61 |};
               depth := 2; iterKind := KN |}).
  refine (nested_length_loops_quadratic pairs_sample pairs_sample
            {| loopCount := 2; maxDepth := 2; maxNestedN := 1; logDetected := false;
               loopInfos := [o; i] |}
            {| found := false; functions := [] |} o i _ _ _ _ _ _ _ _ _ _ _ _ _ _);
    try (vm_compute; reflexivity).
  - left. reflexivity.
  - right. left. reflexivity.
Defined.

(** C5 (as stated) fails: two directly nested counting [for] loops in a
    function, both headers with length; the outer header also contains [/2],
    which classifies it logarithmic, and the logarithmic rule comes first. *)
Lemma half_length_header_counterexample :
  option_map (map (fun l => (type (li_loop l), depth l,
                             test lengthRe (toLowerCase (header (li_loop l))),
                             iterKind l)))
    (option_map loopInfos (detectLoopsAndNesting half_length_sample))
  = Some [(TFor, 1, true, KLog); (TFor, 2, true, KN)]
  /\ option_map time (analyzeComplexity half_length_sample)
     = Some "O(n^1 log n)"%string
  /\ option_map time (analyzeComplexity half_length_sample) <> Some "O(n²)"%string.
Proof. vm_compute. split_and!; try reflexivity. discriminate. Qed.

Lemma loopInfoOf_inv (code : str) (lp : Loop) (li : LoopInfo) :
  loopInfoOf code lp = Some li ->
  li_loop li = lp /\ depth li = depthAt code (pos lp)
  /\ (iterKind li = KLog \/ iterKind li = headerKind (header lp)).
Proof.
  unfold loopInfoOf. intros H.
  destruct (varsInCond (header lp)); [|discriminate].
  destruct (bodyKind _ _) as [k|]; [|discriminate].
  inversion H; subst; simpl. split_and!; auto.
  destruct k; simpl; auto.
Qed.



(** ** The bound on the iterations of a star is never reached *)

Lemma star_iter_ext (a : regex) (greedy : bool) :
  (forall st cs k1 k2,
     (forall st' cs' w, reaches st st' w -> k1 st' cs' = k2 st' cs') ->
     run a st cs k1 = run a st cs k2) ->
  forall n st cs k1 k2,
    (forall st' cs' w, reaches st st' w -> k1 st' cs' = k2 st' cs') ->
    star_iter (run a) greedy k1 n st cs = star_iter (run a) greedy k2 n st cs.
Proof.
  intros IHa. induction n as [|n IHn]; intros st cs k1 k2 Hk; simpl.
  - apply (Hk st cs []), reaches_refl.
  - rewrite (Hk st cs [] (reaches_refl st)).
    rewrite (IHa st cs _
               (fun st' cs' =>
                  if idx st <? idx st' then star_iter (run a) greedy k2 n st' cs'
                  else None)).
    + reflexivity.
    + intros st' cs' w R. destruct (idx st <? idx st'); [|reflexivity].
      apply IHn. intros st'' cs'' w' R'.
      apply (Hk st'' cs'' (w ++ w')). apply (reaches_trans R R').
Qed.

(** A run calls its continuation at positions of the same subject only: two
    continuations that agree there give the same outcome. *)
Lemma run_ext (r : regex) :
  forall st cs k1 k2,
    (forall st' cs' w, reaches st st' w -> k1 st' cs' = k2 st' cs') ->
    run r st cs k1 = run r st cs k2.
Proof.
  induction r as [|c|p|a IHa b IHb|a IHa b IHb|g a IHa|i a IHa|i|a IHa| |];
    intros st cs k1 k2 Hk; simpl.
  - apply (Hk st cs []), reaches_refl.
  - destruct (rest st) as [|x t] eqn:E; [reflexivity|].
    destruct (Ascii.eqb x c); [|reflexivity].
    apply (Hk _ cs [x]), reaches_next, E.
  - destruct (rest st) as [|x t] eqn:E; [reflexivity|].
    destruct (p x); [|reflexivity].
    apply (Hk _ cs [x]), reaches_next, E.
  - apply IHa. intros st' cs' w R. apply IHb. intros st'' cs'' w' R'.
    apply (Hk st'' cs'' (w ++ w')), (reaches_trans R R').
  - rewrite (IHa st cs k1 k2 Hk), (IHb st cs k1 k2 Hk). reflexivity.
  - change (star_iter (run a) g k1 (S (length (rest st))) st cs
            = star_iter (run a) g k2 (S (length (rest st))) st cs).
    apply (star_iter_ext a g IHa). exact Hk.
  - apply IHa. intros st' cs' w R. apply (Hk st' _ w R).
  - destruct (cap_get i cs) as [w|].
    + destruct (consume w st) as [st'|] eqn:E; [|reflexivity].
      apply (Hk st' cs w), consume_reaches, E.
    + apply (Hk st cs []), reaches_refl.
  - rewrite (Hk st cs [] (reaches_refl st)). reflexivity.
  - rewrite (Hk st cs [] (reaches_refl st)). reflexivity.
  - rewrite (Hk st cs [] (reaches_refl st)). reflexivity.
Qed.

(** With more iterations allowed than characters left, allowing still more
    changes nothing: the bound that [run] gives to a star does not cut any
    match short. *)
Lemma star_fuel_enough (a : regex) (greedy : bool) (k : cursor -> caps -> outcome) :
  forall n m st cs,
    length (rest st) < n -> length (rest st) < m ->
    star_iter (run a) greedy k n st cs = star_iter (run a) greedy k m st cs.
Proof.
  induction n as [|n IH]; intros m st cs Hn Hm; [lia|].
  destruct m as [|m]; [lia|]. simpl.
  rewrite (run_ext a st cs _
             (fun st' cs' =>
                if idx st <? idx st' then star_iter (run a) greedy k m st' cs'
                else None)).
  - reflexivity.
  - intros st' cs' w [R1 R2]. destruct (idx st <? idx st') eqn:E; [|reflexivity].
    apply Nat.ltb_lt in E.
    assert (length (rest st) = length w + length (rest st'))
      by (rewrite R1, length_app; reflexivity).
    apply IH; lia.
Qed.

(** * Further properties of the code *)

(** ** Where a match can start *)

Lemma zero_width_run (r : regex) :
  zero_width r = true ->
  forall st cs k o, run r st cs k = Some o -> k st cs = Some o.
Proof.
  induction r as [|c|p|a IHa b IHb|a IHa b IHb|g a IHa|i a IHa|i|a IHa| |];
    simpl; intros Z st cs k o H; try discriminate.
  - exact H.
  - apply andb_true_iff in Z as [Za Zb].
    apply (IHb Zb), (IHa Za _ _ _ _ H).
  - destruct (run a st cs _); [discriminate | exact H].
  - destruct (xorb _ _); [exact H | discriminate].
  - destruct (rest st) as [|x t]; [exact H|].
    destruct (is_line_terminator x); [exact H | discriminate].
Qed.

Lemma first_in_run (P : ascii -> bool) (r : regex) :
  first_in P r = true ->
  forall st cs k o, run r st cs k = Some o ->
  exists x t, rest st = x :: t /\ P x = true.
Proof.
  induction r as [|c|p|a IHa b IHb|a IHa b IHb|g a IHa|i a IHa|i|a IHa| |];
    simpl; intros F st cs k o H; try discriminate.
  - destruct (rest st) as [|x t]; [discriminate|].
    destruct (Ascii.eqb x c) eqn:E; [|discriminate].
    apply Ascii.eqb_eq in E. subst. eauto.
  - destruct (rest st) as [|x t]; [discriminate|].
    destruct (p x) eqn:E; [|discriminate].
    exists x, t. split; [reflexivity|]. apply (cls_within_sound P p x F E).
  - apply orb_true_iff in F as [F|F].
    + apply (IHa F _ _ _ _ H).
    + apply andb_true_iff in F as [Z F].
      apply (IHb F st cs k o). apply (zero_width_run a Z _ _ _ _ H).
  - apply andb_true_iff in F as [Fa Fb].
    destruct (run a st cs k) eqn:E.
    + apply (IHa Fa _ _ _ _ E).
    + apply (IHb Fb _ _ _ _ H).
  - apply (IHa F _ _ _ _ H).
Qed.

(** A pattern whose matches start with a character of [P] finds nothing in a
    text without such a character. *)
Lemma exec_scan_none (P : ascii -> bool) (re : regex) (s : str) :
  first_in P re = true -> forallb (fun c => negb (P c)) s = true ->
  forall p i li, exec_scan re p s i li = None.
Proof.
  intros F. induction s as [|x s IH]; simpl; intros Hs p i li.
  - destruct (li <=? i); [|reflexivity].
    unfold match_at.
    destruct (run re _ [] _) as [[st' cs']|] eqn:E; [|reflexivity].
    destruct (first_in_run P re F _ _ _ _ E) as (y & t & Hy & _). discriminate Hy.
  - apply andb_true_iff in Hs as [Hx Hs].
    assert (Hm : match_at re {| prev := p; rest := x :: s; idx := i |} = None).
    { unfold match_at.
      destruct (run re _ [] _) as [[st' cs']|] eqn:E; [|reflexivity].
      destruct (first_in_run P re F _ _ _ _ E) as (y & t & Hy & Py).
      simpl in Hy. inversion Hy; subst. rewrite Py in Hx. discriminate Hx. }
    rewrite Hm. destruct (li <=? i); apply IH; exact Hs.
Qed.

Lemma replace_all_untouched (P : ascii -> bool) (re : regex) (s by_ : str) :
  first_in P re = true -> forallb (fun c => negb (P c)) s = true ->
  replace_all re s by_ = Some s.
Proof.
  intros F Hs. unfold replace_all, match_all.
  replace (length s + 2) with (S (length s + 1)) by lia. simpl.
  unfold exec. rewrite (exec_scan_none P re s F Hs). reflexivity.
Qed.

(** X1: a text without [/], [#] and the three quotes has no comment and no
    string literal: the sanitizer returns it as it is. *)
Theorem strip_without_trigger_is_identity (code : str) :
  forallb (fun c => negb (is_trigger c)) code = true ->
  stripCommentsAndStrings code = Some code.
Proof.
  intros H. unfold stripCommentsAndStrings.
  rewrite (replace_all_untouched is_trigger blockCommentRe code blank eq_refl H).
  rewrite (replace_all_untouched is_trigger lineCommentRe code blank eq_refl H).
  rewrite (replace_all_untouched is_trigger hashCommentRe code blank eq_refl H).
  rewrite (replace_all_untouched is_trigger stringRe code blank eq_refl H).
  reflexivity.
Qed.

Lemma strip_without_trigger_is_identity_witness :
  stripCommentsAndStrings range_for_sample = Some range_for_sample.
Proof.
  apply (strip_without_trigger_is_identity range_for_sample). vm_compute. reflexivity.
Defined.

(** ** What the sanitizer can do to a text *)

Lemma chained_from_earlier (n len : nat) (ms : list MatchResult) (a b : nat) :
  a <= b -> chained n len b ms -> chained n len a ms.
Proof.
  intros Hab. destruct ms as [|m ms]; simpl; [auto|].
  intros (H1 & H2 & H3 & H4). split_and!; auto. lia.
Qed.

Lemma exec_loop_chained (P : ascii -> bool) (re : regex) (advance : bool) (s : str) :
  groups_in P re = true ->
  forall fuel li ms,
    exec_loop advance fuel re s li = Some ms ->
    chained (min_len re) (length s) li ms.
Proof.
  intros G. induction fuel as [|fuel IH]; intros li ms H; simpl in H; [discriminate|].
  destruct (exec re s li) as [m|] eqn:E.
  - destruct (exec_loop advance fuel re s _) as [ms'|] eqn:E'; [|discriminate].
    inversion H; subst; clear H.
    destruct (@exec_inv P re G s li m E) as (H1 & H2 & H3 & _).
    simpl. split_and!; auto.
    apply IH in E'. eapply chained_from_earlier; [|exact E'].
    destruct (advance && (stop m =? index m))%bool; lia.
  - inversion H; subst. exact I.
Qed.

Lemma splice_length (s by_ : str) (n : nat) (ms : list MatchResult) :
  length by_ <= n ->
  forall at_, at_ <= length s -> chained n (length s) at_ ms ->
  length (splice s at_ ms by_) + at_ <= length s.
Proof.
  intros Hb. induction ms as [|m ms IH]; intros at_ Ha Hc; simpl.
  - rewrite length_skipn. lia.
  - destruct Hc as (H1 & H2 & H3 & H4).
    specialize (IH (stop m) H3 H4).
    rewrite !length_app. unfold slice. rewrite length_firstn, length_skipn. lia.
Qed.

Lemma replace_all_length (re : regex) (s t : str) :
  groups_in any_char re = true -> 1 <= min_len re ->
  replace_all re s blank = Some t -> length t <= length s.
Proof.
  intros G Hm. unfold replace_all, match_all.
  destruct (exec_loop true (length s + 2) re s 0) as [ms|] eqn:E; [|discriminate].
  intros H. inversion H; subst; clear H.
  pose proof (exec_loop_chained any_char re true s G _ _ _ E) as Hc.
  pose proof (splice_length s blank (min_len re) ms Hm 0 ltac:(lia) Hc). lia.
Qed.

(** X2: the sanitizer only takes away or blanks: the sanitized text is not
    longer than the input, and each of its characters is a character of the
    input or a space. *)
Theorem strip_only_removes_or_blanks (code cleaned : str) :
  stripCommentsAndStrings code = Some cleaned ->
  length cleaned <= length code
  /\ forall c, In c cleaned -> In c code \/ c = " "%char.
Proof.
  unfold stripCommentsAndStrings. intros H.
  destruct (replace_all blockCommentRe code blank) as [c1|] eqn:E1; [|discriminate].
  destruct (replace_all lineCommentRe c1 blank) as [c2|] eqn:E2; [|discriminate].
  destruct (replace_all hashCommentRe c2 blank) as [c3|] eqn:E3; [|discriminate].
  destruct (replace_all stringRe c3 blank) as [c4|] eqn:E4; [|discriminate].
  inversion H; subst; clear H. split.
  - pose proof (replace_all_length blockCommentRe code c1 eq_refl ltac:(simpl; lia) E1).
    pose proof (replace_all_length lineCommentRe c1 c2 eq_refl ltac:(simpl; lia) E2).
    pose proof (replace_all_length hashCommentRe c2 c3 eq_refl ltac:(simpl; lia) E3).
    pose proof (replace_all_length stringRe c3 cleaned eq_refl ltac:(simpl; lia) E4).
    lia.
  - set (Q := fun c : ascii => In c code \/ c = " "%char).
    assert (Hb : Forall Q blank) by (repeat constructor; right; reflexivity).
    assert (H0 : Forall Q code).
    { apply List.Forall_forall. intros c Hc. left. exact Hc. }
    pose proof (@replace_all_Forall Q _ _ _ _ E1 H0 Hb) as H1.
    pose proof (@replace_all_Forall Q _ _ _ _ E2 H1 Hb) as H2.
    pose proof (@replace_all_Forall Q _ _ _ _ E3 H2 Hb) as H3.
    pose proof (@replace_all_Forall Q _ _ _ _ E4 H3 Hb) as H4.
    rewrite List.Forall_forall in H4. exact H4.
Qed.

Lemma strip_only_removes_or_blanks_witness :
  length (lit "a /* b */ c") >= length (lit "a   c")
  /\ forall c, In c (lit "a   c") -> In c (lit "a /* b */ c") \/ c = " "%char.
Proof.
  apply (strip_only_removes_or_blanks (lit "a /* b */ c") (lit "a   c")).
  vm_compute. reflexivity.
Defined.

(** ** More on the catalog of known algorithms *)

Lemma forallb_false_witness (f : ascii -> bool) (s : str) :
  forallb f s = false -> exists c, In c s /\ f c = false.
Proof.
  induction s as [|x s IH]; simpl; intros H; [discriminate|].
  destruct (f x) eqn:E.
  - destruct (IH H) as (c & Hc & Hf). eauto.
  - eauto.
Qed.

Lemma test_has_first (P : ascii -> bool) (re : regex) (s : str) :
  first_in P re = true -> test re s = true -> exists c, In c s /\ P c = true.
Proof.
  intros F H.
  destruct (forallb (fun c => negb (P c)) s) eqn:E.
  - unfold test, exec in H. rewrite (exec_scan_none P re s F E) in H. discriminate H.
  - destruct (forallb_false_witness _ s E) as (c & Hc & Hn).
    exists c. split; [exact Hc|]. destruct (P c); [reflexivity | discriminate Hn].
Qed.

Lemma nontrivial_of_nonblank (raw cleaned : str) (c : ascii) :
  stripCommentsAndStrings raw = Some cleaned ->
  In c (lower cleaned) -> is_space c = false ->
  trivial_input raw = false.
Proof.
  intros Hs Hin Hc.
  destruct (trivial_input raw) eqn:E; [|reflexivity].
  apply trivial_input_blank in E.
  pose proof (lower_blank (strip_blank Hs E)) as Hb.
  unfold blank_text in Hb. rewrite List.Forall_forall in Hb.
  specialize (Hb c Hin). congruence.
Qed.

Lemma mergeSort_first (code : str) :
  mergeSortCue (lower code) = true ->
  hd_error (knownMatches code) = Some mergeSortEntry.
Proof.
  unfold mergeSortCue, knownMatches. intros ->. cbn [push_if app].
  repeat match goal with
  | |- hd_error (push_if _ _ (_ :: _)) = _ => apply push_if_head
  | |- context [push_if ?b ?e (?x :: ?l)] => rewrite (push_if_cons b e x l)
  end.
Qed.

(** X3: Merge Sort is the first entry of the catalog: every input whose
    sanitized text, in lower case, contains "merge sort" or the word
    mergesort gets the time "O(n log n)" and the space "O(n)" of Merge Sort,
    whatever other names, loops and recursion it has. *)
Theorem merge_sort_always_wins (raw cleaned : str) :
  stripCommentsAndStrings raw = Some cleaned ->
  mergeSortCue (lower cleaned) = true ->
  exists verdict,
    analyzeComplexity raw = Some verdict
    /\ time verdict = "O(n log n)"%string
    /\ space verdict = "O(n)"%string
    /\ timeExplanation verdict
       = "Detected known algorithm or strong hint: Merge Sort."%string.
Proof.
  intros Hs Hc.
  assert (Ht : trivial_input raw = false).
  { unfold mergeSortCue in Hc. apply orb_true_iff in Hc as [Hc|Hc].
    - apply (@mention_not_trivial raw cleaned "m" (lit "erge sort")); auto.
    - destruct (test_has_first (Ascii.eqb "m") (whole_word "mergesort") (lower cleaned)
                  eq_refl Hc) as (c & Hin & Hm).
      apply Ascii.eqb_eq in Hm. subst c.
      apply (nontrivial_of_nonblank raw cleaned "m" Hs Hin eq_refl). }
  pose proof (mergeSort_first cleaned Hc) as Hh.
  unfold analyzeComplexity, detectKnownAlgorithms. rewrite Ht, Hs.
  destruct (knownMatches cleaned) as [|p l]; [discriminate Hh|].
  simpl in Hh. inversion Hh; subst p.
  eexists. split; [reflexivity|]. split_and!; reflexivity.
Qed.

Lemma merge_sort_always_wins_witness :
  exists verdict,
    analyzeComplexity merge_sort_sample = Some verdict
    /\ time verdict = "O(n log n)"%string
    /\ space verdict = "O(n)"%string
    /\ timeExplanation verdict
       = "Detected known algorithm or strong hint: Merge Sort."%string.
Proof.
  apply (merge_sort_always_wins merge_sort_sample merge_sort_sample);
    vm_compute; reflexivity.
Defined.

(** X4: the Union-Find entry is recorded exactly when the union-find
    pattern of line 55 matches and the text does not mention kruskal: the
    test of line 56 on the names recorded so far amounts to that. *)
Theorem union_find_unless_kruskal (code : str) :
  In unionFindEntry (knownMatches code)
  <-> test unionFindRe (lower code) = true /\ mentions (lower code) "kruskal" = false.
Proof.
  unfold knownMatches.
  match goal with
  | |- context [push_if (fibMention ?c) ?e ?R0] =>
      set (R := push_if (fibMention c) e R0)
  end.
  assert (HR : existsb (fun r => includes (toLowerCase (lit (name r))) (lit "kruskal")) R
               = mentions (lower code) "kruskal").
  { destruct (mentions (lower code) "kruskal") eqn:Ek.
    - apply existsb_exists. exists kruskalEntry. split; [|vm_compute; reflexivity].
      unfold R. do 3 (apply in_push_if; left). apply in_push_if. right. auto.
    - destruct (existsb _ R) eqn:Ee; [|reflexivity].
      apply existsb_exists in Ee as (r & Hr & Hi). exfalso. unfold R in Hr.
      unfold fibEntry in Hr.
      repeat (apply in_push_if in Hr; destruct Hr as [Hr | [Hc Hr]]);
        try (destruct Hr; fail);
        try (subst r; vm_compute in Hi; discriminate Hi);
        try discriminate Hc.
      subst r. destruct (test memoRe (lower code)); vm_compute in Hi; discriminate Hi. }
  rewrite HR. split.
  - intros H.
    apply in_push_if in H. destruct H as [H | [_ H]]; [|discriminate H].
    apply in_push_if in H. destruct H as [H | [_ H]]; [|discriminate H].
    apply in_push_if in H. destruct H as [H | [Hc _]].
    + exfalso. unfold R in H. unfold fibEntry in H.
      repeat (apply in_push_if in H; destruct H as [H | [_ H]]);
        try (destruct H; fail); try discriminate H.
      destruct (test memoRe (lower code)); discriminate H.
    + apply andb_true_iff in Hc as [H1 H2]. split; [exact H1|].
      destruct (mentions (lower code) "kruskal"); [discriminate H2 | reflexivity].
  - intros [H1 H2]. rewrite H1, H2.
    do 2 (apply in_push_if; left). apply in_push_if. right. auto.
Qed.

(** ** What the scans record *)

Lemma exec_loop_Forall (Q : MatchResult -> Prop) (re : regex) (advance : bool) (s : str) :
  (forall li m, exec re s li = Some m -> Q m) ->
  forall fuel li ms, exec_loop advance fuel re s li = Some ms -> Forall Q ms.
Proof.
  intros HQ. induction fuel as [|fuel IH]; intros li ms H; simpl in H; [discriminate|].
  destruct (exec re s li) as [m|] eqn:E.
  - destruct (exec_loop advance fuel re s _) as [ms'|] eqn:E'; [|discriminate].
    inversion H; subst. constructor; eauto.
  - inversion H. constructor.
Qed.

(** A match found by [exec] is a match at its index, where the subject is
    the text from that index on. *)
Lemma exec_scan_at (re : regex) (s : str) :
  forall p i li m,
    exec_scan re p s i li = Some m ->
    exists p',
      match_at re {| prev := p'; rest := skipn (index m - i) s; idx := index m |}
      = Some m
      /\ i <= index m.
Proof.
  induction s as [|x s IH]; intros p i li m H; simpl in H.
  - destruct (li <=? i); [|discriminate].
    destruct (match_at re _) as [m'|] eqn:Em; [|discriminate].
    inversion H; subst.
    assert (Hi : index m = i).
    { unfold match_at in Em. destruct (run re _ [] _) as [[st' cs']|]; [|discriminate].
      inversion Em; reflexivity. }
    exists p. rewrite Hi, Nat.sub_diag. simpl. split; [exact Em | lia].
  - destruct (if li <=? i then match_at re _ else None) as [m'|] eqn:Em.
    + inversion H; subst. destruct (li <=? i); [|discriminate].
      assert (Hi : index m = i).
      { unfold match_at in Em. destruct (run re _ [] _) as [[st' cs']|]; [|discriminate].
        inversion Em; reflexivity. }
      exists p. rewrite Hi, Nat.sub_diag. simpl. split; [exact Em | lia].
    + destruct (IH _ _ _ _ H) as (p' & Hm & Hle).
      exists p'. replace (index m - i) with (S (index m - S i)) by lia.
      simpl. split; [exact Hm | lia].
Qed.

Lemma run_Lit (w : str) :
  forall st cs k o,
    run (Lit w) st cs k = Some o -> starts_with w (rest st) = true.
Proof.
  induction w as [|c w IH]; intros st cs k o H; [reflexivity|].
  assert (Hc : forall k', run (Chr c) st cs k' = Some o ->
               exists t, rest st = c :: t /\ k' (next st c t) cs = Some o).
  { simpl. intros k' Hk. destruct (rest st) as [|x t]; [discriminate|].
    destruct (Ascii.eqb x c) eqn:E; [|discriminate].
    apply Ascii.eqb_eq in E. subst. eauto. }
  destruct w as [|d w].
  - destruct (Hc k H) as (t & -> & _). simpl. rewrite Ascii.eqb_refl. reflexivity.
  - change (run (Chr c) st cs (fun st' cs' => run (Lit (d :: w)) st' cs' k) = Some o) in H.
    destruct (Hc _ H) as (t & E & Hk). rewrite E.
    apply IH in Hk. simpl in Hk. simpl. rewrite Ascii.eqb_refl. exact Hk.
Qed.

(** A pattern that begins with the literal [w] matches only where [w] is. *)
Lemma exec_Lit_at (w : str) (r : regex) (s : str) (li : nat) (m : MatchResult) :
  exec (Seq (Lit w) r) s li = Some m ->
  starts_with w (skipn (index m) s) = true.
Proof.
  unfold exec. intros H.
  destruct (exec_scan_at _ _ _ _ _ _ H) as (p' & Hm & _).
  rewrite Nat.sub_0_r in Hm. unfold match_at in Hm.
  destruct (run _ _ [] _) as [[st' cs']|] eqn:E; [|discriminate].
  change (run (Lit w) {| prev := p'; rest := skipn (index m) s; idx := index m |} []
            (fun st1 cs1 => run r st1 cs1 (fun st2 cs2 => Some (st2, cs2)))
          = Some (st', cs')) in E.
  apply run_Lit in E. exact E.
Qed.

Lemma scanLoops_inv (code : str) (loops : list Loop) :
  scanLoops code = Some loops ->
  exists fs wh rf,
    exec_while forRegex code = Some fs
    /\ exec_while whileRegex code = Some wh
    /\ exec_while rangeForRegex code = Some rf
    /\ loops
       = map (fun m => {| type := TFor; header := group 1 m; pos := index m |}) fs
         ++ map (fun m => {| type := TWhile; header := group 1 m; pos := index m |}) wh
         ++ map (fun m => {| type := TRangeFor; header := whole m; pos := index m |}) rf.
Proof.
  unfold scanLoops. intros H.
  destruct (exec_while forRegex code) as [fs|]; [|discriminate].
  destruct (exec_while whileRegex code) as [wh|]; [|discriminate].
  destruct (exec_while rangeForRegex code) as [rf|]; [|discriminate].
  inversion H. exists fs, wh, rf. split_and!; reflexivity.
Qed.

(** X5: every loop record points at its keyword: the text from [pos] on
    starts with "for" for a for record and a range-for record and with
    "while" for a while record; and the header of a for or while record stops
    before the first closing parenthesis, so that it holds none. *)
Theorem loop_records_well_placed (code : str) (loops : list Loop) (lp : Loop) :
  scanLoops code = Some loops -> In lp loops ->
  starts_with (keyword (type lp)) (skipn (pos lp) code) = true
  /\ (type lp <> TRangeFor -> ~ In ")"%char (header lp)).
Proof.
  intros H Hin.
  destruct (scanLoops_inv code loops H) as (fs & wh & rf & Hf & Hw & Hr & ->).
  set (noparen := fun c : ascii => negb (Ascii.eqb c ")")).
  assert (Hgroup : forall m, caps_in noparen (groups m) -> ~ In ")"%char (group 1 m)).
  { intros m Hc Hi. pose proof (@group_in noparen 1 m Hc) as Hg.
    rewrite forallb_forall in Hg. specialize (Hg _ Hi).
    unfold noparen in Hg. rewrite Ascii.eqb_refl in Hg. discriminate Hg. }
  assert (Qf : Forall (fun m => starts_with (lit "for") (skipn (index m) code) = true
                               /\ caps_in noparen (groups m)) fs).
  { apply (exec_loop_Forall _ forRegex false code) with (2 := Hf).
    intros li m E. split.
    - apply (exec_Lit_at (lit "for") _ code li m E).
    - apply (@exec_inv noparen forRegex eq_refl code li m E). }
  assert (Qw : Forall (fun m => starts_with (lit "while") (skipn (index m) code) = true
                               /\ caps_in noparen (groups m)) wh).
  { apply (exec_loop_Forall _ whileRegex false code) with (2 := Hw).
    intros li m E. split.
    - apply (exec_Lit_at (lit "while") _ code li m E).
    - apply (@exec_inv noparen whileRegex eq_refl code li m E). }
  assert (Qr : Forall (fun m => starts_with (lit "for") (skipn (index m) code) = true) rf).
  { apply (exec_loop_Forall _ rangeForRegex false code) with (2 := Hr).
    intros li m E. apply (exec_Lit_at (lit "for") _ code li m E). }
  rewrite List.Forall_forall in Qf, Qw, Qr.
  apply in_app_or in Hin as [Hin|Hin]; [|apply in_app_or in Hin as [Hin|Hin]];
    apply in_map_iff in Hin as (m & <- & Hm); simpl.
  - destruct (Qf m Hm) as [H1 H2]. split; [exact H1 | intros _; auto].
  - destruct (Qw m Hm) as [H1 H2]. split; [exact H1 | intros _; auto].
  - split; [exact (Qr m Hm) | intros Hn; contradiction].
Qed.

Lemma loop_records_well_placed_witness :
  starts_with (lit "for") (skipn 22 pairs_sample) = true
  /\ ~ In ")"%char (pairs_header "i").
Proof.
  destruct (loop_records_well_placed pairs_sample
              [{| type := TFor; header := pairs_header "i"; pos := 22 |};
               {| type := TFor; header := pairs_header "j"; pos := 61 |}]
              {| type := TFor; header := pairs_header "i"; pos := 22 |})
    as [H1 H2].
  - vm_compute. reflexivity.
  - left. reflexivity.
  - split; [exact H1 | apply H2; discriminate].
Defined.

(** ** The aggregates of the loop analyzer *)

Lemma countAt_countN (m : gmap nat nat) (l : LoopInfo) (d : nat) :
  countAt (countN m l) d
  = countAt m d + (if (is_n (iterKind l) && (depth l =? d))%bool then 1 else 0).
Proof.
  unfold countN, countAt. destruct (is_n (iterKind l)); simpl; [|lia].
  destruct (depth l =? d) eqn:E.
  - apply Nat.eqb_eq in E. subst. rewrite lookup_insert_eq. simpl. lia.
  - apply Nat.eqb_neq in E. rewrite lookup_insert_ne by assumption. lia.
Qed.

Lemma countAt_fold (lis : list LoopInfo) :
  forall m d, countAt (fold_left countN lis m) d = countAt m d + linearAt lis d.
Proof.
  unfold linearAt. induction lis as [|l lis IH]; intros m d; simpl; [lia|].
  rewrite IH, countAt_countN.
  destruct (is_n (iterKind l) && (depth l =? d))%bool; simpl; lia.
Qed.

Lemma countAt_nLoopsAtDepth (lis : list LoopInfo) (d : nat) :
  countAt (nLoopsAtDepth lis) d = linearAt lis d.
Proof.
  unfold nLoopsAtDepth. rewrite countAt_fold. unfold countAt.
  rewrite lookup_empty. reflexivity.
Qed.

Lemma depth_le_fold (lis : list LoopInfo) :
  forall a, a <= fold_left (fun a b => Nat.max a (depth b)) lis a
            /\ forall l, In l lis ->
                 depth l <= fold_left (fun a b => Nat.max a (depth b)) lis a.
Proof.
  induction lis as [|x lis IH]; intros a; simpl.
  - split; [lia | intros l []].
  - destruct (IH (Nat.max a (depth x))) as [H1 H2]. split; [lia|].
    intros l [<-|Hl]; [lia | auto].
Qed.

Lemma linearAt_le_length (lis : list LoopInfo) (d : nat) : linearAt lis d <= length lis.
Proof.
  unfold linearAt. induction lis as [|l lis IH]; simpl; [lia|].
  destruct (is_n (iterKind l) && (depth l =? d))%bool; simpl; lia.
Qed.

Lemma linearAt_beyond (lis : list LoopInfo) (d : nat) :
  (forall l, In l lis -> depth l < d) -> linearAt lis d = 0.
Proof.
  unfold linearAt. induction lis as [|l lis IH]; simpl; intros H; [reflexivity|].
  assert (E : (depth l =? d) = false).
  { apply Nat.eqb_neq. specialize (H l (or_introl eq_refl)). lia. }
  rewrite E, andb_false_r. apply IH. intros x Hx. apply H. right. exact Hx.
Qed.

Lemma maxOver_attained (m : gmap nat nat) (l : list nat) (best : nat) :
  let step := fun best d =>
    if best <? default 0 (m !! d) then default 0 (m !! d) else best in
  fold_left step l best = best \/ exists d, In d l /\ fold_left step l best = countAt m d.
Proof.
  intros step. revert best. induction l as [|x l IH]; intros best; simpl; [auto|].
  destruct (IH (step best x)) as [H|(d & Hd & H)].
  - rewrite H. unfold step, countAt.
    destruct (best <? default 0 (m !! x)); [right; exists x | left]; auto.
  - right. exists d. auto.
Qed.

(** X6: [maxNestedN] is the largest number of linear loops that share one
    brace depth: no depth has more linear loops, and some depth has exactly
    that many.  It counts loops at the same depth, one after the other or
    not; it is at most [loopCount], which is the number of loop records, and
    no record is deeper than [maxDepth]. *)
Theorem maxNestedN_characterized (code : str) (li : LoopsInfo) :
  detectLoopsAndNesting code = Some li ->
  (forall d, linearAt (loopInfos li) d <= maxNestedN li)
  /\ (exists d, maxNestedN li = linearAt (loopInfos li) d)
  /\ maxNestedN li <= loopCount li
  /\ loopCount li = length (loopInfos li)
  /\ (forall l, In l (loopInfos li) -> depth l <= maxDepth li).
Proof.
  intros H.
  destruct (detectLoops_inv code li H) as (loops & _ & _ & Hc & _ & Hmax & Hmd).
  destruct (depth_le_fold (loopInfos li) 0) as [_ Hdepth]. rewrite <- Hmd in Hdepth.
  destruct (maxOver_fold (nLoopsAtDepth (loopInfos li)) (seq 0 (S (maxDepth li))) 0)
    as (_ & Hge & Hle).
  assert (Hall : forall d, linearAt (loopInfos li) d <= maxNestedN li).
  { intros d. destruct (Nat.le_gt_cases d (maxDepth li)) as [Hd|Hd].
    - rewrite Hmax, <- countAt_nLoopsAtDepth. apply Hge. apply in_seq. lia.
    - rewrite linearAt_beyond; [lia|]. intros l Hl. specialize (Hdepth l Hl). lia. }
  assert (Hex : exists d, maxNestedN li = linearAt (loopInfos li) d).
  { destruct (maxOver_attained (nLoopsAtDepth (loopInfos li))
                (seq 0 (S (maxDepth li))) 0) as [H0|(d & _ & Hd)].
    - exists (S (maxDepth li)). rewrite Hmax. unfold maxOver. rewrite H0.
      symmetry. apply linearAt_beyond. intros l Hl. specialize (Hdepth l Hl). lia.
    - exists d. rewrite Hmax. unfold maxOver. rewrite Hd.
      apply countAt_nLoopsAtDepth. }
  split_and!; auto.
  destruct Hex as (d & ->). rewrite Hc. apply linearAt_le_length.
Qed.

Lemma maxNestedN_characterized_witness :
  linearAt [{| li_loop := {| type := TFor; header := lit "int x : arr"; pos := 0 |};
               depth := 0; iterKind := KN |};
            {| li_loop := {| type := TRangeFor; header := lit "for (int x : arr)";
                             pos := 0 |};
               depth := 0; iterKind := KN |}] 0 <= 2.
Proof.
  set (a := {| type := TFor; header := lit "int x : arr"; pos := 0 |}).
  set (b := {| type := TRangeFor; header := lit "for (int x : arr)"; pos := 0 |}).
  set (li := {| loopCount := 2; maxDepth := 0; maxNestedN := 2; logDetected := false;
                loopInfos := [{| li_loop := a; depth := 0; iterKind := KN |};
                              {| li_loop := b; depth := 0; iterKind := KN |}] |}).
  assert (Hl : detectLoopsAndNesting range_for_sample = Some li)
    by (vm_compute; reflexivity).
  exact (proj1 (maxNestedN_characterized range_for_sample li Hl) 0).
Defined.

Lemma hasNested_needs_two_depths (lis : list LoopInfo) (d : nat) :
  (forall l, In l lis -> depth l = d) -> hasNestedSameArrayLoop lis = false.
Proof.
  intros H. unfold hasNestedSameArrayLoop.
  destruct (existsb _ lis) eqn:E; [|reflexivity].
  apply existsb_exists in E as (outer & Ho & E).
  apply existsb_exists in E as (inner & Hi & E).
  rewrite (H outer Ho), (H inner Hi) in E.
  replace (d =? d + 1) with false in E by (symmetry; apply Nat.eqb_neq; lia).
  discriminate E.
Qed.

Lemma linearAt_all (lis : list LoopInfo) (d : nat) :
  (forall l, In l lis -> depth l = d /\ iterKind l = KN) -> linearAt lis d = length lis.
Proof.
  unfold linearAt. induction lis as [|l lis IH]; simpl; intros H; [reflexivity|].
  destruct (H l (or_introl eq_refl)) as [-> ->]. simpl. rewrite Nat.eqb_refl. simpl.
  f_equal. apply IH. intros x Hx. apply H. right. exact Hx.
Qed.

Lemma existsb_none {A : Type} (f : A -> bool) (l : list A) :
  (forall x, In x l -> f x = false) -> existsb f l = false.
Proof.
  intros H. destruct (existsb f l) eqn:E; [|reflexivity].
  apply existsb_exists in E as (x & Hx & Hf). rewrite (H x Hx) in Hf. discriminate Hf.
Qed.

(** X7: loops that follow one another are counted as if they were nested:
    for every input with no known-algorithm match and no recorded recursion
    whose loop records are k >= 2 linear loops, all at the same brace depth,
    the time is "O(n^k)" and the space is "O(n)". *)
Theorem loops_at_one_depth_multiply
    (raw cleaned : str) (li : LoopsInfo) (ri : RecursionInfo) (d : nat) :
  trivial_input raw = false ->
  stripCommentsAndStrings raw = Some cleaned ->
  detectKnownAlgorithms cleaned = None ->
  detectRecursion cleaned = Some ri -> found ri = false ->
  detectLoopsAndNesting cleaned = Some li ->
  (forall l, In l (loopInfos li) -> depth l = d /\ iterKind l = KN) ->
  2 <= loopCount li ->
  exists verdict,
    analyzeComplexity raw = Some verdict
    /\ time verdict = cat ["O(n^"%string; show (loopCount li); ")"%string]
    /\ space verdict = "O(n)"%string.
Proof.
  intros Ht Hs Hk Hr Hf Hl Hall H2.
  destruct (maxNestedN_characterized cleaned li Hl) as (Hge & _ & Hle & Hc & _).
  destruct (detectLoops_inv cleaned li Hl) as (_ & _ & _ & _ & Hlog & _).
  assert (Hn : maxNestedN li = loopCount li).
  { apply Nat.le_antisymm; [exact Hle|].
    rewrite Hc, <- (linearAt_all (loopInfos li) d Hall). apply Hge. }
  assert (Hnolog : logDetected li = false).
  { rewrite Hlog. apply existsb_none. intros l Hin.
    destruct (Hall l Hin) as [_ ->]. reflexivity. }
  assert (Hnest : hasNestedSameArrayLoop (loopInfos li) = false).
  { apply (hasNested_needs_two_depths _ d). intros l Hin. apply (Hall l Hin). }
  rewrite (analyze_structural raw cleaned li ri Ht Hs Hk Hl Hr).
  unfold structuralVerdict, loopTime. rewrite Hf, Hnolog, Hnest, Hn.
  replace (0 <? loopCount li) with true by (symmetry; apply Nat.ltb_lt; lia).
  replace (2 <=? loopCount li) with true by (symmetry; apply Nat.leb_le; lia).
  eexists. split; [reflexivity|]. split; reflexivity.
Qed.

Lemma loops_at_one_depth_multiply_witness :
  exists verdict,
    analyzeComplexity two_loops_in_a_row = Some verdict
    /\ time verdict = "O(n^2)"%string
    /\ space verdict = "O(n)"%string.
Proof.
  set (a := {| li_loop := {| type := TFor; header := lit "i = 0; i < n; i++"; pos := 0 |};
               depth := 0; iterKind := KN |}).
  set (b := {| li_loop := {| type := TFor; header := lit "j = 0; j < n; j++"; pos := 33 |};
               depth := 0; iterKind := KN |}).
  refine (loops_at_one_depth_multiply two_loops_in_a_row two_loops_in_a_row
            {| loopCount := 2; maxDepth := 0; maxNestedN := 2; logDetected := false;
               loopInfos := [a; b] |}
            {| found := false; functions := [] |} 0 _ _ _ _ _ _ _ _);
    try (vm_compute; reflexivity).
  simpl. intros l [<-|[<-|[]]]; split; reflexivity.
Defined.

(** ** More decision rules *)

Lemma mapM_In {A B : Type} (f : A -> option B) (l : list A) :
  forall bs b, mapM f l = Some bs -> In b bs -> exists a, In a l /\ f a = Some b.
Proof.
  induction l as [|a l IH]; simpl; intros bs b H Hb.
  - inversion H; subst. destruct Hb.
  - destruct (f a) as [b0|] eqn:Ea; [|discriminate].
    destruct (mapM f l) as [bs0|]; [|discriminate].
    inversion H; subst. destruct Hb as [<-|Hb].
    + exists a. auto.
    + destruct (IH bs0 b eq_refl Hb) as (a' & Ha' & Hf). exists a'. auto.
Qed.

Lemma headerKind_unknown (hd : str) :
  headerKind hd = KUnknown -> test lengthRe (toLowerCase hd) = false.
Proof.
  unfold headerKind.
  destruct (test logHeaderRe hd); [discriminate|].
  destruct (test colonRe hd); [discriminate|].
  destruct (test lengthRe (toLowerCase hd)); [discriminate | reflexivity].
Qed.

Lemma linearAt_none (lis : list LoopInfo) (d : nat) :
  (forall l, In l lis -> is_n (iterKind l) = false) -> linearAt lis d = 0.
Proof.
  unfold linearAt. induction lis as [|l lis IH]; simpl; intros H; [reflexivity|].
  rewrite (H l (or_introl eq_refl)). simpl. apply IH.
  intros x Hx. apply H. right. exact Hx.
Qed.

(** X8: a loop that no rule classifies still counts as a loop: for every
    input with no known-algorithm match and no recorded recursion, with at
    least one loop record and only unclassified ones, the time is "O(1)",
    with the explanation "No loops or recursion detected (heuristic).", and
    the space is "O(n)". *)
Theorem unclassified_loops_constant_time
    (raw cleaned : str) (li : LoopsInfo) (ri : RecursionInfo) :
  trivial_input raw = false ->
  stripCommentsAndStrings raw = Some cleaned ->
  detectKnownAlgorithms cleaned = None ->
  detectRecursion cleaned = Some ri -> found ri = false ->
  detectLoopsAndNesting cleaned = Some li ->
  1 <= loopCount li ->
  (forall l, In l (loopInfos li) -> iterKind l = KUnknown) ->
  exists verdict,
    analyzeComplexity raw = Some verdict
    /\ time verdict = "O(1)"%string
    /\ timeExplanation verdict = "No loops or recursion detected (heuristic)."%string
    /\ space verdict = "O(n)"%string.
Proof.
  intros Ht Hs Hk Hr Hf Hl H1 Hall.
  destruct (maxNestedN_characterized cleaned li Hl) as (_ & (d & Hd) & _).
  destruct (detectLoops_inv cleaned li Hl) as (loops & _ & Hm & _ & Hlog & _).
  assert (Hn : maxNestedN li = 0).
  { rewrite Hd. apply linearAt_none. intros l Hin. rewrite (Hall l Hin). reflexivity. }
  assert (Hnolog : logDetected li = false).
  { rewrite Hlog. apply existsb_none. intros l Hin. rewrite (Hall l Hin). reflexivity. }
  assert (Hnest : hasNestedSameArrayLoop (loopInfos li) = false).
  { unfold hasNestedSameArrayLoop. apply existsb_none. intros outer Ho.
    apply existsb_none. intros inner Hi.
    destruct (mapM_In _ _ _ outer Hm Ho) as (lp & _ & Hlp).
    destruct (loopInfoOf_inv cleaned lp outer Hlp) as (E & _ & [K|K]).
    - rewrite (Hall outer Ho) in K. discriminate K.
    - rewrite (Hall outer Ho), <- E in K. symmetry in K.
      rewrite (headerKind_unknown _ K), !andb_false_r. reflexivity. }
  rewrite (analyze_structural raw cleaned li ri Ht Hs Hk Hl Hr).
  unfold structuralVerdict, loopTime. rewrite Hf, Hnolog, Hnest, Hn.
  replace (0 <? loopCount li) with true by (symmetry; apply Nat.ltb_lt; lia).
  eexists. split; [reflexivity|]. split_and!; reflexivity.
Qed.

Lemma unclassified_loops_constant_time_witness :
  exists verdict,
    analyzeComplexity endless_loop = Some verdict
    /\ time verdict = "O(1)"%string
    /\ timeExplanation verdict = "No loops or recursion detected (heuristic)."%string
    /\ space verdict = "O(n)"%string.
Proof.
  set (l := {| li_loop := {| type := TWhile; header := lit "true"; pos := 0 |};
               depth := 0; iterKind := KUnknown |}).
  refine (unclassified_loops_constant_time endless_loop endless_loop
            {| loopCount := 1; maxDepth := 0; maxNestedN := 0; logDetected := false;
               loopInfos := [l] |}
            {| found := false; functions := [] |} _ _ _ _ _ _ _ _);
    try (vm_compute; reflexivity).
  simpl. intros x [<-|[]]. reflexivity.
Defined.

(** X9: without a known-algorithm match, the space is "O(1)" exactly when
    the analyzers found neither a loop nor a recursive function, and then the
    time is "O(1)" too; any loop or recursion makes the space linear. *)
Theorem constant_space_iff_no_structure
    (raw cleaned : str) (li : LoopsInfo) (ri : RecursionInfo) :
  trivial_input raw = false ->
  stripCommentsAndStrings raw = Some cleaned ->
  detectKnownAlgorithms cleaned = None ->
  detectLoopsAndNesting cleaned = Some li ->
  detectRecursion cleaned = Some ri ->
  exists verdict,
    analyzeComplexity raw = Some verdict
    /\ (space verdict = "O(1)"%string <-> loopCount li = 0 /\ found ri = false)
    /\ (space verdict = "O(1)"%string -> time verdict = "O(1)"%string)
    /\ (space verdict <> "O(1)"%string ->
        includes (lit (space verdict)) (lit "O(n") = true).
Proof.
  intros Ht Hs Hk Hl Hr.
  rewrite (analyze_structural raw cleaned li ri Ht Hs Hk Hl Hr).
  eexists. split; [reflexivity|].
  unfold structuralVerdict, recursionVerdict.
  destruct (found ri).
  - destruct (existsb _ (functions ri)); [|destruct (0 <? loopCount li)]; simpl;
      (split_and!; [split; [discriminate | intros [_ E]; discriminate E]
                   | discriminate | reflexivity]).
  - destruct (loopCount li) as [|n]; simpl.
    + split_and!; [split; auto | reflexivity | intros E; contradiction].
    + split_and!; [split; [discriminate | intros [E _]; discriminate E]
                  | discriminate | reflexivity].
Qed.

Lemma constant_space_iff_no_structure_witness :
  exists verdict,
    analyzeComplexity (lit "let total = price + tax;") = Some verdict
    /\ space verdict = "O(1)"%string /\ time verdict = "O(1)"%string.
Proof.
  destruct (constant_space_iff_no_structure
              (lit "let total = price + tax;") (lit "let total = price + tax;")
              {| loopCount := 0; maxDepth := 0; maxNestedN := 0; logDetected := false;
                 loopInfos := [] |}
              {| found := false; functions := [] |})
    as (v & Hv & Hiff & Htime & _); try (vm_compute; reflexivity).
  exists v. split; [exact Hv|].
  assert (Hsp : space v = "O(1)"%string) by (apply Hiff; split; reflexivity).
  split; [exact Hsp | exact (Htime Hsp)].
Defined.

(** X10: a function with exactly one self-call in an input that also has
    loops gets the hedged estimate: with no known-algorithm match, at least
    one loop record, and recursion records that all have one self-call, the
    time is "O(n log n) or O(n * (loop cost))" and the space is
    "O(n + additional)". *)
Theorem single_recursion_with_loops
    (raw cleaned : str) (li : LoopsInfo) (ri : RecursionInfo) (f : RecursionRecord) :
  trivial_input raw = false ->
  stripCommentsAndStrings raw = Some cleaned ->
  detectKnownAlgorithms cleaned = None ->
  detectLoopsAndNesting cleaned = Some li -> 1 <= loopCount li ->
  detectRecursion cleaned = Some ri ->
  In f (functions ri) -> (forall g, In g (functions ri) -> calls g = 1) ->
  exists verdict,
    analyzeComplexity raw = Some verdict
    /\ time verdict = "O(n log n) or O(n * (loop cost))"%string
    /\ space verdict = "O(n + additional)"%string
    /\ spaceExplanation verdict = "Recursion stack + container usage."%string.
Proof.
  intros Ht Hs Hk Hl Hn Hr Hin Hone.
  rewrite (analyze_structural raw cleaned li ri Ht Hs Hk Hl Hr).
  unfold structuralVerdict, recursionVerdict.
  rewrite (found_of_member cleaned ri f Hr Hin).
  assert (Hm : existsb (fun f => 1 <? calls f) (functions ri) = false).
  { apply existsb_none. intros g Hg. rewrite (Hone g Hg). reflexivity. }
  rewrite Hm.
  replace (0 <? loopCount li) with true by (symmetry; apply Nat.ltb_lt; lia).
  eexists. split; [reflexivity|]. split_and!; reflexivity.
Qed.

Lemma single_recursion_with_loops_witness :
  exists verdict,
    analyzeComplexity recursion_with_loop = Some verdict
    /\ time verdict = "O(n log n) or O(n * (loop cost))"%string
    /\ space verdict = "O(n + additional)"%string
    /\ spaceExplanation verdict = "Recursion stack + container usage."%string.
Proof.
  refine (single_recursion_with_loops recursion_with_loop recursion_with_loop
            (get noLoops (detectLoopsAndNesting recursion_with_loop))
            (get noRecursion (detectRecursion recursion_with_loop))
            {| rec_name := lit "walk"; calls := 1 |} _ _ _ _ _ _ _ _);
    try (vm_compute; reflexivity).
  - vm_compute. left. reflexivity.
  - vm_compute. intros g [<-|[<-|[]]]; reflexivity.
Defined.

(** ** The recursion analyzer *)

Lemma index_from_none (c : ascii) (s : str) :
  forallb (fun x => negb (Ascii.eqb x c)) s = true ->
  forall i from, index_from c s i from = None.
Proof.
  induction s as [|x s IH]; simpl; intros H i from; [reflexivity|].
  apply andb_true_iff in H as [Hx Hs].
  destruct (Ascii.eqb x c); [discriminate Hx|].
  rewrite andb_false_r. apply IH. exact Hs.
Qed.

Lemma foldM_fixed {A B : Type} (f : A -> B -> option A) (a : A) (l : list B) :
  (forall b, f a b = Some a) -> foldM f a l = Some a.
Proof.
  intros H. induction l as [|b l IH]; simpl; [reflexivity|]. rewrite H. exact IH.
Qed.

(** X11: a function is recorded as recursive only through a brace-delimited
    body: in a text without an opening brace (a Python definition, for
    instance) the recursion analyzer finds nothing, however often a function
    calls itself. *)
Theorem no_brace_no_recursion (code : str) :
  forallb (fun x => negb (Ascii.eqb x "{")) code = true ->
  detectRecursion code = Some {| found := false; functions := [] |}.
Proof.
  intros H. unfold detectRecursion.
  destruct (scanDecls_total code) as (ds & -> & _).
  rewrite foldM_fixed; [reflexivity|].
  intros f. unfold recursionStep, indexOf.
  rewrite (index_from_none "{" code H). reflexivity.
Qed.

Lemma no_brace_no_recursion_witness :
  detectRecursion python_fib_like = Some {| found := false; functions := [] |}.
Proof. apply no_brace_no_recursion. vm_compute. reflexivity. Defined.

Lemma recursionStep_inv (code : str) (f : FnDecl) (r r' : list RecursionRecord) :
  recursionStep code r f = Some r' ->
  r' = r \/ exists n, 1 <= n /\ r' = r ++ [{| rec_name := fn_name f; calls := n |}].
Proof.
  unfold recursionStep. intros H.
  destruct (indexOf code "{" (fn_idx f)) as [open|]; [|inversion H; auto].
  destruct (close_scan _ open 0) as [close|]; [|inversion H; auto].
  destruct (callRe (fn_name f)) as [re|]; [|discriminate].
  destruct (match_all re _) as [ms|]; [|discriminate].
  inversion H; subst. destruct (0 <? length ms) eqn:E; [|auto].
  apply Nat.ltb_lt in E. right. exists (length ms). split; [lia | reflexivity].
Qed.

Lemma foldM_recursion_inv (code : str) (Q : RecursionRecord -> Prop) (ds : list FnDecl) :
  (forall d n, In d ds -> 1 <= n -> Q {| rec_name := fn_name d; calls := n |}) ->
  forall r r', Forall Q r -> foldM (recursionStep code) r ds = Some r' -> Forall Q r'.
Proof.
  induction ds as [|d ds IH]; simpl; intros HQ r r' Hr H.
  - inversion H; subst. exact Hr.
  - destruct (recursionStep code r d) as [r1|] eqn:E; [|discriminate].
    apply IH with (r := r1); auto.
    destruct (recursionStep_inv code d r r1 E) as [->|(n & Hn & ->)]; [exact Hr|].
    apply Forall_app_2; [exact Hr|]. constructor; [|constructor]. apply HQ; auto.
Qed.

(** X12: every record of the recursion analyzer has at least one self-call
    and a name made of word characters, and [found] says whether there is a
    record. *)
Theorem recursion_records_sound (code : str) (ri : RecursionInfo) :
  detectRecursion code = Some ri ->
  found ri = negb (is_empty_list (functions ri))
  /\ forall f, In f (functions ri) ->
       1 <= calls f /\ forallb is_word (rec_name f) = true.
Proof.
  unfold detectRecursion. intros H.
  destruct (scanDecls_total code) as (ds & Hds & Hw). rewrite Hds in H.
  destruct (foldM (recursionStep code) [] ds) as [r|] eqn:E; [|discriminate].
  inversion H; subst; clear H. simpl. split.
  - destruct r; reflexivity.
  - apply List.Forall_forall.
    apply (foldM_recursion_inv code _ ds) with (r := []) (3 := E); [|constructor].
    intros d n Hd Hn. simpl. split; [exact Hn|].
    unfold decls_word in Hw. rewrite List.Forall_forall in Hw. apply Hw, Hd.
Qed.

Lemma recursion_records_sound_witness :
  1 <= calls {| rec_name := lit "f"; calls := 1 |}
  /\ forallb is_word (rec_name {| rec_name := lit "f"; calls := 1 |}) = true.
Proof.
  apply (proj2 (recursion_records_sound one_call_sample
                  {| found := true;
                     functions := [{| rec_name := lit "f"; calls := 1 |};
                                   {| rec_name := lit "f"; calls := 1 |}] |}
                  ltac:(vm_compute; reflexivity))
           {| rec_name := lit "f"; calls := 1 |}).
  left. reflexivity.
Defined.

(** ** Brace matching *)

Lemma scans_agree_inside (s : str) :
  forall i d, (1 <= d)%Z -> balance_scan s i d = close_scan s i d.
Proof.
  induction s as [|c s IH]; intros i d Hd; simpl; [reflexivity|].
  destruct (Ascii.eqb c "{") eqn:Eo.
  - replace (d + 1 =? 0)%Z with false by (symmetry; apply Z.eqb_neq; lia).
    apply IH. lia.
  - destruct (Ascii.eqb c "}") eqn:Ec.
    + destruct (d - 1 =? 0)%Z eqn:E; [reflexivity|].
      apply Z.eqb_neq in E. apply IH. lia.
    + replace (d =? 0)%Z with false by (symmetry; apply Z.eqb_neq; lia).
      apply IH. exact Hd.
Qed.

Lemma index_from_found (c : ascii) (s : str) :
  forall i from j,
    index_from c s i from = Some j ->
    i <= j /\ from <= j /\ exists t, skipn (j - i) s = c :: t.
Proof.
  induction s as [|x s IH]; simpl; intros i from j H; [discriminate|].
  destruct ((from <=? i) && Ascii.eqb x c)%bool eqn:E.
  - inversion H; subst. apply andb_true_iff in E as [E1 E2].
    apply Nat.leb_le in E1. apply Ascii.eqb_eq in E2. subst.
    rewrite Nat.sub_diag. simpl. split_and!; eauto.
  - destruct (IH _ _ _ H) as (H1 & H2 & t & Ht).
    split_and!; try lia. exists t.
    replace (j - i) with (S (j - S i)) by lia. exact Ht.
Qed.

(** X13: the loop analyzer and the recursion analyzer match braces alike:
    from the opening brace that [indexOf] finds, the scan of lines 113-120
    and the scan of lines 202-208 stop at the same closing brace, or both
    find none. *)
Theorem brace_scans_agree (code : str) (p openBracePos : nat) :
  indexOf code "{" p = Some openBracePos ->
  balance_scan (skipn openBracePos code) openBracePos 0
  = close_scan (skipn openBracePos code) openBracePos 0.
Proof.
  unfold indexOf. intros H.
  destruct (index_from_found _ _ _ _ _ H) as (_ & _ & t & Ht).
  rewrite Nat.sub_0_r in Ht. rewrite Ht. simpl.
  apply scans_agree_inside. lia.
Qed.

Lemma brace_scans_agree_witness :
  balance_scan (skipn 14 halving_sample) 14 0 = close_scan (skipn 14 halving_sample) 14 0.
Proof.
  apply (brace_scans_agree halving_sample 0 14). vm_compute. reflexivity.
Defined.

Lemma balanced_scan (b : str) :
  balanced b ->
  forall tl i d, (1 <= d)%Z ->
    balance_scan (b ++ tl) i d = balance_scan tl (i + length b) d.
Proof.
  induction 1 as [|c b Ho Hc Hb IH|b1 b2 H1 IH1 H2 IH2]; intros tl i d Hd.
  - simpl. f_equal. lia.
  - simpl. rewrite Ho, Hc.
    replace (d =? 0)%Z with false by (symmetry; apply Z.eqb_neq; lia).
    rewrite IH by exact Hd. f_equal. lia.
  - simpl.
    replace (d + 1 =? 0)%Z with false by (symmetry; apply Z.eqb_neq; lia).
    rewrite <- app_assoc. rewrite IH1 by lia. simpl.
    replace (d + 1 - 1 =? 0)%Z with false by (symmetry; apply Z.eqb_neq; lia).
    replace (d + 1 - 1)%Z with d by lia.
    rewrite IH2 by exact Hd. f_equal. rewrite length_app. simpl. lia.
Qed.

Lemma index_from_skips (c : ascii) (pre tl : str) :
  forall i from,
    from <= i + length pre ->
    forallb (fun x => negb (Ascii.eqb x c)) (skipn (from - i) pre) = true ->
    index_from c (pre ++ c :: tl) i from = Some (i + length pre).
Proof.
  induction pre as [|x pre IH]; simpl; intros i from Hf Hn.
  - replace (from <=? i) with true by (symmetry; apply Nat.leb_le; lia).
    rewrite Ascii.eqb_refl. simpl. f_equal. lia.
  - assert (E : ((from <=? i) && Ascii.eqb x c)%bool = false).
    { destruct (from <=? i) eqn:El; [|reflexivity]. apply Nat.leb_le in El.
      replace (from - i) with 0 in Hn by lia. simpl in Hn.
      apply andb_true_iff in Hn as [Hx _].
      destruct (Ascii.eqb x c); [discriminate Hx | reflexivity]. }
    rewrite E. rewrite IH.
    + f_equal. lia.
    + lia.
    + destruct (from - i) as [|k] eqn:Ek.
      * replace (from - S i) with 0 by lia. simpl in Hn.
        apply andb_true_iff in Hn as [_ Hn]. exact Hn.
      * replace (from - S i) with k by lia. exact Hn.
Qed.

(** X14: the body of a loop is the text between the first opening brace
    after the loop and the brace that closes it: when there is no opening
    brace between [p] and a block whose inside [b] has matched braces only,
    the body extracted at [p] is [b], whatever follows the block. *)
Theorem loopBody_of_block (pre b post : str) (p : nat) :
  p <= length pre ->
  forallb (fun x => negb (Ascii.eqb x "{")) (skipn p pre) = true ->
  balanced b ->
  loopBody (pre ++ "{"%char :: b ++ "}"%char :: post) p = b.
Proof.
  intros Hp Hpre Hb. unfold loopBody, indexOf.
  rewrite (index_from_skips "{" pre (b ++ "}"%char :: post) 0 p);
    [|simpl; lia | rewrite Nat.sub_0_r; exact Hpre].
  simpl (0 + length pre).
  rewrite skipn_app, Nat.sub_diag, skipn_all. simpl.
  rewrite (balanced_scan b Hb) by lia. simpl.
  unfold slice.
  replace (S (length pre + length b) - (length pre + 1)) with (length b) by lia.
  rewrite skipn_app, skipn_all2 by lia.
  replace (length pre + 1 - length pre) with 1 by lia.
  change (firstn (length b) (b ++ "}"%char :: post) = b).
  rewrite firstn_app, firstn_all, Nat.sub_diag. simpl. apply app_nil_r.
Qed.

Lemma balanced_flat (s : str) :
  forallb (fun c => negb (Ascii.eqb c "{") && negb (Ascii.eqb c "}")) s = true ->
  balanced s.
Proof.
  induction s as [|c s IH]; simpl; intros H; [constructor|].
  apply andb_true_iff in H as [Hc Hs]. apply andb_true_iff in Hc as [Ho Hc].
  apply balanced_char.
  - destruct (Ascii.eqb c "{"); [discriminate Ho | reflexivity].
  - destruct (Ascii.eqb c "}"); [discriminate Hc | reflexivity].
  - apply IH, Hs.
Qed.

Lemma balanced_app (s t : str) : balanced s -> balanced t -> balanced (s ++ t).
Proof.
  intros Hs Ht.
  induction Hs as [|c b Ho Hc Hb IH|b1 b2 H1 IH1 H2 IH2]; simpl.
  - exact Ht.
  - apply balanced_char; assumption.
  - rewrite <- app_assoc. simpl. apply (balanced_block H1 IH2).
Qed.

Lemma loopBody_of_block_witness :
  loopBody loop_with_inner_block 0 = lit " if (odd) { n = n - 1; } n = n / 2; ".
Proof.
  change loop_with_inner_block
    with (lit "while (n > 1) " ++ "{"%char :: lit " if (odd) { n = n - 1; } n = n / 2; "
            ++ "}"%char :: lit " done();").
  apply loopBody_of_block.
  - simpl. lia.
  - vm_compute. reflexivity.
  - change (lit " if (odd) { n = n - 1; } n = n / 2; ")
      with (lit " if (odd) " ++ "{"%char :: lit " n = n - 1; " ++ "}"%char
              :: lit " n = n / 2; ").
    apply balanced_app; [apply balanced_flat; vm_compute; reflexivity|].
    apply balanced_block; apply balanced_flat; vm_compute; reflexivity.
Defined.

(** ** Trivial inputs *)

Lemma trim_start_blank (s : str) : blank_text s -> trim_start s = [].
Proof.
  induction 1 as [|c s Hc Hs IH]; simpl; [reflexivity|]. rewrite Hc. exact IH.
Qed.

Lemma blank_is_trivial (s : str) : blank_text s -> trivial_input s = true.
Proof.
  intros H. unfold trivial_input, trim.
  rewrite (trim_start_blank s H). simpl. apply orb_true_r.
Qed.

(** X15: among the texts of this embedding (code units below 256), the
    verdict "Empty or trivial code." is the verdict of the texts made only
    of TAB, LF, VT, FF, CR, space and no-break space (the empty text among
    them), and of no other such text.  (White space above code unit 255,
    which [trim] removes too, is outside these texts.) *)
Theorem empty_verdict_iff_blank (rawCode : str) :
  analyzeComplexity rawCode = Some emptyVerdict <-> blank_text rawCode.
Proof.
  split.
  - intros H. apply trivial_input_blank.
    destruct (trivial_input rawCode) eqn:Et; [reflexivity|]. exfalso.
    unfold analyzeComplexity in H. rewrite Et in H.
    destruct (stripCommentsAndStrings rawCode) as [cleaned|]; [|discriminate].
    destruct (detectKnownAlgorithms cleaned) as [known|].
    + inversion H.
    + destruct (detectLoopsAndNesting cleaned) as [li|]; [|discriminate].
      destruct (detectRecursion cleaned) as [ri|]; [|discriminate].
      assert (Hd : details (structuralVerdict li ri) = Findings li ri).
      { unfold structuralVerdict, recursionVerdict.
        repeat match goal with |- context [if ?b then _ else _] => destruct b end;
          reflexivity. }
      inversion H as [Hv]. rewrite Hv in Hd. discriminate Hd.
  - intros H. unfold analyzeComplexity. rewrite (blank_is_trivial rawCode H).
    reflexivity.
Qed.

(** ** The page *)

Lemma other_events_keep_result (st : App.State) (e : App.Event) :
  App.is_analyze e = false -> App.result (App.step st e) = App.result st.
Proof.
  destruct e as [|n|val|value]; simpl; intros H; try discriminate H.
  - unfold App.loadSample.
    destruct (n =? 1), (n =? 2), (n =? 3), (n =? 4); reflexivity.
  - destruct val as [[|c v]|]; reflexivity.
  - reflexivity.
Qed.

Lemma no_analysis_keeps_result (evs : list App.Event) :
  forallb (fun e => negb (App.is_analyze e)) evs = true ->
  forall st, App.result (App.run st evs) = App.result st.
Proof.
  unfold App.run. induction evs as [|e evs IH]; simpl; intros H st; [reflexivity|].
  apply andb_true_iff in H as [He Hevs].
  rewrite (IH Hevs). apply other_events_keep_result.
  destruct (App.is_analyze e); [discriminate He | reflexivity].
Qed.

(** X16: a click on Analyze replaces the result by the verdict of the
    editor text at that click when the call of the analyzer returns, and
    leaves the earlier result in place when the call throws; whatever the
    user does before, and whatever edits, sample loads and language changes
    follow, the result pane stays as that click left it.  The selected
    language plays no part. *)
Theorem result_is_of_last_analysis (st : App.State) (before after : list App.Event) :
  forallb (fun e => negb (App.is_analyze e)) after = true ->
  App.result (App.run st (before ++ App.AnalyzeClick :: after))
  = match analyzeComplexity (App.code (App.run st before)) with
    | Some verdict => Some verdict
    | None => App.result (App.run st before)
    end.
Proof.
  intros H.
  assert (E : App.run st (before ++ App.AnalyzeClick :: after)
              = App.run (App.handleCalculate (App.run st before)) after).
  { unfold App.run. rewrite fold_left_app. reflexivity. }
  rewrite E, (no_analysis_keeps_result after H).
  unfold App.handleCalculate.
  destruct (analyzeComplexity (App.code (App.run st before))); reflexivity.
Qed.

Lemma result_is_of_last_analysis_witness :
  App.result (App.run App.initial
                [App.SampleClick 3; App.AnalyzeClick; App.LanguageChange "python";
                 App.EditorChange None])
  = match analyzeComplexity App.SAMPLE_JS_LOG with
    | Some verdict => Some verdict
    | None => None
    end.
Proof.
  exact (result_is_of_last_analysis App.initial [App.SampleClick 3]
           [App.LanguageChange "python"; App.EditorChange None] eq_refl).
Defined.

(** X17: each sample button, followed by a click on Analyze, shows the
    complexity that the button names, from any state of the page: "O(n)" for
    sample 1, "O(n²)" for sample 2, "O(log n)" for sample 3 and "O(2^n)" for
    sample 4; a number that is not one of the four loads nothing. *)
Theorem samples_show_their_complexity (st : App.State) :
  option_map time (App.result (App.handleCalculate (App.loadSample 1 st)))
  = Some "O(n)"%string
  /\ option_map time (App.result (App.handleCalculate (App.loadSample 2 st)))
     = Some "O(n²)"%string
  /\ option_map time (App.result (App.handleCalculate (App.loadSample 3 st)))
     = Some "O(log n)"%string
  /\ option_map time (App.result (App.handleCalculate (App.loadSample 4 st)))
     = Some "O(2^n)"%string
  /\ forall n, n = 0 \/ 5 <= n -> App.loadSample n st = st.
Proof.
  assert (E1 : option_map time (analyzeComplexity App.SAMPLE_JS) = Some "O(n)"%string)
    by (vm_compute; reflexivity).
  assert (E2 : option_map time (analyzeComplexity App.SAMPLE_JS_NESTED)
               = Some "O(n²)"%string) by (vm_compute; reflexivity).
  assert (E3 : option_map time (analyzeComplexity App.SAMPLE_JS_LOG)
               = Some "O(log n)"%string) by (vm_compute; reflexivity).
  assert (E4 : option_map time (analyzeComplexity App.SAMPLE_JS_RECUR)
               = Some "O(2^n)"%string) by (vm_compute; reflexivity).
  assert (C1 : App.code (App.loadSample 1 st) = App.SAMPLE_JS) by reflexivity.
  assert (C2 : App.code (App.loadSample 2 st) = App.SAMPLE_JS_NESTED) by reflexivity.
  assert (C3 : App.code (App.loadSample 3 st) = App.SAMPLE_JS_LOG) by reflexivity.
  assert (C4 : App.code (App.loadSample 4 st) = App.SAMPLE_JS_RECUR) by reflexivity.
  unfold App.handleCalculate. rewrite C1, C2, C3, C4.
  destruct (analyzeComplexity App.SAMPLE_JS); [|discriminate E1].
  destruct (analyzeComplexity App.SAMPLE_JS_NESTED); [|discriminate E2].
  destruct (analyzeComplexity App.SAMPLE_JS_LOG); [|discriminate E3].
  destruct (analyzeComplexity App.SAMPLE_JS_RECUR); [|discriminate E4].
  split_and!; [exact E1 | exact E2 | exact E3 | exact E4 |].
  unfold App.loadSample.
  intros n Hn.
  assert (H1 : (n =? 1) = false) by (apply Nat.eqb_neq; lia).
  assert (H2 : (n =? 2) = false) by (apply Nat.eqb_neq; lia).
  assert (H3 : (n =? 3) = false) by (apply Nat.eqb_neq; lia).
  assert (H4 : (n =? 4) = false) by (apply Nat.eqb_neq; lia).
  rewrite H1, H2, H3, H4. reflexivity.
Qed.

(** ** Texts without an opening parenthesis *)

Lemma caps_in_any (cs : caps) : caps_in any_char cs.
Proof.
  unfold caps_in. induction cs as [|[i w] cs IH]; constructor; [|exact IH].
  simpl. induction w as [|c w IHw]; [reflexivity | exact IHw].
Qed.

Lemma run_needs (c : ascii) (r : regex) :
  needs c r = true -> groups_in any_char r = true ->
  forall st cs k o,
    run r st cs k = Some o ->
    exists st' cs' w, k st' cs' = Some o /\ reaches st st' w /\ In c w.
Proof.
  induction r as [|x|p|a IHa b IHb|a IHa b IHb|g a IHa|i a IHa|i|a IHa| |];
    simpl; intros N G st cs k o H; try discriminate.
  - destruct (rest st) as [|y t] eqn:E; [discriminate|].
    destruct (Ascii.eqb y x) eqn:Eyx; [|discriminate].
    apply Ascii.eqb_eq in Eyx. apply Ascii.eqb_eq in N. subst.
    exists (next st c t), cs, [c]. split_and!; auto.
    + apply (reaches_next st E).
    + left. reflexivity.
  - apply andb_true_iff in G as [Ga Gb]. apply orb_true_iff in N as [N|N].
    + destruct (IHa N Ga _ _ _ _ H) as (st1 & cs1 & w1 & Hk & R1 & I1).
      destruct (@run_inv any_char b Gb st1 cs1 k o (caps_in_any cs1) Hk)
        as (st2 & cs2 & w2 & Hk2 & R2 & _).
      exists st2, cs2, (w1 ++ w2). split_and!; auto.
      * apply (reaches_trans R1 R2).
      * apply in_or_app. left. exact I1.
    + destruct (@run_inv any_char a Ga st cs _ o (caps_in_any cs) H)
        as (st1 & cs1 & w1 & Hk & R1 & _).
      destruct (IHb N Gb _ _ _ _ Hk) as (st2 & cs2 & w2 & Hk2 & R2 & I2).
      exists st2, cs2, (w1 ++ w2). split_and!; auto.
      * apply (reaches_trans R1 R2).
      * apply in_or_app. right. exact I2.
  - apply andb_true_iff in G as [Ga Gb]. apply andb_true_iff in N as [Na Nb].
    destruct (run a st cs k) eqn:E.
    + inversion H; subst. apply (IHa Na Ga _ _ _ _ E).
    + apply (IHb Nb Gb _ _ _ _ H).
  - destruct (IHa N (only_groups_in any_char a G) _ _ _ _ H)
      as (st1 & cs1 & w1 & Hk & R1 & I1).
    eexists st1, _, w1. split_and!; [exact Hk | exact R1 | exact I1].
Qed.

Lemma In_skipn (c : ascii) (n : nat) :
  forall s : str, In c (skipn n s) -> In c s.
Proof.
  induction n as [|n IH]; intros s H; [exact H|].
  destruct s as [|x s]; [destruct H|]. right. apply IH, H.
Qed.

(** A pattern whose every match holds [c] finds nothing in a text without
    [c]. *)
Lemma exec_needs (c : ascii) (re : regex) (s : str) (li : nat) :
  needs c re = true -> groups_in any_char re = true ->
  ~ In c s -> exec re s li = None.
Proof.
  intros N G Hc. destruct (exec re s li) as [m|] eqn:E; [|reflexivity].
  exfalso. unfold exec in E.
  destruct (exec_scan_at _ _ _ _ _ _ E) as (p' & Hm & _).
  unfold match_at in Hm.
  destruct (run re _ [] _) as [[st' cs']|] eqn:Er; [|discriminate].
  destruct (run_needs c re N G _ _ _ _ Er) as (st1 & cs1 & w & _ & [R _] & Hin).
  simpl in R. apply Hc. apply (In_skipn c (index m - 0) s).
  rewrite R. apply in_or_app. left. exact Hin.
Qed.

Lemma exec_while_nothing (c : ascii) (re : regex) (s : str) :
  needs c re = true -> groups_in any_char re = true ->
  ~ In c s -> exec_while re s = Some [].
Proof.
  intros N G Hc. unfold exec_while.
  replace (length s + 2) with (S (length s + 1)) by lia. simpl.
  rewrite (exec_needs c re s 0 N G Hc). reflexivity.
Qed.

(** X18: every loop and every function that the analyzers can find has an
    opening parenthesis: for an input with none outside comments and string
    literals, in which no known-algorithm pattern matches, nothing is
    recorded and the verdict is the default one, time "O(1)" and space
    "O(1)". *)
Theorem no_parenthesis_default_verdict (raw cleaned : str) :
  trivial_input raw = false ->
  stripCommentsAndStrings raw = Some cleaned ->
  ~ In "("%char cleaned ->
  detectKnownAlgorithms cleaned = None ->
  analyzeComplexity raw = Some defaultVerdict.
Proof.
  intros Ht Hs Hc Hk.
  assert (Hl : detectLoopsAndNesting cleaned = Some noLoops).
  { unfold detectLoopsAndNesting, scanLoops.
    rewrite (exec_while_nothing "(" forRegex cleaned eq_refl eq_refl Hc).
    rewrite (exec_while_nothing "(" whileRegex cleaned eq_refl eq_refl Hc).
    rewrite (exec_while_nothing "(" rangeForRegex cleaned eq_refl eq_refl Hc).
    reflexivity. }
  assert (Hr : detectRecursion cleaned = Some noRecursion).
  { unfold detectRecursion, scanDecls.
    rewrite (exec_while_nothing "(" jsFunc cleaned eq_refl eq_refl Hc).
    rewrite (exec_while_nothing "(" pyDef cleaned eq_refl eq_refl Hc).
    rewrite (exec_while_nothing "(" cStyle cleaned eq_refl eq_refl Hc).
    reflexivity. }
  rewrite (analyze_structural raw cleaned noLoops noRecursion Ht Hs Hk Hl Hr).
  reflexivity.
Qed.

Lemma no_parenthesis_default_verdict_witness :
  analyzeComplexity (lit "let total = price + tax; // for (;;)") = Some defaultVerdict.
Proof.
  apply (no_parenthesis_default_verdict
           (lit "let total = price + tax; // for (;;)")
           (lit "let total = price + tax;  ")).
  - vm_compute. reflexivity.
  - vm_compute. reflexivity.
  - vm_compute. intuition discriminate.
  - vm_compute. reflexivity.
Defined.

(** ** Texts without braces *)

Lemma count_char_none (c : ascii) (s : str) :
  forallb (fun x => negb (Ascii.eqb x c)) s = true -> forall n, count_char c (firstn n s) = 0.
Proof.
  unfold count_char. induction s as [|x s IH]; intros H n.
  - destruct n; reflexivity.
  - simpl in H. apply andb_true_iff in H as [Hx Hs]. destruct n; [reflexivity|].
    simpl. rewrite Ascii.eqb_sym.
    destruct (Ascii.eqb x c); [discriminate Hx|]. apply IH, Hs.
Qed.

(** X19: in a text without an opening brace (Python code, or loops without
    blocks) every loop record has depth 0, so every linear loop counts
    toward the same depth: [maxNestedN] is the number of linear loops of the
    text, nested or not. *)
Theorem no_brace_counts_every_linear_loop (code : str) (li : LoopsInfo) :
  forallb (fun x => negb (Ascii.eqb x "{")) code = true ->
  detectLoopsAndNesting code = Some li ->
  (forall l, In l (loopInfos li) -> depth l = 0)
  /\ maxDepth li = 0
  /\ maxNestedN li = length (List.filter (fun l => is_n (iterKind l)) (loopInfos li)).
Proof.
  intros Hb Hl.
  destruct (detectLoops_inv code li Hl) as (loops & _ & Hm & _ & _ & _ & Hmd).
  destruct (maxNestedN_characterized code li Hl) as (Hge & (d & Hd) & _).
  assert (Hz : forall l, In l (loopInfos li) -> depth l = 0).
  { intros l Hin. destruct (mapM_In _ _ _ l Hm Hin) as (lp & _ & Hlp).
    destruct (loopInfoOf_inv code lp l Hlp) as (_ & -> & _).
    unfold depthAt, slice. simpl skipn.
    rewrite (count_char_none "{" code Hb). reflexivity. }
  assert (H0 : linearAt (loopInfos li) 0
               = length (List.filter (fun l => is_n (iterKind l)) (loopInfos li))).
  { unfold linearAt. clear -Hz. induction (loopInfos li) as [|l lis IH]; [reflexivity|].
    simpl. rewrite (Hz l (or_introl eq_refl)). simpl. rewrite andb_true_r.
    destruct (is_n (iterKind l)); simpl; rewrite IH; auto;
      intros x Hx; apply Hz; right; exact Hx. }
  split_and!.
  - exact Hz.
  - rewrite Hmd. clear -Hz. revert Hz.
    induction (loopInfos li) as [|l lis IH]; intros Hz; [reflexivity|].
    simpl. rewrite (Hz l (or_introl eq_refl)). simpl. apply IH.
    intros x Hx. apply Hz. right. exact Hx.
  - rewrite <- H0. destruct d as [|d]; [exact Hd|].
    apply Nat.le_antisymm; [|apply Hge].
    rewrite Hd, linearAt_beyond; [lia|].
    intros l Hin. rewrite (Hz l Hin). lia.
Qed.

Lemma no_brace_counts_every_linear_loop_witness :
  maxNestedN (get noLoops (detectLoopsAndNesting python_two_loops))
  = length (List.filter (fun l => is_n (iterKind l))
              (loopInfos (get noLoops (detectLoopsAndNesting python_two_loops)))).
Proof.
  apply (no_brace_counts_every_linear_loop python_two_loops
           (get noLoops (detectLoopsAndNesting python_two_loops)));
    vm_compute; reflexivity.
Defined.

(** * Returned bounds, pattern objects and texts of a given shape *)

(** ** The bounds returned for a Fibonacci mention *)

(** When no earlier entry of the catalog matches, a Fibonacci mention makes
    the Fibonacci entry the first of the list. *)
Lemma fib_first (code : str) :
  beforeFibonacci code = false ->
  fibMention (lower code) = true ->
  hd_error (knownMatches code) = Some (fibEntry (lower code)).
Proof.
  unfold beforeFibonacci, beforeDijkstra. intros H Hf.
  repeat (apply orb_false_elim in H; destruct H as [H ?]).
  unfold knownMatches.
  repeat match goal with
  | E : ?c = false |- context [?c] => rewrite E
  end.
  rewrite Hf. cbn [push_if app orb andb].
  repeat match goal with
  | |- hd_error (push_if _ _ (_ :: _)) = _ => apply push_if_head
  | |- context [push_if ?b ?e (?x :: ?l)] => rewrite (push_if_cons b e x l)
  end.
Qed.

(** C9 (amended): when the lower-cased text has a Fibonacci mention (the
    pattern of line 46), the matcher returns a verdict, and its matches list
    exactly one of the two Fibonacci entries: the memoized one when the
    memoization pattern of line 47 matches, the naive one otherwise.  When,
    moreover, no catalog entry scanned before the Fibonacci one matches, that
    entry is the first match and the matcher returns its bounds: time O(n)
    and space O(n) for the memoized one, time O(2^n) and space O(n) for the
    naive one. *)
Theorem fibonacci_bounds_when_first_match (code : str) :
  fibMention (lower code) = true ->
  exists known,
    detectKnownAlgorithms code = Some known
    /\ In (name (fibEntry (lower code))) (kv_matches known)
    /\ (if test memoRe (lower code)
        then In memoFib (knownMatches code) /\ ~ In naiveFib (knownMatches code)
        else In naiveFib (knownMatches code) /\ ~ In memoFib (knownMatches code))
    /\ (beforeFibonacci code = false ->
        if test memoRe (lower code)
        then hd_error (kv_matches known) = Some "Memoized Fibonacci (DP)"%string
             /\ kv_time known = "O(n)"%string /\ kv_space known = "O(n)"%string
        else hd_error (kv_matches known) = Some "Naive Recursive Fibonacci"%string
             /\ kv_time known = "O(2^n)"%string /\ kv_space known = "O(n)"%string).
Proof.
  intros H. pose proof (fib_in_matches code H) as Hin.
  unfold detectKnownAlgorithms.
  destruct (knownMatches code) as [|p l] eqn:E; [destruct Hin|].
  eexists. split; [reflexivity|]. cbn [kv_matches kv_time kv_space].
  split; [apply (in_map name) in Hin; exact Hin|]. split.
  - unfold fibEntry in Hin.
    destruct (test memoRe (lower code)) eqn:Em; (split; [exact Hin|]);
      intros Hn; rewrite <- E in Hn; apply other_fib_not_in_matches in Hn; auto;
      unfold fibEntry in Hn; rewrite Em in Hn; discriminate Hn.
  - intros Hb. pose proof (fib_first code Hb H) as Hh.
    rewrite E in Hh. simpl in Hh. inversion Hh; subst p.
    unfold fibEntry. destruct (test memoRe (lower code)); simpl; auto.
Qed.

Lemma fibonacci_bounds_when_first_match_witness :
  fibMention (lower memo_fib_sample) = true
  /\ beforeFibonacci memo_fib_sample = false
  /\ exists known,
       detectKnownAlgorithms memo_fib_sample = Some known
       /\ kv_time known = "O(n)"%string /\ kv_space known = "O(n)"%string.
Proof.
  assert (H : fibMention (lower memo_fib_sample) = true) by (vm_compute; reflexivity).
  assert (Hb : beforeFibonacci memo_fib_sample = false) by (vm_compute; reflexivity).
  split; [exact H|]. split; [exact Hb|].
  destruct (fibonacci_bounds_when_first_match memo_fib_sample H)
    as (known & Hk & _ & _ & Hfirst).
  exists known. split; [exact Hk|].
  specialize (Hfirst Hb).
  change (test memoRe (lower memo_fib_sample)) with true in Hfirst.
  destruct Hfirst as (_ & Ht & Hs). split; assumption.
Defined.

(** C9 (as stated) fails: this text calls [fib(] and has no memoization
    keyword, yet the matcher returns the bounds of Binary Search, the first
    match; the naive Fibonacci entry is only listed among the matches. *)
Lemma fib_after_binary_search_counterexample :
  fibMention (lower fib_after_binary_search) = true
  /\ test memoRe (lower fib_after_binary_search) = false
  /\ option_map kv_time (detectKnownAlgorithms fib_after_binary_search)
     = Some "O(log n)"%string
  /\ option_map kv_space (detectKnownAlgorithms fib_after_binary_search)
     = Some "O(1)"%string
  /\ option_map kv_time (detectKnownAlgorithms fib_after_binary_search)
     <> Some "O(2^n)"%string
  /\ option_map kv_matches (detectKnownAlgorithms fib_after_binary_search)
     = Some ["Binary Search"; "Naive Recursive Fibonacci"]%string.
Proof. vm_compute. split_and!; try reflexivity. discriminate. Qed.

(** ** Calls in a store of pattern objects *)

Lemma lastIndexOf_alloc (h : Heap) : lastIndexOf (h ++ [0]) (length h) = 0.
Proof. unfold lastIndexOf. rewrite nth_middle. reflexivity. Qed.

Lemma lastIndexOf_app (h h' : Heap) (r : RegExpRef) :
  r < length h -> lastIndexOf (h ++ h') r = lastIndexOf h r.
Proof. intros H. unfold lastIndexOf. apply app_nth1. exact H. Qed.

Lemma setLastIndex_length (r : RegExpRef) (v : nat) (h : Heap) :
  length (setLastIndex r v h) = length h.
Proof.
  unfold setLastIndex. revert r. induction h as [|x h IH]; intros [|r]; simpl; auto.
Qed.

Lemma lastIndexOf_set (r : RegExpRef) (v : nat) (h : Heap) :
  r < length h -> lastIndexOf (setLastIndex r v h) r = v.
Proof.
  unfold setLastIndex, lastIndexOf. revert r.
  induction h as [|x h IH]; intros [|r] H; simpl in *; try lia; auto.
  apply IH. lia.
Qed.

Lemma lastIndexOf_set_other (r r' : RegExpRef) (v : nat) (h : Heap) :
  r' <> r -> lastIndexOf (setLastIndex r v h) r' = lastIndexOf h r'.
Proof.
  unfold setLastIndex, lastIndexOf. revert r r'.
  induction h as [|x h IH]; intros [|r] [|r'] H; simpl in *; try congruence; auto.
Qed.

(** The loop over the object [r] reads the [lastIndex] of [r] only, and
    leaves the other objects as they are. *)
Lemma while_exec_spec (re : regex) (r : RegExpRef) (s : str) (fuel : nat) (h : Heap) :
  r < length h ->
  fst (while_exec fuel re r s h) = exec_loop false fuel re s (lastIndexOf h r)
  /\ length (snd (while_exec fuel re r s h)) = length h
  /\ forall r', r' <> r ->
       lastIndexOf (snd (while_exec fuel re r s h)) r' = lastIndexOf h r'.
Proof.
  revert h. induction fuel as [|fuel IH]; intros h Hr; simpl.
  - auto.
  - unfold exec_obj. destruct (exec re s (lastIndexOf h r)) as [m|] eqn:E.
    + assert (Hr' : r < length (setLastIndex r (stop m) h))
        by (rewrite setLastIndex_length; exact Hr).
      destruct (IH _ Hr') as (H1 & H2 & H3).
      rewrite (lastIndexOf_set r (stop m) h Hr) in H1.
      destruct (while_exec fuel re r s (setLastIndex r (stop m) h)) as [[ms|] h'];
        simpl in *; rewrite <- H1; (split; [reflexivity|]);
        (split; [rewrite H2; apply setLastIndex_length|]);
        intros r' Hne; rewrite (H3 r' Hne); apply lastIndexOf_set_other; exact Hne.
    + simpl. split; [reflexivity|]. split; [apply setLastIndex_length|].
      intros r' Hne. apply lastIndexOf_set_other. exact Hne.
Qed.

(** A loop over an object that still has the [lastIndex] 0 of its creation
    is the scan from the start of the text. *)
Lemma while_exec_fresh (re : regex) (r : RegExpRef) (s : str) (h : Heap) :
  r < length h -> lastIndexOf h r = 0 ->
  fst (while_exec (length s + 2) re r s h) = exec_while re s.
Proof.
  intros Hr H0. destruct (while_exec_spec re r s (length s + 2) h Hr) as (H & _).
  rewrite H, H0. reflexivity.
Qed.

Lemma scanLoops_in_spec (code : str) (h : Heap) :
  fst (scanLoops_in code h) = scanLoops code.
Proof.
  unfold scanLoops_in, scanLoops, alloc.
  set (h3 := (h ++ [0]) ++ [0]) in *. set (h4 := h3 ++ [0]).
  assert (L3 : length h3 = S (S (length h)))
    by (unfold h3; rewrite !length_app; simpl; lia).
  assert (L4 : length h4 = S (S (S (length h))))
    by (unfold h4; rewrite length_app, L3; simpl; lia).
  assert (Z1 : lastIndexOf h4 (length h) = 0).
  { unfold h4. rewrite (lastIndexOf_app h3 [0]) by lia.
    unfold h3. rewrite (lastIndexOf_app (h ++ [0]) [0]) by (rewrite length_app; simpl; lia).
    apply lastIndexOf_alloc. }
  assert (Z2 : lastIndexOf h4 (length (h ++ [0])) = 0).
  { unfold h4. rewrite (lastIndexOf_app h3 [0]) by (rewrite length_app; simpl; lia).
    apply lastIndexOf_alloc. }
  assert (Z3 : lastIndexOf h4 (length h3) = 0) by apply lastIndexOf_alloc.
  assert (L2 : length (h ++ [0]) = S (length h)) by (rewrite length_app; simpl; lia).
  rewrite L2, L3 in *.
  pose proof (while_exec_spec forRegex (length h) code (length code + 2) h4
                ltac:(lia)) as (F1 & F2 & F3).
  rewrite Z1 in F1. fold (exec_while forRegex code) in F1.
  destruct (while_exec (length code + 2) forRegex (length h) code h4) as [o1 h5].
  simpl in F1, F2, F3. rewrite <- F1. destruct o1 as [fs|]; [|reflexivity].
  pose proof (while_exec_spec whileRegex (S (length h)) code (length code + 2) h5
                ltac:(lia)) as (W1 & W2 & W3).
  rewrite (F3 (S (length h)) ltac:(lia)), Z2 in W1.
  fold (exec_while whileRegex code) in W1.
  destruct (while_exec (length code + 2) whileRegex (S (length h)) code h5) as [o2 h6].
  simpl in W1, W2, W3. rewrite <- W1. destruct o2 as [wh|]; [|reflexivity].
  pose proof (while_exec_spec rangeForRegex (S (S (length h))) code (length code + 2) h6
                ltac:(lia)) as (R1 & _).
  rewrite (W3 (S (S (length h))) ltac:(lia)), (F3 (S (S (length h))) ltac:(lia)), Z3 in R1.
  fold (exec_while rangeForRegex code) in R1.
  destruct (while_exec (length code + 2) rangeForRegex (S (S (length h))) code h6)
    as [o3 h7].
  simpl in R1. rewrite <- R1. destruct o3; reflexivity.
Qed.

Lemma detectLoopsAndNesting_in_spec (code : str) (h : Heap) :
  fst (detectLoopsAndNesting_in code h) = detectLoopsAndNesting code.
Proof.
  unfold detectLoopsAndNesting_in, detectLoopsAndNesting.
  rewrite <- (scanLoops_in_spec code h).
  destruct (scanLoops_in code h) as [[loops|] h']; reflexivity.
Qed.

Lemma while_exec_new (re : regex) (s : str) (h : Heap) :
  fst (while_exec (length s + 2) re (length h) s (h ++ [0])) = exec_while re s.
Proof.
  apply while_exec_fresh; [rewrite length_app; simpl; lia | apply lastIndexOf_alloc].
Qed.

(** The store is not idle: a loop over an object that an earlier loop left
    in the middle of the text resumes there, and misses the first match. *)
Remark while_exec_resumes :
  option_map (map index) (fst (while_exec 17 forRegex 0 (lit "for (a) for (b)") [4]))
  = Some [8]
  /\ option_map (map index) (exec_while forRegex (lit "for (a) for (b)")) = Some [0; 8].
Proof. vm_compute. split; reflexivity. Qed.

Lemma scanDecls_in_spec (code : str) (h : Heap) :
  fst (scanDecls_in code h) = scanDecls code.
Proof.
  unfold scanDecls_in, scanDecls, alloc.
  pose proof (while_exec_new jsFunc code h) as J.
  destruct (while_exec (length code + 2) jsFunc (length h) code (h ++ [0])) as [o1 h1].
  simpl in J. rewrite <- J. destruct o1 as [js|]; [|reflexivity].
  pose proof (while_exec_new pyDef code h1) as P.
  destruct (while_exec (length code + 2) pyDef (length h1) code (h1 ++ [0])) as [o2 h2].
  simpl in P. rewrite <- P. destruct o2 as [py|]; [|reflexivity].
  pose proof (while_exec_new cStyle code h2) as C.
  destruct (while_exec (length code + 2) cStyle (length h2) code (h2 ++ [0])) as [o3 h3].
  simpl in C. rewrite <- C. destruct o3; reflexivity.
Qed.

Lemma detectRecursion_in_spec (code : str) (h : Heap) :
  fst (detectRecursion_in code h) = detectRecursion code.
Proof.
  unfold detectRecursion_in, detectRecursion.
  rewrite <- (scanDecls_in_spec code h).
  destruct (scanDecls_in code h) as [[decls|] h']; reflexivity.
Qed.

(** The outcome of a call does not depend on the store in which it starts:
    it is the one of the analyzer applied to the text. *)
Lemma analyzeComplexity_in_spec (rawCode : str) (h : Heap) :
  fst (analyzeComplexity_in rawCode h) = analyzeComplexity rawCode.
Proof.
  unfold analyzeComplexity_in, analyzeComplexity.
  destruct (trivial_input rawCode); [reflexivity|].
  destruct (stripCommentsAndStrings rawCode) as [cleaned|]; [|reflexivity].
  destruct (detectKnownAlgorithms cleaned) as [known|]; [reflexivity|].
  rewrite <- (detectLoopsAndNesting_in_spec cleaned h).
  destruct (detectLoopsAndNesting_in cleaned h) as [[loopsInfo|] h1]; [|reflexivity].
  simpl. rewrite <- (detectRecursion_in_spec cleaned h1).
  destruct (detectRecursion_in cleaned h1) as [[recursionInfo|] h2]; reflexivity.
Qed.

(** C2: a call of the analyzer runs its six [exec] loops on pattern objects
    that it makes itself, so its outcome does not depend on the store of
    pattern objects it starts in.  Two calls on the same text, the second in
    the store left by the first, or in any two stores, have the same
    outcome: the same verdict, equal in its five fields, or (were a call to
    throw) no verdict both times. *)
Theorem analyzeComplexity_deterministic (rawCode : str) (h : Heap) :
  let first := analyzeComplexity_in rawCode h in
  let second := analyzeComplexity_in rawCode (snd first) in
  fst second = fst first
  /\ (forall h', fst (analyzeComplexity_in rawCode h') = fst first)
  /\ forall a b, fst first = Some a -> fst second = Some b ->
       time a = time b /\ timeExplanation a = timeExplanation b
       /\ space a = space b /\ spaceExplanation a = spaceExplanation b
       /\ details a = details b.
Proof.
  cbv zeta. rewrite !analyzeComplexity_in_spec. split; [reflexivity|].
  split; [intros h'; apply analyzeComplexity_in_spec|].
  intros a b Ha Hb. rewrite Ha in Hb. inversion Hb; subst. split_and!; reflexivity.
Qed.

Lemma analyzeComplexity_deterministic_witness :
  fst (analyzeComplexity_in two_calls_sample
         (snd (analyzeComplexity_in two_calls_sample [7; 3])))
  = fst (analyzeComplexity_in two_calls_sample [7; 3])
  /\ fst (analyzeComplexity_in two_calls_sample [])
     = fst (analyzeComplexity_in two_calls_sample [7; 3]).
Proof.
  split.
  - exact (proj1 (analyzeComplexity_deterministic two_calls_sample [7; 3])).
  - exact (proj1 (proj2 (analyzeComplexity_deterministic two_calls_sample [7; 3])) []).
Defined.

(** ** Matches that are found: the matcher followed along a text *)

Lemma rest_adv (w : str) :
  forall st t, rest st = w ++ t -> rest (adv st w) = t.
Proof.
  induction w as [|x w IH]; intros st t H; simpl in *; [exact H|].
  apply IH. simpl. rewrite H. reflexivity.
Qed.

Lemma idx_adv (w : str) : forall st, idx (adv st w) = idx st + length w.
Proof.
  induction w as [|x w IH]; intros st; simpl; [lia|]. rewrite IH. simpl. lia.
Qed.

Lemma prev_adv (w : str) : forall st, prev (adv st w) = prev_after (prev st) w.
Proof. induction w as [|x w IH]; intros st; simpl; [reflexivity|]. apply IH. Qed.

Lemma adv_app (a b : str) : forall st, adv st (a ++ b) = adv (adv st a) b.
Proof. induction a as [|x a IH]; intros st; simpl; [reflexivity|]. apply IH. Qed.

Lemma prev_after_app (a b : str) :
  forall p, prev_after p (a ++ b) = prev_after (prev_after p a) b.
Proof. induction a as [|x a IH]; intros p; simpl; [reflexivity|]. apply IH. Qed.

Section Forward.

Variables (st : cursor) (cs : caps) (k : cursor -> caps -> outcome) (o : cursor * caps).

Lemma fwd_seq (a b : regex) :
  run a st cs (fun st' cs' => run b st' cs' k) = Some o ->
  run (Seq a b) st cs k = Some o.
Proof. intros H. exact H. Qed.

Lemma fwd_group (i : nat) (a : regex) :
  run a st cs (fun st' cs' => k st' ((i, firstn (idx st' - idx st) (rest st)) :: cs'))
  = Some o ->
  run (Group i a) st cs k = Some o.
Proof. intros H. exact H. Qed.

Lemma fwd_eps : k st cs = Some o -> run Eps st cs k = Some o.
Proof. intros H. exact H. Qed.

Lemma fwd_chr (c : ascii) (t : str) :
  rest st = c :: t -> k (adv st [c]) cs = Some o -> run (Chr c) st cs k = Some o.
Proof.
  intros H K. simpl in *. rewrite H in *. rewrite Ascii.eqb_refl. exact K.
Qed.

Lemma fwd_cls (p : ascii -> bool) (x : ascii) (t : str) :
  rest st = x :: t -> p x = true -> k (adv st [x]) cs = Some o ->
  run (Cls p) st cs k = Some o.
Proof.
  intros H Hp K. simpl in *. rewrite H in *. rewrite Hp. exact K.
Qed.

Lemma fwd_wordb :
  xorb (word_at (prev st)) (word_at (hd_error (rest st))) = true ->
  k st cs = Some o -> run WordB st cs k = Some o.
Proof. intros H K. simpl. rewrite H. exact K. Qed.

End Forward.

Lemma fwd_lit (w : str) :
  forall st cs k o t,
    rest st = w ++ t -> k (adv st w) cs = Some o -> run (Lit w) st cs k = Some o.
Proof.
  induction w as [|x w IH]; intros st cs k o t H K; [exact K|].
  destruct w as [|y w].
  - apply (fwd_chr st cs k o x t H K).
  - change (run (Chr x) st cs (fun st' cs' => run (Lit (y :: w)) st' cs' k) = Some o).
    apply (fwd_chr st cs _ o x ((y :: w) ++ t) H).
    apply (IH _ cs k o t).
    + simpl. rewrite H. reflexivity.
    + exact K.
Qed.

(** A greedy star over a class takes a whole run of the class when the rest
    of the pattern matches after it. *)
Lemma fwd_star_iter (p : ascii -> bool) (k : cursor -> caps -> outcome)
    (cs : caps) (o : cursor * caps) (t : str) (w : str) :
  forall st n,
    rest st = w ++ t -> forallb p w = true -> stops p t = true ->
    length w < n ->
    k (adv st w) cs = Some o ->
    star_iter (run (Cls p)) true k n st cs = Some o.
Proof.
  induction w as [|x w IH]; intros st n H Hw Ht Hn K.
  - destruct n as [|n]; [simpl in Hn; lia|]. simpl in *.
    rewrite H. destruct t as [|y t]; [exact K|].
    simpl in Ht. apply negb_true_iff in Ht. rewrite Ht. exact K.
  - destruct n as [|n]; [simpl in Hn; lia|].
    simpl in Hw. apply andb_prop in Hw as [Hx Hw].
    cbn [star_iter].
    match goal with
    | |- match ?a with Some _ => _ | None => _ end = _ => assert (M : a = Some o)
    end.
    { apply (fwd_cls st cs _ o p x (w ++ t) H Hx).
      assert (L : (idx st <? idx (adv st [x])) = true)
        by (apply Nat.ltb_lt; simpl; lia).
      rewrite L. apply IH; auto.
      - simpl. rewrite H. reflexivity.
      - simpl in Hn. lia. }
    rewrite M. reflexivity.
Qed.

Lemma fwd_star (p : ascii -> bool) (st : cursor) (cs : caps)
    (k : cursor -> caps -> outcome) (o : cursor * caps) (w t : str) :
  rest st = w ++ t -> forallb p w = true -> stops p t = true ->
  k (adv st w) cs = Some o ->
  run (Star true (Cls p)) st cs k = Some o.
Proof.
  intros H Hw Ht K. cbn [run].
  apply (fwd_star_iter p k cs o t w); auto.
  rewrite H, length_app. lia.
Qed.

(** ** Where [exec] finds its match *)

Lemma exec_scan_hit (re : regex) (p : option ascii) (s : str) (i li : nat)
    (m : MatchResult) :
  li <= i -> match_at re {| prev := p; rest := s; idx := i |} = Some m ->
  exec_scan re p s i li = Some m.
Proof.
  intros Hl H. apply Nat.leb_le in Hl.
  destruct s; simpl; rewrite Hl, H; reflexivity.
Qed.

(** Offsets at which the pattern does not match are passed over. *)
Lemma exec_scan_skip (re : regex) (tl : str) (li : nat) (pre : str) :
  forall p i,
    (forall p' q, q < length pre ->
       match_at re {| prev := p'; rest := skipn q (pre ++ tl); idx := i + q |} = None) ->
    exec_scan re p (pre ++ tl) i li = exec_scan re (prev_after p pre) tl (i + length pre) li.
Proof.
  induction pre as [|x pre IH]; intros p i H.
  - simpl. rewrite Nat.add_0_r. reflexivity.
  - cbn [app exec_scan].
    pose proof (H p 0 ltac:(simpl; lia)) as H0. rewrite Nat.add_0_r in H0.
    simpl skipn in H0. rewrite H0.
    destruct (li <=? i); cbn [prev_after length];
      (rewrite IH; [f_equal; lia|]);
      intros p' q Hq; specialize (H p' (S q) ltac:(simpl; lia));
      simpl skipn in H; replace (S i + q) with (i + S q) by lia; exact H.
Qed.

(** A match at a later offset is not missed: [exec] returns a match that
    starts there or before. *)
Lemma exec_scan_reach (re : regex) (tl : str) (li : nat) (m0 : MatchResult) (pre : str) :
  forall p i,
    li <= i + length pre ->
    match_at re {| prev := prev_after p pre; rest := tl; idx := i + length pre |}
    = Some m0 ->
    exists m, exec_scan re p (pre ++ tl) i li = Some m /\ index m <= i + length pre.
Proof.
  induction pre as [|x pre IH]; intros p i Hl H.
  - simpl in *. rewrite Nat.add_0_r in *. exists m0.
    split; [apply exec_scan_hit; auto|].
    unfold match_at in H.
    destruct (run re _ [] _) as [[st' cs']|]; [|discriminate].
    inversion H; subst. simpl. lia.
  - cbn [app exec_scan].
    destruct (if li <=? i then match_at re {| prev := p; rest := x :: pre ++ tl; idx := i |}
              else None) as [m|] eqn:E.
    + exists m. split; [reflexivity|].
      destruct (li <=? i); [|discriminate].
      unfold match_at in E.
      destruct (run re _ [] _) as [[st' cs']|]; [|discriminate].
      inversion E; subst. simpl. lia.
    + simpl in Hl, H. destruct (IH (Some x) (S i)) as (m & Hm & Hi).
      * lia.
      * replace (S i + length pre) with (i + S (length pre)) by lia. exact H.
      * exists m. split; [exact Hm|]. simpl. lia.
Qed.

Ltac fwd_rest :=
  repeat apply rest_adv; first [eassumption | simpl; first [eassumption | reflexivity]].

Lemma firstn_adv (st : cursor) (w t : str) :
  rest st = w ++ t -> firstn (idx (adv st w) - idx st) (rest st) = w.
Proof.
  intros H. rewrite idx_adv, H.
  replace (idx st + length w - idx st) with (length w + 0) by lia.
  rewrite firstn_app_2. simpl. apply app_nil_r.
Qed.



Lemma match_at_of_run (re : regex) (st st' : cursor) (cs' : caps) :
  run re st [] (fun a b => Some (a, b)) = Some (st', cs') ->
  match_at re st
  = Some {| index := idx st; stop := idx st';
            whole := firstn (idx st' - idx st) (rest st); groups := cs' |}.
Proof. intros H. unfold match_at. rewrite H. reflexivity. Qed.



(** ** Texts in which a keyword occurs once *)

Lemma occurrences_spec (w s : str) :
  forall i q, q <= length s -> starts_with w (skipn q s) = true ->
    In (i + q) (occurrences w s i).
Proof.
  induction s as [|x s IH]; intros i q Hq H.
  - simpl in Hq. assert (q = 0) by lia. subst q. simpl in *.
    rewrite H, Nat.add_0_r. left. reflexivity.
  - destruct q as [|q].
    + cbn [occurrences skipn] in *. rewrite H, Nat.add_0_r. left. reflexivity.
    + cbn [occurrences]. apply in_or_app. right.
      replace (i + S q) with (S i + q) by lia.
      apply IH; [simpl in Hq; lia | exact H].
Qed.

Lemma match_at_Lit (w : str) (r : regex) (st : cursor) (m : MatchResult) :
  match_at (Seq (Lit w) r) st = Some m -> starts_with w (rest st) = true.
Proof.
  unfold match_at. intros H.
  destruct (run (Seq (Lit w) r) st [] _) as [o|] eqn:E; [|discriminate].
  apply (run_Lit w _ _ _ _ E).
Qed.

Section OneOccurrence.

Variables (w : str) (r : regex).
Hypothesis G : groups_in any_char (Seq (Lit w) r) = true.
Hypothesis N : 1 <= min_len (Seq (Lit w) r).

Lemma exec_at_occurrence (s : str) (li : nat) (m : MatchResult) :
  exec (Seq (Lit w) r) s li = Some m -> In (index m) (occurrences w s 0).
Proof.
  intros E. pose proof (exec_Lit_at w r s li m E) as Hs.
  destruct (@exec_inv any_char (Seq (Lit w) r) G s li m E) as (H1 & H2 & H3 & _).
  apply (occurrences_spec w s 0 (index m)); [lia | exact Hs].
Qed.

(** A pattern that begins with a literal has no match in a text without
    that literal. *)
Lemma exec_while_absent (s : str) :
  occurrences w s 0 = [] -> exec_while (Seq (Lit w) r) s = Some [].
Proof.
  intros H. unfold exec_while. replace (length s + 2) with (S (S (length s))) by lia.
  cbn [exec_loop].
  destruct (exec (Seq (Lit w) r) s 0) as [m|] eqn:E; [|reflexivity].
  apply exec_at_occurrence in E. rewrite H in E. destruct E.
Qed.

(** In a text with one occurrence of the literal, at which the pattern
    matches, the loop over [exec] finds that match and no other. *)
Lemma exec_while_single (pre tl : str) (m0 : MatchResult) :
  occurrences w (pre ++ tl) 0 = [length pre] ->
  match_at (Seq (Lit w) r) {| prev := prev_after None pre; rest := tl; idx := length pre |}
  = Some m0 ->
  exec_while (Seq (Lit w) r) (pre ++ tl) = Some [m0].
Proof.
  intros H M. unfold exec_while.
  replace (length (pre ++ tl) + 2) with (S (S (length (pre ++ tl)))) by lia.
  assert (E0 : exec (Seq (Lit w) r) (pre ++ tl) 0 = Some m0).
  { unfold exec. rewrite exec_scan_skip.
    - apply exec_scan_hit; [lia | exact M].
    - intros p' q Hq.
      destruct (match_at (Seq (Lit w) r)
                  {| prev := p'; rest := skipn q (pre ++ tl); idx := 0 + q |})
        as [m|] eqn:E; [|reflexivity].
      apply match_at_Lit in E. simpl in E.
      pose proof (occurrences_spec w (pre ++ tl) 0 q
                    ltac:(rewrite length_app; lia) E) as Hin.
      rewrite H in Hin. simpl in Hin. lia. }
  cbn [exec_loop]. rewrite E0. cbn [andb].
  destruct (exec (Seq (Lit w) r) (pre ++ tl) (stop m0)) as [m|] eqn:E1; [|reflexivity].
  pose proof (exec_at_occurrence _ _ _ E1) as Hin. rewrite H in Hin.
  destruct (@exec_inv any_char _ G _ _ _ E1) as (H1 & _).
  destruct (@exec_inv any_char _ G _ _ _ E0) as (_ & H2 & _).
  destruct (@match_at_inv any_char _ G _ _ M) as (H3 & _). simpl in H3, Hin. lia.
Qed.

End OneOccurrence.






(** ** Function declarations that are found *)

Lemma ident_not_space (c : ascii) : is_ident_start c = true -> is_space c = false.
Proof.
  intros H. apply negb_true_iff.
  apply (@cls_within_sound (fun x => negb (is_space x)) is_ident_start c eq_refl H).
Qed.

Lemma ident_is_word (c : ascii) : is_ident_start c = true -> is_word c = true.
Proof. apply (@cls_within_sound is_word is_ident_start c eq_refl). Qed.

Lemma space_not_word (c : ascii) : is_space c = true -> is_word c = false.
Proof.
  intros H. apply negb_true_iff.
  apply (@cls_within_sound (fun x => negb (is_word x)) is_space c eq_refl H).
Qed.

Lemma stops_run (p q : ascii -> bool) (b : str) (c : ascii) (t : str) :
  (forall x, q x = true -> p x = false) -> forallb q b = true -> p c = false ->
  stops p (b ++ c :: t) = true.
Proof.
  intros Hq Hb Hc. destruct b as [|x b]; simpl in *.
  - rewrite Hc. reflexivity.
  - apply andb_prop in Hb as [Hx _]. rewrite (Hq x Hx). reflexivity.
Qed.

(** The pattern of line 187 at a declaration. *)
Lemma jsFunc_at (p : option ascii) (i : nat) (sp1 name sp2 tl : str) :
  sp1 <> [] -> forallb is_space sp1 = true -> ident name = true ->
  forallb is_space sp2 = true ->
  exists m,
    match_at jsFunc
      {| prev := p; rest := lit "function" ++ sp1 ++ name ++ sp2 ++ "("%char :: tl;
         idx := i |}
    = Some m
    /\ index m = i /\ group 1 m = name.
Proof.
  intros Hne Hsp1 Hname Hsp2.
  destruct sp1 as [|s0 sp1]; [congruence|]. clear Hne.
  destruct name as [|c v]; [discriminate|].
  simpl in Hsp1, Hname. apply andb_prop in Hsp1 as [Hs0 Hsp1].
  apply andb_prop in Hname as [Hc Hv].
  set (st := {| prev := p;
                rest := lit "function" ++ (s0 :: sp1) ++ (c :: v) ++ sp2 ++ "("%char :: tl;
                idx := i |}).
  assert (H : rest st = lit "function" ++ [s0] ++ sp1 ++ [c] ++ v ++ sp2
                        ++ ["("%char] ++ tl) by reflexivity.
  assert (R : exists st' cs',
             run jsFunc st [] (fun a b => Some (a, b)) = Some (st', cs')
             /\ cap_get 1 cs' = Some (c :: v)).
  { eexists _, _. split.
    - unfold jsFunc, L, ws1, ws, Plus, Ident, IdStart, Word, Space. cbn [seqs].
      apply fwd_seq. eapply fwd_lit; [exact H|]. cbv beta.
      apply fwd_seq. apply fwd_seq. eapply fwd_cls; [fwd_rest | exact Hs0|]. cbv beta.
      eapply fwd_star; [fwd_rest | exact Hsp1 | |].
      { simpl. rewrite (ident_not_space c Hc). reflexivity. }
      cbv beta.
      apply fwd_seq. apply fwd_group.
      apply fwd_seq. eapply fwd_cls; [fwd_rest | exact Hc|]. cbv beta.
      eapply fwd_star; [fwd_rest | exact Hv | |].
      { apply (stops_run is_word is_space);
          [exact space_not_word | exact Hsp2 | reflexivity]. }
      cbv beta.
      apply fwd_seq. eapply fwd_star; [fwd_rest | exact Hsp2 | reflexivity|]. cbv beta.
      eapply fwd_chr; [fwd_rest|]. reflexivity.
    - cbn [cap_get Nat.eqb]. f_equal. rewrite <- adv_app.
      apply (firstn_adv _ ([c] ++ v) (sp2 ++ ["("%char] ++ tl)).
      rewrite <- app_assoc. fwd_rest. }
  destruct R as (st' & cs' & R & Gr).
  eexists. split; [apply (match_at_of_run _ _ _ _ R)|].
  split; [reflexivity|]. unfold group. simpl. rewrite Gr. reflexivity.
Qed.

Lemma occurrences_first (w s : str) :
  forall i n q,
    hd_error (occurrences w s i) = Some n -> q <= length s ->
    starts_with w (skipn q s) = true -> n <= i + q.
Proof.
  induction s as [|x s IH]; intros i n q Hn Hq H.
  - simpl in Hq. assert (q = 0) by lia. subst q. simpl in *.
    rewrite H in Hn. simpl in Hn. inversion Hn. lia.
  - cbn [occurrences] in Hn. destruct (starts_with w (x :: s)) eqn:E.
    + simpl in Hn. inversion Hn. lia.
    + simpl in Hn. destruct q as [|q]; [simpl in H; congruence|].
      simpl in Hq, H. specialize (IH (S i) n q Hn ltac:(lia) H). lia.
Qed.

Lemma skipn_length_app (a b : str) : skipn (length a) (a ++ b) = b.
Proof. induction a; simpl; auto. Qed.

(** The first occurrence of the literal a pattern begins with, when the
    pattern matches there, is the first match. *)
Lemma exec_first (w : str) (r : regex) (pre tl : str) (m0 : MatchResult) :
  hd_error (occurrences w (pre ++ tl) 0) = Some (length pre) ->
  match_at (Seq (Lit w) r) {| prev := prev_after None pre; rest := tl; idx := length pre |}
  = Some m0 ->
  exec (Seq (Lit w) r) (pre ++ tl) 0 = Some m0.
Proof.
  intros H M. unfold exec. rewrite exec_scan_skip.
  - apply exec_scan_hit; [lia | exact M].
  - intros p' q Hq.
    destruct (match_at (Seq (Lit w) r)
                {| prev := p'; rest := skipn q (pre ++ tl); idx := 0 + q |})
      as [m|] eqn:E; [|reflexivity].
    apply match_at_Lit in E. simpl in E.
    pose proof (occurrences_first w (pre ++ tl) 0 (length pre) q H
                  ltac:(rewrite length_app; lia) E). lia.
Qed.

(** Lines 187 and 188: the first declaration found is the one at the first
    [function] keyword. *)
Lemma scanDecls_first (pre sp1 name sp2 tl : str) :
  sp1 <> [] -> forallb is_space sp1 = true -> ident name = true ->
  forallb is_space sp2 = true ->
  hd_error (occurrences (lit "function")
              (pre ++ lit "function" ++ sp1 ++ name ++ sp2 ++ "("%char :: tl) 0)
  = Some (length pre) ->
  exists ds,
    scanDecls (pre ++ lit "function" ++ sp1 ++ name ++ sp2 ++ "("%char :: tl)
    = Some ({| fn_name := name; fn_idx := length pre |} :: ds)
    /\ decls_word ds.
Proof.
  intros Hne Hsp1 Hname Hsp2 Hocc.
  destruct (jsFunc_at (prev_after None pre) (length pre) sp1 name sp2 tl
              Hne Hsp1 Hname Hsp2) as (m0 & M & I0 & G0).
  set (T := pre ++ lit "function" ++ sp1 ++ name ++ sp2 ++ "("%char :: tl) in *.
  pose (tailJ := seqs [ws1; Group 1 Ident; ws; Chr "("]).
  change jsFunc with (Seq (Lit (lit "function")) tailJ) in M.
  pose proof (exec_first (lit "function") tailJ pre _ m0 Hocc M) as E0.
  fold T in E0.
  destruct (scanDecls_total T) as (ds & E & W).
  unfold scanDecls in E |- *.
  change jsFunc with (Seq (Lit (lit "function")) tailJ) in E |- *.
  destruct (exec_while (Seq (Lit (lit "function")) tailJ) T) as [js|] eqn:J;
    [|discriminate].
  unfold exec_while in J. replace (length T + 2) with (S (S (length T))) in J by lia.
  cbn [exec_loop] in J. rewrite E0 in J. cbn [andb] in J.
  match type of J with
  | match ?x with Some _ => _ | None => _ end = _ =>
      destruct x as [js'|]; [|discriminate]
  end.
  inversion J; subst js. clear J.
  destruct (exec_while pyDef T) as [py|]; [|discriminate].
  destruct (exec_while cStyle T) as [cs|]; [|discriminate].
  inversion E; subst ds. cbn [map app] in *. rewrite G0, I0 in *.
  eexists. split; [reflexivity|].
  unfold decls_word in *. inversion W; assumption.
Qed.

Lemma forallb_weaken (p q : ascii -> bool) (s : str) :
  (forall x, q x = true -> p x = true) -> forallb q s = true -> forallb p s = true.
Proof.
  intros H Hs. apply forallb_forall. intros x Hx.
  rewrite forallb_forall in Hs. auto.
Qed.

Lemma ident_word (name : str) : ident name = true -> forallb is_word name = true.
Proof.
  destruct name as [|c v]; [discriminate|]. simpl. intros H.
  apply andb_prop in H as [Hc Hv]. rewrite (ident_is_word c Hc). exact Hv.
Qed.

Lemma function_head_no_brace (sp1 name sp2 sig : str) :
  forallb is_space sp1 = true -> ident name = true -> forallb is_space sp2 = true ->
  forallb (not_char "{") sig = true ->
  forallb (not_char "{") (function_head sp1 name sp2 sig) = true.
Proof.
  intros H1 Hn H2 Hs. unfold function_head.
  assert (S : forall s, forallb is_space s = true -> forallb (not_char "{") s = true).
  { intros s. apply forallb_weaken. intros x.
    apply (@cls_within_sound (not_char "{") is_space x eq_refl). }
  assert (W : forall s, forallb is_word s = true -> forallb (not_char "{") s = true).
  { intros s. apply forallb_weaken. intros x.
    apply (@cls_within_sound (not_char "{") is_word x eq_refl). }
  rewrite !forallb_app. cbn [forallb].
  rewrite (S _ H1), (S _ H2), (W _ (ident_word _ Hn)), Hs. reflexivity.
Qed.

(** Lines 198 to 209 at a declaration: the opening brace, its closing brace
    and the body between them. *)
Lemma function_body (pre sp1 name sp2 sig body post : str) (from : nat) :
  forallb (not_char "{") (skipn from (pre ++ function_head sp1 name sp2 sig)) = true ->
  from <= length (pre ++ function_head sp1 name sp2 sig) ->
  balanced body ->
  indexOf (function_text pre sp1 name sp2 sig body post) "{" from
  = Some (length (pre ++ function_head sp1 name sp2 sig))
  /\ close_scan
       (skipn (length (pre ++ function_head sp1 name sp2 sig))
          (function_text pre sp1 name sp2 sig body post))
       (length (pre ++ function_head sp1 name sp2 sig)) 0
     = Some (S (length (pre ++ function_head sp1 name sp2 sig)) + length body)
  /\ slice (function_text pre sp1 name sp2 sig body post)
       (length (pre ++ function_head sp1 name sp2 sig) + 1)
       (S (length (pre ++ function_head sp1 name sp2 sig)) + length body)
     = body.
Proof.
  intros Hno Hfrom Hb.
  set (X := pre ++ function_head sp1 name sp2 sig) in *.
  assert (ET : function_text pre sp1 name sp2 sig body post
               = X ++ "{"%char :: body ++ "}"%char :: post).
  { unfold function_text, X. rewrite <- app_assoc. reflexivity. }
  rewrite ET. split_and!.
  - unfold indexOf.
    rewrite (index_from_skips "{" X (body ++ "}"%char :: post) 0 from); auto.
    rewrite Nat.sub_0_r. exact Hno.
  - rewrite skipn_length_app. cbn [close_scan]. simpl Ascii.eqb. cbv iota.
    rewrite <- scans_agree_inside by lia.
    rewrite (balanced_scan body Hb) by lia.
    simpl. first [reflexivity | f_equal; lia].
  - unfold slice.
    replace (X ++ "{"%char :: body ++ "}"%char :: post)
      with ((X ++ ["{"%char]) ++ body ++ "}"%char :: post)
      by (rewrite <- app_assoc; reflexivity).
    replace (length X + 1) with (length (X ++ ["{"%char]))
      by (rewrite length_app; reflexivity).
    rewrite skipn_length_app.
    replace (S (length X) + length body - length (X ++ ["{"%char]))
      with (length body + 0) by (rewrite length_app; simpl; lia).
    rewrite firstn_app_2. simpl. apply app_nil_r.
Qed.

Lemma recursionStep_at (code : str) (r : list RecursionRecord) (f : FnDecl)
    (open : nat) (body : str) :
  indexOf code "{" (fn_idx f) = Some open ->
  close_scan (skipn open code) open 0 = Some (S open + length body) ->
  slice code (open + 1) (S open + length body) = body ->
  recursionStep code r f
  = do re <- callRe (fn_name f);
    do ms <- match_all re body;
    Some (if 0 <? length ms
          then r ++ [{| rec_name := fn_name f; calls := length ms |}]
          else r).
Proof.
  intros H1 H2 H3. unfold recursionStep. rewrite H1, H2, H3. reflexivity.
Qed.

(** ** Call sites that are counted *)

Lemma callRe_word (fname : str) :
  forallb is_word fname = true -> callRe fname = Some (callPattern fname).
Proof. intros H. unfold callRe. simpl. rewrite H. reflexivity. Qed.

Lemma callRe_inv (fname : str) (re : regex) :
  callRe fname = Some re -> re = callPattern fname /\ forallb is_word fname = true.
Proof.
  unfold callRe. simpl. destruct (forallb is_word fname); [|discriminate].
  intros H. inversion H. auto.
Qed.

Lemma only_Lit (P : ascii -> bool) (w : str) :
  forallb P w = true -> only P (Lit w) = true.
Proof.
  induction w as [|c [|d w] IH]; simpl; intros H; auto.
  - rewrite andb_true_r in H. exact H.
  - apply andb_prop in H as [-> H]. simpl in IH. rewrite (IH H). reflexivity.
Qed.

(** The call pattern at a call site. *)
Lemma callPattern_at (p : option ascii) (i : nat) (fname tl : str) :
  word_at p = false -> fname <> [] -> forallb is_word fname = true ->
  exists m,
    match_at (callPattern fname)
      {| prev := p; rest := fname ++ "("%char :: tl; idx := i |} = Some m
    /\ index m = i.
Proof.
  intros Hp Hne Hw.
  set (st := {| prev := p; rest := fname ++ "("%char :: tl; idx := i |}).
  assert (H : rest st = fname ++ [] ++ ["("%char] ++ tl) by reflexivity.
  assert (R : exists st' cs',
             run (callPattern fname) st [] (fun a b => Some (a, b)) = Some (st', cs')).
  { eexists _, _. unfold callPattern, ws, Space.
    apply fwd_seq. apply fwd_wordb.
    { simpl. rewrite Hp. destruct fname as [|c v]; [congruence|].
      simpl in *. apply andb_prop in Hw as [-> _]. reflexivity. }
    apply fwd_seq. eapply fwd_lit; [exact H|]. cbv beta.
    apply fwd_seq. eapply fwd_star; [fwd_rest | reflexivity | reflexivity|]. cbv beta.
    apply fwd_seq. eapply fwd_chr; [fwd_rest|]. cbv beta.
    apply fwd_eps. reflexivity. }
  destruct R as (st' & cs' & R).
  eexists. split; [apply (match_at_of_run _ _ _ _ R)|]. reflexivity.
Qed.

(** A match of the call pattern ends with the first opening parenthesis at
    or after its start. *)
Lemma callPattern_shape (fname : str) (st : cursor) (m : MatchResult) :
  forallb is_word fname = true ->
  match_at (callPattern fname) st = Some m ->
  exists w tl,
    rest st = w ++ "("%char :: tl /\ forallb (not_char "(") w = true
    /\ stop m = idx st + length w + 1.
Proof.
  intros Hw H. unfold match_at in H.
  destruct (run (callPattern fname) st [] (fun st' cs' => Some (st', cs')))
    as [[st' cs']|] eqn:E; [|discriminate].
  inversion H; subst m; clear H. cbn [stop].
  change (run (Seq WordB (Seq (Lit fname) ws)) st []
            (fun st1 cs1 => run (Seq (Chr "(") Eps) st1 cs1 (fun a b => Some (a, b)))
          = Some (st', cs')) in E.
  assert (Hn : forallb (not_char "(") fname = true).
  { revert Hw. apply forallb_weaken. intros x.
    apply (@cls_within_sound (not_char "(") is_word x eq_refl). }
  apply (@run_inv (not_char "(")) in E.
  - destruct E as (st1 & cs1 & w & K & (R1 & R2) & _ & _ & O).
    simpl in K. destruct (rest st1) as [|x t] eqn:E1; [discriminate|].
    destruct (Ascii.eqb_spec x "("); [subst x | discriminate].
    inversion K; subst st' cs'. clear K.
    exists w, t. split_and!.
    + exact R1.
    + apply O. simpl. rewrite (only_Lit _ _ Hn). reflexivity.
    + simpl. lia.
  - simpl. rewrite Lit_groups_in. reflexivity.
  - constructor.
Qed.

Lemma nth_error_middle (a : str) (c : ascii) (b : str) :
  nth_error (a ++ c :: b) (length a) = Some c.
Proof. induction a; simpl; auto. Qed.

Lemma not_char_nth (c : ascii) (w : str) (q : nat) :
  forallb (not_char c) w = true -> nth_error w q <> Some c.
Proof.
  intros H E. apply nth_error_In in E. rewrite forallb_forall in H.
  specialize (H c E). unfold not_char in H. rewrite Ascii.eqb_refl in H. discriminate.
Qed.

(** The first [c] at or after [i] comes before every later [c]. *)
Lemma first_char_bound (c : ascii) (s w tl : str) (i q : nat) :
  skipn i s = w ++ c :: tl -> forallb (not_char c) w = true ->
  nth_error s q = Some c -> i <= q -> i + length w <= q.
Proof.
  intros Hs Hw Hq Hi.
  destruct (Nat.lt_ge_cases (q - i) (length w)) as [Hlt|]; [|lia].
  exfalso. apply (not_char_nth c w (q - i) Hw).
  rewrite <- (nth_error_app1 w (c :: tl)) by exact Hlt.
  rewrite <- Hs, nth_error_skipn. replace (i + (q - i)) with q by lia. exact Hq.
Qed.

Lemma unique_char_pos (c : ascii) (a b : str) (q : nat) :
  forallb (not_char c) a = true -> forallb (not_char c) b = true ->
  nth_error (a ++ c :: b) q = Some c -> q = length a.
Proof.
  intros Ha Hb H.
  destruct (Nat.lt_trichotomy q (length a)) as [Hlt|[->|Hgt]]; [|reflexivity|]; exfalso.
  - rewrite nth_error_app1 in H by exact Hlt. exact (not_char_nth c a q Ha H).
  - rewrite nth_error_app2 in H by lia.
    destruct (q - length a) as [|n] eqn:E; [lia|]. simpl in H.
    exact (not_char_nth c b n Hb H).
Qed.

Lemma callPattern_groups (fname : str) : groups_in any_char (callPattern fname) = true.
Proof. simpl. rewrite Lit_groups_in. reflexivity. Qed.

(** Where a match of the call pattern found by [exec] ends. *)
Lemma exec_callPattern (fname s : str) (li : nat) (m : MatchResult) :
  forallb is_word fname = true ->
  exec (callPattern fname) s li = Some m ->
  exists w tl,
    skipn (index m) s = w ++ "("%char :: tl /\ forallb (not_char "(") w = true
    /\ stop m = index m + length w + 1.
Proof.
  intros Hw E. unfold exec in E.
  destruct (exec_scan_at _ _ _ _ _ _ E) as (p' & M & _).
  rewrite Nat.sub_0_r in M.
  destruct (callPattern_shape fname _ m Hw M) as (w & tl & H1 & H2 & H3).
  exists w, tl. auto.
Qed.

(** Lines 212 and 213: two call sites in a body are two matches at
    least. *)
Lemma two_call_sites_counted (fname b0 b1 b2 : str) :
  fname <> [] -> forallb is_word fname = true ->
  word_at (prev_after None b0) = false ->
  word_at (prev_after (Some "("%char) b1) = false ->
  exists ms,
    match_all (callPattern fname)
      (b0 ++ fname ++ "("%char :: b1 ++ fname ++ "("%char :: b2) = Some ms
    /\ 2 <= length ms.
Proof.
  intros Hne Hw H0 H1.
  set (body := b0 ++ fname ++ "("%char :: b1 ++ fname ++ "("%char :: b2).
  destruct (@match_all_total any_char (callPattern fname) (callPattern_groups fname) body)
    as (ms & E & _).
  exists ms. split; [exact E|].
  unfold match_all in E. replace (length body + 2) with (S (S (length body))) in E by lia.
  destruct (callPattern_at (prev_after None b0) (0 + length b0) fname
              (b1 ++ fname ++ "("%char :: b2) H0 Hne Hw) as (ma & Ma & _).
  destruct (exec_scan_reach (callPattern fname) _ 0 ma b0 None 0 ltac:(lia) Ma)
    as (m1 & E1 & I1).
  fold body in E1. change (exec (callPattern fname) body 0 = Some m1) in E1.
  destruct (exec_callPattern fname body 0 m1 Hw E1) as (w & tl & S1 & S2 & S3).
  assert (Q : nth_error body (length (b0 ++ fname)) = Some "("%char).
  { unfold body. rewrite app_assoc. apply nth_error_middle. }
  pose proof (first_char_bound "(" body w tl (index m1) _ S1 S2 Q
                ltac:(rewrite length_app; simpl in I1; lia)) as B1.
  rewrite length_app in B1.
  set (pre2 := b0 ++ fname ++ "("%char :: b1).
  assert (P2 : prev_after None pre2 = prev_after (Some "("%char) b1).
  { unfold pre2. rewrite !prev_after_app. reflexivity. }
  destruct (callPattern_at (prev_after None pre2) (0 + length pre2) fname b2
              ltac:(rewrite P2; exact H1) Hne Hw) as (mb & Mb & _).
  assert (L2 : length pre2 = length b0 + length fname + 1 + length b1).
  { unfold pre2. rewrite !length_app. simpl. lia. }
  destruct (exec_scan_reach (callPattern fname) _ (stop m1) mb pre2 None 0
              ltac:(lia) Mb) as (m2 & E2 & _).
  replace (pre2 ++ fname ++ "("%char :: b2) with body in E2
    by (unfold pre2, body; rewrite <- !app_assoc; reflexivity).
  change (exec (callPattern fname) body (stop m1) = Some m2) in E2.
  cbn [exec_loop] in E. rewrite E1 in E.
  replace (stop m1 =? index m1) with false in E
    by (symmetry; apply Nat.eqb_neq; lia).
  cbn [andb] in E. rewrite E2 in E.
  match type of E with
  | match match ?x with Some _ => _ | None => _ end with Some _ => _ | None => _ end = _ =>
      destruct x as [ms'|]; [|discriminate]
  end.
  inversion E. simpl. lia.
Qed.

Lemma foldM_recursion_prefix (code : str) (ds : list FnDecl) :
  forall r r', foldM (recursionStep code) r ds = Some r' -> exists x, r' = r ++ x.
Proof.
  induction ds as [|d ds IH]; simpl; intros r r' H.
  - inversion H. exists []. rewrite app_nil_r. reflexivity.
  - destruct (recursionStep code r d) as [a|] eqn:E; [|discriminate].
    destruct (IH _ _ H) as (x & ->).
    destruct (recursionStep_inv code d r a E) as [->|(n & _ & ->)].
    + exists x. reflexivity.
    + eexists. rewrite <- app_assoc. reflexivity.
Qed.

Lemma function_text_split (pre sp1 name sp2 sig body post : str) :
  function_text pre sp1 name sp2 sig body post
  = pre ++ lit "function" ++ sp1 ++ name ++ sp2
    ++ "("%char :: (sig ++ "{"%char :: body ++ "}"%char :: post).
Proof.
  unfold function_text, function_head. rewrite <- !app_assoc. reflexivity.
Qed.

Lemma function_text_nontrivial (raw pre sp1 name sp2 sig body post : str) :
  stripCommentsAndStrings raw = Some (function_text pre sp1 name sp2 sig body post) ->
  trivial_input raw = false.
Proof.
  intros Hs. apply (nontrivial_of_nonblank raw _ "f" Hs); [|reflexivity].
  unfold lower, toLowerCase. change "f"%char with (lower_char "f").
  apply in_map. rewrite function_text_split.
  apply in_or_app. right. left. reflexivity.
Qed.

(** Lines 196 to 215 on a declaration with two call sites in its body: the
    recursion analyzer records the function with two calls or more. *)
Lemma detectRecursion_two_calls (pre sp1 name sp2 sig b0 b1 b2 post : str) :
  hd_error (occurrences (lit "function")
              (function_text pre sp1 name sp2 sig (two_calls_body name b0 b1 b2) post) 0)
  = Some (length pre) ->
  sp1 <> [] -> forallb is_space sp1 = true -> ident name = true ->
  forallb is_space sp2 = true -> forallb (not_char "{") sig = true ->
  balanced (two_calls_body name b0 b1 b2) ->
  word_at (prev_after None b0) = false ->
  word_at (prev_after (Some "("%char) b1) = false ->
  exists ri n,
    detectRecursion
      (function_text pre sp1 name sp2 sig (two_calls_body name b0 b1 b2) post) = Some ri
    /\ In {| rec_name := name; calls := n |} (functions ri) /\ 2 <= n.
Proof.
  intros Hocc Hne Hsp1 Hname Hsp2 Hsig Hbal Hb0 Hb1.
  set (body := two_calls_body name b0 b1 b2) in *.
  set (T := function_text pre sp1 name sp2 sig body post) in *.
  pose proof (ident_word name Hname) as Hw.
  assert (Hnn : name <> []) by (destruct name; [discriminate | congruence]).
  destruct (scanDecls_first pre sp1 name sp2 (sig ++ "{"%char :: body ++ "}"%char :: post)
              Hne Hsp1 Hname Hsp2) as (ds & Hds & Wds).
  { rewrite <- function_text_split. exact Hocc. }
  rewrite <- function_text_split in Hds. fold T in Hds.
  destruct (function_body pre sp1 name sp2 sig body post (length pre)) as (O1 & O2 & O3).
  { rewrite skipn_length_app. apply function_head_no_brace; assumption. }
  { rewrite length_app. lia. }
  { exact Hbal. }
  fold T in O1, O2, O3.
  destruct (two_call_sites_counted name b0 b1 b2 Hnn Hw Hb0 Hb1) as (ms & Hms & Hlen).
  assert (Step : recursionStep T [] {| fn_name := name; fn_idx := length pre |}
                 = Some [{| rec_name := name; calls := length ms |}]).
  { rewrite (recursionStep_at T [] {| fn_name := name; fn_idx := length pre |} _ body
               O1 O2 O3). cbn [fn_name].
    rewrite (callRe_word name Hw). fold (two_calls_body name b0 b1 b2) in Hms.
    fold body in Hms. rewrite Hms.
    replace (0 <? length ms) with true by (symmetry; apply Nat.ltb_lt; lia).
    reflexivity. }
  destruct (foldM_total (recursionStep T)
              (fun a b => @recursionStep_total T a b) Wds
              [{| rec_name := name; calls := length ms |}]) as (r & Hr).
  destruct (foldM_recursion_prefix T ds _ _ Hr) as (x & ->).
  exists {| found := 0 <? length ([{| rec_name := name; calls := length ms |}] ++ x);
            functions := [{| rec_name := name; calls := length ms |}] ++ x |},
         (length ms).
  split_and!.
  - unfold detectRecursion. rewrite Hds. cbn [foldM]. rewrite Step, Hr. reflexivity.
  - left. reflexivity.
  - exact Hlen.
Qed.

(** C6 (amended): for every input whose sanitized text has, at its first
    [function] keyword, a declaration [function name(...) {body}] with a
    brace-balanced body that contains two call sites [name(], neither of them
    after a word character, and in which no known-algorithm pattern matches,
    the recursion analyzer records [name] with two calls or more, and the
    time is "O(2^n) (possible exponential recursive branching)", which
    contains "O(2^n)", the space is "O(n) (recursion stack)" and the
    explanation cites multiple recursive calls, likely exponential; loops in
    the input do not change this. *)
Theorem two_call_sites_exponential
    (raw pre sp1 name sp2 sig b0 b1 b2 post : str) :
  stripCommentsAndStrings raw
  = Some (function_text pre sp1 name sp2 sig (two_calls_body name b0 b1 b2) post) ->
  hd_error (occurrences (lit "function")
              (function_text pre sp1 name sp2 sig (two_calls_body name b0 b1 b2) post) 0)
  = Some (length pre) ->
  sp1 <> [] -> forallb is_space sp1 = true -> ident name = true ->
  forallb is_space sp2 = true -> forallb (not_char "{") sig = true ->
  balanced (two_calls_body name b0 b1 b2) ->
  word_at (prev_after None b0) = false ->
  word_at (prev_after (Some "("%char) b1) = false ->
  detectKnownAlgorithms
    (function_text pre sp1 name sp2 sig (two_calls_body name b0 b1 b2) post) = None ->
  exists ri n verdict,
    detectRecursion
      (function_text pre sp1 name sp2 sig (two_calls_body name b0 b1 b2) post) = Some ri
    /\ In {| rec_name := name; calls := n |} (functions ri) /\ 2 <= n
    /\ analyzeComplexity raw = Some verdict
    /\ time verdict = "O(2^n) (possible exponential recursive branching)"%string
    /\ includes (lit (time verdict)) (lit "O(2^n)") = true
    /\ space verdict = "O(n) (recursion stack)"%string
    /\ timeExplanation verdict
       = "Recursion with multiple recursive calls detected — likely exponential."%string
    /\ spaceExplanation verdict = "Recursion stack grows with depth."%string.
Proof.
  intros Hs Hocc Hne Hsp1 Hname Hsp2 Hsig Hbal Hb0 Hb1 Hk.
  destruct (detectRecursion_two_calls pre sp1 name sp2 sig b0 b1 b2 post
              Hocc Hne Hsp1 Hname Hsp2 Hsig Hbal Hb0 Hb1) as (ri & n & Hr & Hin & Hn).
  set (cleaned := function_text pre sp1 name sp2 sig (two_calls_body name b0 b1 b2) post)
    in *.
  destruct (detectLoopsAndNesting_total cleaned) as (li & Hl).
  exists ri, n. eexists. split; [exact Hr|]. split; [exact Hin|]. split; [exact Hn|].
  rewrite (analyze_structural raw cleaned li ri
             (function_text_nontrivial raw _ _ _ _ _ _ _ Hs) Hs Hk Hl Hr).
  unfold structuralVerdict, recursionVerdict.
  rewrite (found_of_member cleaned ri _ Hr Hin).
  assert (Hm : existsb (fun f => 1 <? calls f) (functions ri) = true).
  { apply existsb_exists. eexists. split; [exact Hin|]. apply Nat.ltb_lt. simpl. lia. }
  rewrite Hm. split; [reflexivity|]. split_and!; reflexivity.
Qed.

Lemma two_call_sites_exponential_witness :
  exists ri n verdict,
    detectRecursion two_calls_sample = Some ri
    /\ In {| rec_name := lit "paths"; calls := n |} (functions ri) /\ 2 <= n
    /\ analyzeComplexity two_calls_sample = Some verdict
    /\ time verdict = "O(2^n) (possible exponential recursive branching)"%string
    /\ includes (lit (time verdict)) (lit "O(2^n)") = true
    /\ space verdict = "O(n) (recursion stack)"%string
    /\ timeExplanation verdict
       = "Recursion with multiple recursive calls detected — likely exponential."%string
    /\ spaceExplanation verdict = "Recursion stack grows with depth."%string.
Proof.
  refine (two_call_sites_exponential two_calls_sample [] (lit " ") (lit "paths") []
            (lit "n) ") (lit " if (n < 2) return 1; return ") (lit "n - 1) + ")
            (lit "n - 2); ") [] _ _ _ _ _ _ _ _ _ _ _);
    try (vm_compute; reflexivity).
  - discriminate.
  - apply balanced_flat. vm_compute. reflexivity.
Defined.

(** C6 (as stated) fails.  The first function calls itself twice and has no
    loop, but its name is a known pattern, and the time does not contain
    "O(2^n)".  The second, in Python syntax, calls itself twice and has no
    loop either, but it has no brace-delimited body: the recursion analyzer
    records nothing and the time is "O(1)". *)
Lemma two_self_calls_not_exponential_counterexample :
  (option_map functions (detectRecursion merge_sort_sample)
   = Some [{| rec_name := lit "mergeSort"; calls := 2 |};
           {| rec_name := lit "mergeSort"; calls := 2 |}]
   /\ option_map loopCount (detectLoopsAndNesting merge_sort_sample) = Some 0
   /\ option_map time (analyzeComplexity merge_sort_sample) = Some "O(n log n)"%string
   /\ option_map (fun v => includes (lit (time v)) (lit "O(2^n)"))
        (analyzeComplexity merge_sort_sample) = Some false)
  /\ (detectKnownAlgorithms python_fib_like = None
      /\ option_map functions (detectRecursion python_fib_like) = Some []
      /\ option_map loopCount (detectLoopsAndNesting python_fib_like) = Some 0
      /\ option_map time (analyzeComplexity python_fib_like) = Some "O(1)"%string
      /\ option_map (fun v => includes (lit (time v)) (lit "O(2^n)"))
           (analyzeComplexity python_fib_like) = Some false).
Proof. vm_compute. split_and!; reflexivity. Qed.

(** ** Matches taken apart: patterns made of characters, classes and stars
    of classes *)

Lemma chr_inv (c : ascii) (st : cursor) (cs : caps) (k : cursor -> caps -> outcome)
    (o : cursor * caps) :
  run (Chr c) st cs k = Some o ->
  exists t, rest st = c :: t /\ k (next st c t) cs = Some o.
Proof.
  simpl. destruct (rest st) as [|x t]; [discriminate|].
  destruct (Ascii.eqb_spec x c); [subst x | discriminate]. eauto.
Qed.

Lemma cls_inv (p : ascii -> bool) (st : cursor) (cs : caps)
    (k : cursor -> caps -> outcome) (o : cursor * caps) :
  run (Cls p) st cs k = Some o ->
  exists x t, rest st = x :: t /\ p x = true /\ k (next st x t) cs = Some o.
Proof.
  simpl. destruct (rest st) as [|x t]; [discriminate|].
  destruct (p x) eqn:E; [|discriminate]. eauto.
Qed.

Lemma star_cls_iter_inv (p : ascii -> bool) (g : bool) (k : cursor -> caps -> outcome)
    (cs : caps) (n : nat) :
  forall st o,
    star_iter (run (Cls p)) g k n st cs = Some o ->
    exists w st',
      forallb p w = true /\ reaches st st' w /\ k st' cs = Some o.
Proof.
  induction n as [|n IH]; intros st o H.
  - exists [], st. split_and!; auto using reaches_refl.
  - cbn [star_iter] in H.
    assert (More : forall o',
      run (Cls p) st cs
        (fun st' cs' => if idx st <? idx st' then star_iter (run (Cls p)) g k n st' cs'
                        else None) = Some o' ->
      exists w st', forallb p w = true /\ reaches st st' w /\ k st' cs = Some o').
    { intros o' M. apply cls_inv in M as (x & t & Hr & Hp & M).
      destruct (idx st <? idx (next st x t)); [|discriminate].
      destruct (IH _ _ M) as (w & st' & Hw & Hre & K).
      exists (x :: w), st'. split_and!; auto.
      - simpl. rewrite Hp. exact Hw.
      - apply (@reaches_trans st (next st x t) st' [x] w);
          [apply (@reaches_next st x t Hr) | exact Hre]. }
    destruct g.
    + destruct (run (Cls p) st cs _) as [o'|] eqn:E.
      * inversion H; subst o'. apply More. reflexivity.
      * exists [], st. split_and!; auto using reaches_refl.
    + destruct (k st cs) as [o'|] eqn:E.
      * inversion H; subst o'. exists [], st. split_and!; auto using reaches_refl.
      * apply More. exact H.
Qed.

Lemma star_cls_inv (p : ascii -> bool) (g : bool) (st : cursor) (cs : caps)
    (k : cursor -> caps -> outcome) (o : cursor * caps) :
  run (Star g (Cls p)) st cs k = Some o ->
  exists w st', forallb p w = true /\ reaches st st' w /\ k st' cs = Some o.
Proof. cbn [run]. apply star_cls_iter_inv. Qed.

Lemma seq_run (a b : regex) (st : cursor) (cs : caps) (k : cursor -> caps -> outcome) :
  run (Seq a b) st cs k = run a st cs (fun st' cs' => run b st' cs' k).
Proof. reflexivity. Qed.

Lemma group_run (i : nat) (a : regex) (st : cursor) (cs : caps)
    (k : cursor -> caps -> outcome) :
  run (Group i a) st cs k
  = run a st cs (fun st' cs' => k st' ((i, firstn (idx st' - idx st) (rest st)) :: cs')).
Proof. reflexivity. Qed.

Lemma firstn_length_app (a b : str) : firstn (length a) (a ++ b) = a.
Proof. induction a as [|x a IH]; simpl; [reflexivity | rewrite IH; reflexivity]. Qed.

(** A match of the pattern of line 192, taken apart: the type, white space,
    the name, the parameter list and the opening brace. *)
Lemma cStyle_shape (st : cursor) (m : MatchResult) :
  match_at cStyle st = Some m ->
  exists wA wS g w4 w5 w6 tl,
    rest st = wA ++ wS ++ g ++ w4 ++ "("%char :: w5 ++ ")"%char :: w6 ++ "{"%char :: tl
    /\ wS <> [] /\ forallb is_space wS = true
    /\ g <> [] /\ forallb is_word g = true
    /\ forallb is_space w4 = true /\ forallb (not_char ")") w5 = true
    /\ forallb is_space w6 = true /\ group 1 m = g.
Proof.
  unfold match_at. intros H.
  destruct (run cStyle st [] (fun st' cs' => Some (st', cs'))) as [[st' cs']|] eqn:E;
    [|discriminate].
  inversion H; subst m; clear H. unfold group. cbn [groups].
  unfold cStyle, ws1, ws, Plus, Ident, IdStart, Word, Space, NotChr in E. cbn [seqs] in E.
  rewrite seq_run in E. apply cls_inv in E as (x0 & t0 & R0 & _ & E). cbv beta in E.
  rewrite !seq_run in E. apply cls_inv in E as (x1 & t1 & R1 & _ & E). cbv beta in E.
  apply star_cls_inv in E as (w1 & st2 & _ & (R2 & _) & E). cbv beta in E.
  rewrite !seq_run in E. apply cls_inv in E as (s0 & t3 & R3 & Hs0 & E). cbv beta in E.
  apply star_cls_inv in E as (wS & st4 & HwS & (R4 & _) & E). cbv beta in E.
  rewrite seq_run, group_run, seq_run in E.
  apply cls_inv in E as (c & t5 & R5 & Hc & E). cbv beta in E.
  apply star_cls_inv in E as (v & st6 & Hv & (R6 & I6) & E). cbv beta in E.
  rewrite seq_run in E.
  apply star_cls_inv in E as (w4 & st7 & Hw4 & (R7 & _) & E). cbv beta in E.
  rewrite seq_run in E. apply chr_inv in E as (t8 & R8 & E). cbv beta in E.
  rewrite seq_run in E.
  apply star_cls_inv in E as (w5 & st9 & Hw5 & (R9 & _) & E). cbv beta in E.
  rewrite seq_run in E. apply chr_inv in E as (t10 & R10 & E). cbv beta in E.
  rewrite seq_run in E.
  apply star_cls_inv in E as (w6 & st11 & Hw6 & (R11 & _) & E). cbv beta in E.
  apply chr_inv in E as (t12 & R12 & E). cbv beta in E.
  inversion E; subst st' cs'; clear E.
  simpl in R1, R2, R3, R4, R5, R6, I6, R7, R8, R9, R10, R11, R12.
  exists (x0 :: x1 :: w1), (s0 :: wS), (c :: v), w4, w5, w6, t12.
  split_and!.
  - rewrite R0, R1, R2, R3, R4, R5, R6, R7, R8, R9, R10, R11, R12.
    simpl. rewrite <- ?app_assoc. reflexivity.
  - discriminate.
  - simpl. rewrite Hs0. exact HwS.
  - discriminate.
  - simpl. rewrite (ident_is_word c Hc). exact Hv.
  - exact Hw4.
  - exact Hw5.
  - exact Hw6.
  - cbn [cap_get Nat.eqb]. rewrite I6. simpl idx.
    rewrite R5, R6. simpl.
    replace (S (idx st4 + length v) - idx st4) with (S (length v)) by lia.
    simpl. rewrite firstn_length_app. reflexivity.
Qed.

(** ** Runs of characters at the end of a text *)

Lemma leading_run_unique (P : ascii -> bool) (b : str) :
  forall b' x x' a a',
    b ++ x :: a = b' ++ x' :: a' ->
    forallb P b = true -> forallb P b' = true -> P x = false -> P x' = false ->
    b = b' /\ x :: a = x' :: a'.
Proof.
  induction b as [|y b IH]; intros [|y' b'] x x' a a' E Hb Hb' Hx Hx'; simpl in *.
  - auto.
  - inversion E; subst. apply andb_prop in Hb' as [Hy _]. congruence.
  - inversion E; subst. apply andb_prop in Hb as [Hy _]. congruence.
  - inversion E; subst. apply andb_prop in Hb as [_ Hb].
    apply andb_prop in Hb' as [_ Hb'].
    destruct (IH _ _ _ _ _ H1 Hb Hb' Hx Hx') as (-> & ->). auto.
Qed.

Lemma forallb_rev (P : ascii -> bool) (s : str) :
  forallb P s = true -> forallb P (rev s) = true.
Proof.
  intros H. apply forallb_forall. intros x Hx. apply in_rev in Hx.
  rewrite forallb_forall in H. auto.
Qed.

(** A text that ends with a run of [P] characters after a character that
    is not one is cut in one way only. *)
Lemma trailing_run_unique (P Q : ascii -> bool) (a s b a' s' b' : str) :
  (forall x, Q x = true -> P x = false) ->
  s <> [] -> s' <> [] -> forallb Q s = true -> forallb Q s' = true ->
  forallb P b = true -> forallb P b' = true ->
  (a ++ s) ++ b = (a' ++ s') ++ b' ->
  b = b' /\ a ++ s = a' ++ s'.
Proof.
  intros HQ Hs Hs' Qs Qs' Pb Pb' E.
  apply (f_equal (@rev ascii)) in E. rewrite !rev_app_distr in E.
  destruct (rev s) as [|z r] eqn:Ez.
  { apply (f_equal (@rev ascii)) in Ez. rewrite rev_involutive in Ez. simpl in Ez.
    congruence. }
  destruct (rev s') as [|z' r'] eqn:Ez'.
  { apply (f_equal (@rev ascii)) in Ez'. rewrite rev_involutive in Ez'. simpl in Ez'.
    congruence. }
  assert (Qz : Q z = true).
  { pose proof (forallb_rev Q s Qs) as F. rewrite Ez in F. simpl in F.
    apply andb_prop in F as [F _]. exact F. }
  assert (Qz' : Q z' = true).
  { pose proof (forallb_rev Q s' Qs') as F. rewrite Ez' in F. simpl in F.
    apply andb_prop in F as [F _]. exact F. }
  simpl in E.
  destruct (leading_run_unique P (rev b) (rev b') z z' _ _ E
              (forallb_rev P b Pb) (forallb_rev P b' Pb') (HQ z Qz) (HQ z' Qz'))
    as (E1 & E2).
  split.
  - apply (f_equal (@rev ascii)) in E1. rewrite !rev_involutive in E1. exact E1.
  - change ((z :: r) ++ rev a = (z' :: r') ++ rev a') in E2.
    rewrite <- Ez, <- Ez', <- !rev_app_distr in E2.
    apply (f_equal (@rev ascii)) in E2. rewrite !rev_involutive in E2. exact E2.
Qed.

Lemma app_eq_length (a b a' b' : str) :
  a ++ b = a' ++ b' -> length a = length a' -> a = a' /\ b = b'.
Proof.
  revert a'. induction a as [|x a IH]; intros [|x' a'] E L; simpl in *;
    try discriminate; auto.
  inversion E; subst. destruct (IH a' H1 ltac:(lia)) as (-> & ->). auto.
Qed.

Lemma word_not_space (c : ascii) : is_word c = true -> is_space c = false.
Proof.
  intros H. apply negb_true_iff.
  apply (@cls_within_sound (fun x => negb (is_space x)) is_word c eq_refl H).
Qed.

(** In a text whose only opening brace is the one of a declaration
    [function name(params) {], every match of the pattern of line 192 ends
    at that brace and captures [name]. *)
Lemma cStyle_in_function
    (pre sp1 name sp2 params sp3 body post : str) (li : nat) (m : MatchResult) :
  forallb (not_char "{") pre = true -> forallb (not_char "(") pre = true ->
  sp1 <> [] -> forallb is_space sp1 = true -> ident name = true ->
  forallb is_space sp2 = true ->
  forallb (not_char "(") params = true -> forallb (not_char "{") params = true ->
  forallb is_space sp3 = true ->
  forallb (not_char "{") body = true -> forallb (not_char "{") post = true ->
  exec cStyle (function_text pre sp1 name sp2 (params ++ ")"%char :: sp3) body post) li
  = Some m ->
  group 1 m = name
  /\ index m <= length (pre ++ function_head sp1 name sp2 (params ++ ")"%char :: sp3)).
Proof.
  intros Hpre1 Hpre2 Hne Hsp1 Hname Hsp2 Hpar1 Hpar2 Hsp3 Hbody Hpost E.
  set (Hd := pre ++ function_head sp1 name sp2 (params ++ ")"%char :: sp3)).
  set (T := function_text pre sp1 name sp2 (params ++ ")"%char :: sp3) body post) in *.
  pose proof (ident_word name Hname) as Hw.
  assert (Hnn : name <> []) by (destruct name; [discriminate | congruence]).
  assert (ET : T = Hd ++ "{"%char :: (body ++ "}"%char :: post)).
  { unfold T, function_text, Hd. rewrite <- app_assoc. reflexivity. }
  assert (HdNo : forallb (not_char "{") Hd = true).
  { unfold Hd. rewrite forallb_app, Hpre1. simpl.
    apply function_head_no_brace; auto.
    rewrite forallb_app, Hpar2. simpl.
    revert Hsp3. apply forallb_weaken. intros x.
    apply (@cls_within_sound (not_char "{") is_space x eq_refl). }
  assert (TlNo : forallb (not_char "{") (body ++ "}"%char :: post) = true).
  { rewrite forallb_app, Hbody. simpl. exact Hpost. }
  unfold exec in E. destruct (exec_scan_at _ _ _ _ _ _ E) as (p' & M & _).
  rewrite Nat.sub_0_r in M.
  destruct (cStyle_shape _ m M)
    as (wA & wS & g & w4 & w5 & w6 & tl & S & HwS0 & HwS & Hg0 & Hg & Hw4 & _ & Hw6 & G).
  cbn [rest] in S.
  set (U := firstn (index m) T).
  set (L := wA ++ wS ++ g ++ w4 ++ "("%char :: w5 ++ ")"%char :: w6).
  assert (S' : skipn (index m) T = L ++ "{"%char :: tl).
  { rewrite S. unfold L. repeat (rewrite <- app_assoc; simpl). reflexivity. }
  assert (ET2 : T = (U ++ L) ++ "{"%char :: tl).
  { rewrite <- app_assoc, <- S'. unfold U. symmetry. apply firstn_skipn. }
  assert (Len : length (U ++ L) = length Hd).
  { apply (unique_char_pos "{" Hd (body ++ "}"%char :: post) _ HdNo TlNo).
    rewrite <- ET, ET2. apply nth_error_middle. }
  assert (EH : U ++ L = Hd).
  { refine (proj1 (app_eq_length _ _ _ _ _ Len)). rewrite <- ET2, <- ET. reflexivity. }
  assert (LU : length U = index m).
  { unfold U. apply firstn_length_le.
    destruct (Nat.le_gt_cases (index m) (length T)) as [|Hgt]; [assumption|].
    rewrite skipn_all2 in S' by lia. destruct L; discriminate. }
  split; [|rewrite <- Len, length_app; lia].
  rewrite G.
  (* the closing parenthesis and the white space after it *)
  assert (E1 : ((U ++ wA ++ wS ++ g ++ w4 ++ "("%char :: w5) ++ [")"%char]) ++ w6
               = ((pre ++ lit "function" ++ sp1 ++ name ++ sp2 ++ "("%char :: params)
                  ++ [")"%char]) ++ sp3).
  { transitivity (U ++ L); [unfold L; repeat (rewrite <- app_assoc; simpl); reflexivity|].
    rewrite EH. unfold Hd, function_head. repeat (rewrite <- app_assoc; simpl).
    reflexivity. }
  assert (Hcl : forall x, Ascii.eqb x ")" = true -> is_space x = false).
  { intros x Hx. apply Ascii.eqb_eq in Hx. subst x. reflexivity. }
  match type of E1 with
  | (?a ++ ?s) ++ ?b = (?a' ++ ?s') ++ ?b' =>
      destruct (trailing_run_unique is_space (fun x => Ascii.eqb x ")") a s b a' s' b'
                  Hcl ltac:(discriminate) ltac:(discriminate) eq_refl eq_refl
                  Hw6 Hsp3 E1) as (_ & E2)
  end.
  apply app_inj_tail in E2 as (E2 & _).
  (* the opening parenthesis *)
  assert (E3 : (U ++ wA ++ wS ++ g ++ w4) ++ "("%char :: w5
               = (pre ++ lit "function" ++ sp1 ++ name ++ sp2) ++ "("%char :: params).
  { repeat (rewrite <- app_assoc; simpl). exact E2. }
  assert (R2No : forallb (not_char "(") (pre ++ lit "function" ++ sp1 ++ name ++ sp2)
                 = true).
  { assert (Sp : forall s, forallb is_space s = true -> forallb (not_char "(") s = true).
    { intros s. apply forallb_weaken. intros x.
      apply (@cls_within_sound (not_char "(") is_space x eq_refl). }
    assert (Wd : forall s, forallb is_word s = true -> forallb (not_char "(") s = true).
    { intros s. apply forallb_weaken. intros x.
      apply (@cls_within_sound (not_char "(") is_word x eq_refl). }
    rewrite !forallb_app, Hpre2, (Sp _ Hsp1), (Sp _ Hsp2), (Wd _ Hw). reflexivity. }
  assert (Len3 : length (U ++ wA ++ wS ++ g ++ w4)
                 = length (pre ++ lit "function" ++ sp1 ++ name ++ sp2)).
  { apply (unique_char_pos "(" _ params _ R2No Hpar1).
    rewrite <- E3. apply nth_error_middle. }
  destruct (app_eq_length _ _ _ _ E3 Len3) as (E4 & _).
  (* the white space before the parenthesis, then the name *)
  assert (E5 : ((U ++ wA ++ wS) ++ g) ++ w4
               = ((pre ++ lit "function" ++ sp1) ++ name) ++ sp2).
  { repeat (rewrite <- app_assoc; simpl). exact E4. }
  destruct (trailing_run_unique is_space is_word _ _ _ _ _ _ word_not_space
              Hg0 Hnn Hg Hw Hw4 Hsp2 E5) as (_ & E6).
  assert (E7 : ((U ++ wA) ++ wS) ++ g = ((pre ++ lit "function") ++ sp1) ++ name).
  { repeat (rewrite <- app_assoc; simpl).
    repeat (rewrite <- app_assoc in E6; simpl in E6). exact E6. }
  destruct (trailing_run_unique is_word is_space _ _ _ _ _ _ space_not_word
              HwS0 Hne HwS Hsp1 Hg Hw E7) as (E8 & _).
  exact E8.
Qed.

Lemma callPattern_min (fname : str) : 1 <= min_len (callPattern fname).
Proof. simpl. lia. Qed.

Lemma exec_callPattern_occurrence (fname s : str) (li : nat) (m : MatchResult) :
  exec (callPattern fname) s li = Some m -> In (index m) (occurrences fname s 0).
Proof.
  intros E.
  destruct (@exec_inv any_char _ (callPattern_groups fname) s li m E) as (_ & H2 & H3 & _).
  pose proof (callPattern_min fname) as Hm.
  unfold exec in E. destruct (exec_scan_at _ _ _ _ _ _ E) as (p' & M & _).
  rewrite Nat.sub_0_r in M. unfold match_at in M.
  destruct (run (callPattern fname) _ [] _) as [o|] eqn:R; [|discriminate].
  unfold callPattern in R. rewrite seq_run in R. cbn [run] in R.
  destruct (xorb _ _); [|discriminate].
  apply run_Lit in R. cbn [rest] in R.
  apply (occurrences_spec fname s 0 (index m)); [lia | exact R].
Qed.

(** Lines 212 and 213: a body in which the name occurs once, at a call
    site, has one match. *)
Lemma one_call_site_counted (fname b0 b1 : str) :
  fname <> [] -> forallb is_word fname = true ->
  word_at (prev_after None b0) = false ->
  occurrences fname (one_call_body fname b0 b1) 0 = [length b0] ->
  exists m, match_all (callPattern fname) (one_call_body fname b0 b1) = Some [m].
Proof.
  intros Hne Hw H0 Hocc.
  set (body := one_call_body fname b0 b1) in *.
  destruct (callPattern_at (prev_after None b0) (0 + length b0) fname b1 H0 Hne Hw)
    as (ma & Ma & _).
  destruct (exec_scan_reach (callPattern fname) _ 0 ma b0 None 0 ltac:(lia) Ma)
    as (m1 & E1 & _).
  change (exec (callPattern fname) body 0 = Some m1) in E1.
  exists m1. unfold match_all.
  replace (length body + 2) with (S (S (length body))) by lia.
  cbn [exec_loop]. rewrite E1.
  destruct (@exec_inv any_char _ (callPattern_groups fname) body 0 m1 E1)
    as (_ & B1 & _).
  pose proof (callPattern_min fname) as Hm.
  replace (stop m1 =? index m1) with false by (symmetry; apply Nat.eqb_neq; lia).
  cbn [andb].
  destruct (exec (callPattern fname) body (stop m1)) as [m2|] eqn:E2; [|reflexivity].
  exfalso.
  pose proof (exec_callPattern_occurrence _ _ _ _ E1) as O1.
  pose proof (exec_callPattern_occurrence _ _ _ _ E2) as O2.
  rewrite Hocc in O1, O2. simpl in O1, O2.
  destruct (@exec_inv any_char _ (callPattern_groups fname) body _ m2 E2) as (B2 & _).
  lia.
Qed.

Lemma forallb_skipn (P : ascii -> bool) (n : nat) :
  forall s : str, forallb P s = true -> forallb P (skipn n s) = true.
Proof.
  induction n as [|n IH]; intros [|x s] H; simpl in *; auto.
  apply andb_prop in H as [_ H]. auto.
Qed.

Lemma no_brace_open (s : str) : no_brace s = true -> forallb (not_char "{") s = true.
Proof.
  unfold no_brace. apply forallb_weaken. intros x H.
  apply andb_prop in H as [H _]. exact H.
Qed.

Lemma foldM_all_same (code : str) (rec : RecursionRecord) (ds : list FnDecl) :
  Forall (fun d => forall r, recursionStep code r d = Some (r ++ [rec])) ds ->
  forall r, foldM (recursionStep code) r ds = Some (r ++ map (fun _ => rec) ds).
Proof.
  induction 1 as [|d ds Hd _ IH]; intros r; simpl.
  - rewrite app_nil_r. reflexivity.
  - rewrite Hd, IH, <- app_assoc. reflexivity.
Qed.

(** Lines 185 to 216 on a text that is one declaration with one call site
    in its body: every record of the recursion analyzer is the declared
    name with one call, and there is such a record. *)
Lemma detectRecursion_one_call
    (pre sp1 name sp2 params sp3 b0 b1 post : str) :
  occurrences (lit "function")
    (function_text pre sp1 name sp2 (params ++ ")"%char :: sp3)
       (one_call_body name b0 b1) post) 0 = [length pre] ->
  occurrences (lit "def")
    (function_text pre sp1 name sp2 (params ++ ")"%char :: sp3)
       (one_call_body name b0 b1) post) 0 = [] ->
  no_brace pre = true -> forallb (not_char "(") pre = true ->
  sp1 <> [] -> forallb is_space sp1 = true -> ident name = true ->
  forallb is_space sp2 = true ->
  forallb (not_char "(") params = true -> forallb (not_char "{") params = true ->
  forallb is_space sp3 = true ->
  no_brace (one_call_body name b0 b1) = true ->
  forallb (not_char "{") post = true ->
  word_at (prev_after None b0) = false ->
  occurrences name (one_call_body name b0 b1) 0 = [length b0] ->
  exists ri,
    detectRecursion
      (function_text pre sp1 name sp2 (params ++ ")"%char :: sp3)
         (one_call_body name b0 b1) post) = Some ri
    /\ In {| rec_name := name; calls := 1 |} (functions ri)
    /\ forall g, In g (functions ri) -> g = {| rec_name := name; calls := 1 |}.
Proof.
  intros Hfun Hdef Hpre1 Hpre2 Hne Hsp1 Hname Hsp2 Hpar1 Hpar2 Hsp3 Hbody Hpost Hb0 Hocc.
  set (sig := params ++ ")"%char :: sp3) in *.
  set (body := one_call_body name b0 b1) in *.
  set (T := function_text pre sp1 name sp2 sig body post) in *.
  set (B := length (pre ++ function_head sp1 name sp2 sig)).
  set (rec := {| rec_name := name; calls := 1 |}).
  pose proof (ident_word name Hname) as Hw.
  assert (Hnn : name <> []) by (destruct name; [discriminate | congruence]).
  assert (Hsig : forallb (not_char "{") sig = true).
  { unfold sig. rewrite forallb_app, Hpar2. simpl.
    revert Hsp3. apply forallb_weaken. intros x.
    apply (@cls_within_sound (not_char "{") is_space x eq_refl). }
  assert (HdNo : forallb (not_char "{") (pre ++ function_head sp1 name sp2 sig) = true).
  { rewrite forallb_app, (no_brace_open pre Hpre1). simpl.
    apply function_head_no_brace; auto. }
  destruct (one_call_site_counted name b0 b1 Hnn Hw Hb0 Hocc) as (mc & Hmc).
  fold body in Hmc.
  (* one turn of the loop over the declarations *)
  assert (Step : forall d, fn_name d = name -> fn_idx d <= B ->
                   forall r, recursionStep T r d = Some (r ++ [rec])).
  { intros d Hn Hi r.
    destruct (function_body pre sp1 name sp2 sig body post (fn_idx d)) as (O1 & O2 & O3).
    { apply forallb_skipn. exact HdNo. }
    { exact Hi. }
    { apply balanced_flat. exact Hbody. }
    rewrite (recursionStep_at T r d _ body O1 O2 O3), Hn, (callRe_word name Hw), Hmc.
    reflexivity. }
  (* the declarations *)
  destruct (jsFunc_at (prev_after None pre) (length pre) sp1 name sp2
              (sig ++ "{"%char :: body ++ "}"%char :: post) Hne Hsp1 Hname Hsp2)
    as (m0 & M0 & I0 & G0).
  pose (tailJ := seqs [ws1; Group 1 Ident; ws; Chr "("]).
  assert (ET : T = pre ++ lit "function" ++ sp1 ++ name ++ sp2
                   ++ "("%char :: (sig ++ "{"%char :: body ++ "}"%char :: post))
    by apply function_text_split.
  assert (Js : exec_while jsFunc T = Some [m0]).
  { change jsFunc with (Seq (Lit (lit "function")) tailJ) in *. rewrite ET.
    apply (exec_while_single (lit "function") tailJ eq_refl ltac:(simpl; lia));
      [rewrite <- ET; exact Hfun | exact M0]. }
  assert (Py : exec_while pyDef T = Some []).
  { change pyDef with (Seq (Lit (lit "def")) tailJ).
    apply (exec_while_absent (lit "def") tailJ eq_refl ltac:(simpl; lia)). exact Hdef. }
  destruct (@exec_while_total is_word cStyle eq_refl T ltac:(simpl; lia))
    as (cs & Cs & _).
  assert (Fc : Forall (fun m => group 1 m = name /\ index m <= B) cs).
  { unfold exec_while in Cs.
    apply (exec_loop_Forall (fun m => group 1 m = name /\ index m <= B) cStyle false T)
      with (2 := Cs).
    intros li m E.
    apply (cStyle_in_function pre sp1 name sp2 params sp3 body post li m);
      auto using no_brace_open. }
  set (decl := fun m => {| fn_name := group 1 m; fn_idx := index m |}).
  assert (Fd : Forall (fun d => forall r, recursionStep T r d = Some (r ++ [rec]))
                 (map decl [m0] ++ map decl [] ++ map decl cs)).
  { apply Forall_app_2; [|apply Forall_app_2].
    - constructor; [|constructor]. apply Step; simpl; [exact G0|].
      rewrite I0. unfold B. rewrite length_app. lia.
    - constructor.
    - apply List.Forall_forall. intros d Hd. apply in_map_iff in Hd as (m & <- & Hm).
      rewrite List.Forall_forall in Fc. destruct (Fc m Hm) as (Gm & Im).
      apply Step; simpl; assumption. }
  eexists. split_and!.
  - unfold detectRecursion, scanDecls. rewrite Js, Py, Cs.
    fold decl. rewrite (foldM_all_same T rec _ Fd []). reflexivity.
  - cbn [functions]. left. reflexivity.
  - cbn [functions]. intros g Hg. simpl in Hg. destruct Hg as [<-|Hg]; [reflexivity|].
    apply in_map_iff in Hg as (d & <- & _). reflexivity.
Qed.

Lemma scanLoops_none (code : str) :
  occurrences (lit "for") code 0 = [] -> occurrences (lit "while") code 0 = [] ->
  exists li, detectLoopsAndNesting code = Some li /\ loopCount li = 0.
Proof.
  intros Hf Hw.
  pose (tailF := seqs [ws; Chr "("; Group 1 (Star true (NotChr ")")); Chr ")"]).
  pose (tailR :=
    seqs [ws; Chr "(";
          Star true (Cls (fun x => (is_word x || is_space x || Ascii.eqb x ",")%bool));
          Chr ":"; ws; Star true (NotChr ")"); Chr ")"]).
  assert (S : scanLoops code = Some []).
  { unfold scanLoops.
    change forRegex with (Seq (Lit (lit "for")) tailF).
    change rangeForRegex with (Seq (Lit (lit "for")) tailR).
    change whileRegex with (Seq (Lit (lit "while")) tailF).
    rewrite (exec_while_absent (lit "for") tailF eq_refl ltac:(simpl; lia) _ Hf).
    rewrite (exec_while_absent (lit "while") tailF eq_refl ltac:(simpl; lia) _ Hw).
    rewrite (exec_while_absent (lit "for") tailR eq_refl ltac:(simpl; lia) _ Hf).
    reflexivity. }
  unfold detectLoopsAndNesting. rewrite S. simpl. eexists. split; reflexivity.
Qed.

(** C7 (amended): for every input whose sanitized text is one declaration
    [function name(params) {body}] (the only [function] keyword and the only
    opening brace of the text, with no parenthesis and no brace before it, no
    [def], [for] or [while]), whose body has no brace and contains [name]
    once, at a call site [name(] that does not follow a word character, and
    in which no known-algorithm pattern matches: every record of the
    recursion analyzer is [name] with one call, no loop is found, the time is
    "O(n) (single recursion)", not the bare "O(n)", the space is "O(n)", and
    the explanations are "Single recursion detected — typically linear." and
    "Recursion stack.". *)
Theorem single_call_site_linear
    (raw pre sp1 name sp2 params sp3 b0 b1 post : str) :
  stripCommentsAndStrings raw
  = Some (function_text pre sp1 name sp2 (params ++ ")"%char :: sp3)
            (one_call_body name b0 b1) post) ->
  occurrences (lit "function")
    (function_text pre sp1 name sp2 (params ++ ")"%char :: sp3)
       (one_call_body name b0 b1) post) 0 = [length pre] ->
  occurrences (lit "def")
    (function_text pre sp1 name sp2 (params ++ ")"%char :: sp3)
       (one_call_body name b0 b1) post) 0 = [] ->
  occurrences (lit "for")
    (function_text pre sp1 name sp2 (params ++ ")"%char :: sp3)
       (one_call_body name b0 b1) post) 0 = [] ->
  occurrences (lit "while")
    (function_text pre sp1 name sp2 (params ++ ")"%char :: sp3)
       (one_call_body name b0 b1) post) 0 = [] ->
  no_brace pre = true -> forallb (not_char "(") pre = true ->
  sp1 <> [] -> forallb is_space sp1 = true -> ident name = true ->
  forallb is_space sp2 = true ->
  forallb (not_char "(") params = true -> forallb (not_char "{") params = true ->
  forallb is_space sp3 = true ->
  no_brace (one_call_body name b0 b1) = true ->
  forallb (not_char "{") post = true ->
  word_at (prev_after None b0) = false ->
  occurrences name (one_call_body name b0 b1) 0 = [length b0] ->
  detectKnownAlgorithms
    (function_text pre sp1 name sp2 (params ++ ")"%char :: sp3)
       (one_call_body name b0 b1) post) = None ->
  exists ri li verdict,
    detectRecursion
      (function_text pre sp1 name sp2 (params ++ ")"%char :: sp3)
         (one_call_body name b0 b1) post) = Some ri
    /\ In {| rec_name := name; calls := 1 |} (functions ri)
    /\ (forall g, In g (functions ri) -> g = {| rec_name := name; calls := 1 |})
    /\ detectLoopsAndNesting
         (function_text pre sp1 name sp2 (params ++ ")"%char :: sp3)
            (one_call_body name b0 b1) post) = Some li
    /\ loopCount li = 0
    /\ analyzeComplexity raw = Some verdict
    /\ time verdict = "O(n) (single recursion)"%string
    /\ time verdict <> "O(n)"%string
    /\ space verdict = "O(n)"%string
    /\ timeExplanation verdict = "Single recursion detected — typically linear."%string
    /\ spaceExplanation verdict = "Recursion stack."%string.
Proof.
  intros Hs Hfun Hdef Hfor Hwhile Hpre1 Hpre2 Hne Hsp1 Hname Hsp2 Hpar1 Hpar2 Hsp3
    Hbody Hpost Hb0 Hocc Hk.
  destruct (detectRecursion_one_call pre sp1 name sp2 params sp3 b0 b1 post
              Hfun Hdef Hpre1 Hpre2 Hne Hsp1 Hname Hsp2 Hpar1 Hpar2 Hsp3 Hbody Hpost
              Hb0 Hocc) as (ri & Hr & Hin & Hall).
  set (cleaned := function_text pre sp1 name sp2 (params ++ ")"%char :: sp3)
                    (one_call_body name b0 b1) post) in *.
  destruct (scanLoops_none cleaned Hfor Hwhile) as (li & Hl & Hc).
  exists ri, li. eexists.
  split; [exact Hr|]. split; [exact Hin|]. split; [exact Hall|].
  split; [exact Hl|]. split; [exact Hc|].
  rewrite (analyze_structural raw cleaned li ri
             (function_text_nontrivial raw _ _ _ _ _ _ _ Hs) Hs Hk Hl Hr).
  unfold structuralVerdict, recursionVerdict.
  rewrite (found_of_member cleaned ri _ Hr Hin), Hc.
  assert (Hm : existsb (fun f => 1 <? calls f) (functions ri) = false).
  { destruct (existsb _ (functions ri)) eqn:E; [|reflexivity].
    apply existsb_exists in E as (g & Hg & Hlt).
    rewrite (Hall g Hg) in Hlt. discriminate Hlt. }
  rewrite Hm. split; [reflexivity|]. split_and!; try reflexivity. discriminate.
Qed.

Lemma single_call_site_linear_witness :
  exists ri li verdict,
    detectRecursion single_call_sample = Some ri
    /\ In {| rec_name := lit "walk"; calls := 1 |} (functions ri)
    /\ (forall g, In g (functions ri) -> g = {| rec_name := lit "walk"; calls := 1 |})
    /\ detectLoopsAndNesting single_call_sample = Some li
    /\ loopCount li = 0
    /\ analyzeComplexity single_call_sample = Some verdict
    /\ time verdict = "O(n) (single recursion)"%string
    /\ time verdict <> "O(n)"%string
    /\ space verdict = "O(n)"%string
    /\ timeExplanation verdict = "Single recursion detected — typically linear."%string
    /\ spaceExplanation verdict = "Recursion stack."%string.
Proof.
  refine (single_call_site_linear single_call_sample [] (lit " ") (lit "walk") []
            (lit "n") (lit " ") (lit " if (n <= 0) return 0; return 1 + ")
            (lit "n - 1); ") [] _ _ _ _ _ _ _ _ _ _ _ _ _ _ _ _ _ _ _);
    try (vm_compute; reflexivity).
  discriminate.
Defined.

(** C7 (as stated) fails three times.  The first function has exactly one
    self-call and no loop, and the time is "O(n) (single recursion)", not the
    text "O(n)".  The second has one self-call and no loop, but its name is a
    known pattern and the time is the one of DFS.  The third, in Python
    syntax, has one self-call and no loop, but no brace-delimited body: the
    recursion analyzer records nothing and the time is "O(1)". *)
Lemma single_self_call_not_linear_counterexample :
  (option_map functions (detectRecursion one_call_sample)
   = Some [{| rec_name := lit "f"; calls := 1 |}; {| rec_name := lit "f"; calls := 1 |}]
   /\ option_map loopCount (detectLoopsAndNesting one_call_sample) = Some 0
   /\ option_map time (analyzeComplexity one_call_sample)
      = Some "O(n) (single recursion)"%string
   /\ option_map time (analyzeComplexity one_call_sample) <> Some "O(n)"%string)
  /\ (option_map functions (detectRecursion known_name_one_call)
      = Some [{| rec_name := lit "dfs"; calls := 1 |};
              {| rec_name := lit "dfs"; calls := 1 |}]
      /\ option_map loopCount (detectLoopsAndNesting known_name_one_call) = Some 0
      /\ option_map time (analyzeComplexity known_name_one_call)
         = Some "O(V + E)"%string
      /\ option_map time (analyzeComplexity known_name_one_call)
         <> Some "O(n) (single recursion)"%string)
  /\ (detectKnownAlgorithms python_one_call = None
      /\ option_map functions (detectRecursion python_one_call) = Some []
      /\ option_map loopCount (detectLoopsAndNesting python_one_call) = Some 0
      /\ option_map time (analyzeComplexity python_one_call) = Some "O(1)"%string
      /\ option_map time (analyzeComplexity python_one_call)
         <> Some "O(n) (single recursion)"%string).
Proof. vm_compute. split_and!; try reflexivity; discriminate. Qed.
